(** * TP Tree Viewer: call-tree reconstruction, visibility projection,
      performance aggregation and value formatting

    A shallow embedding of the TypeScript sources

    - [src/types.ts]                         (module [Types])
    - [src/utils/treeTransform.ts]           (module [treeTransform])
    - [src/components/TreeView.tsx]          (module [TreeView], the
                                              [visibleNodes] projection)
    - [src/components/PerformanceAnalysis.tsx] (module
                                              [PerformanceAnalysis], the
                                              [analysis] rollup)

    followed by the properties stated about them.

    Modelling conventions.

    - A JavaScript [number] is an IEEE-754 binary64 value: the kernel's
      primitive [float], whose [+], [-], [*], [/], [<], [<=] and [==] are
      the IEEE operations JavaScript uses.  Counters that only ever hold
      array lengths or event indices ([depth], [call_count], [index]) are
      [nat]; they are converted with [JS.number_of_nat] where the source
      mixes them with other numbers.
    - A JavaScript string is a [string]: its characters are read as the
      code units U+0000..U+00FF, so [length] is the JavaScript [length].
    - Objects that the source mutates while they are shared (the nodes
      held at once by [nodes], [stack], [callStack] and by their parent's
      [children] array) live in an explicit store, addressed by the index
      of the event that created them.
    - [String(number)] and [Number.prototype.toFixed] are host functions
      that no property below depends on; they are parameters of the formatters. *)

From Stdlib Require Import Floats ZArith Ascii String List Permutation Lia.
From stdpp Require Import base option gmap strings list pretty.

#[local] Set Warnings "-register-all,-inexact-float".

(* ===================================================================== *)
(** * Host language: numbers, strings, arrays *)
(* ===================================================================== *)

Module JS.

(** [!x] on a number: [0], [-0] and [NaN] are falsy. *)
Definition falsy (x : float) : bool :=
  PrimFloat.is_zero x || PrimFloat.is_nan x.

(** [Math.max(a, b)]: [NaN] if either is, [+0] above [-0]. *)
Definition Math_max (a b : float) : float :=
  if PrimFloat.is_nan a || PrimFloat.is_nan b then PrimFloat.nan
  else if (a <? b)%float then b
  else if (b <? a)%float then a
  else if PrimFloat.is_zero a && PrimFloat.get_sign a then b
  else a.

(** [Math.min(a, b)]: [NaN] if either is, [-0] below [+0]. *)
Definition Math_min (a b : float) : float :=
  if PrimFloat.is_nan a || PrimFloat.is_nan b then PrimFloat.nan
  else if (b <? a)%float then b
  else if (a <? b)%float then a
  else if PrimFloat.is_zero a && negb (PrimFloat.get_sign a) then b
  else a.

Definition Infinity : float := PrimFloat.infinity.

(** An array length or index as a number (exact below 2^53). *)
Definition number_of_nat (n : nat) : float :=
  PrimFloat.of_uint63 (Uint63.of_Z (Z.of_nat n)).

(** [String(n)] / [`${n}`] for a non-negative integer below 1e21. *)
Definition String_of_nat (n : nat) : string := pretty n.

Definition String_of_boolean (b : bool) : string :=
  if b then "true" else "false".

Fixpoint map_chars (f : ascii -> ascii) (s : string) : string :=
  match s with
  | EmptyString => EmptyString
  | String c s' => String (f c) (map_chars f s')
  end.

(** [toLowerCase] on one code unit below U+0100: A-Z and the Latin-1
    capitals U+00C0..U+00DE (without the multiplication sign U+00D7)
    move up by 32. *)
Definition toLowerCase_unit (c : ascii) : ascii :=
  let n := N_of_ascii c in
  if ((65 <=? n) && (n <=? 90)
      || (192 <=? n) && (n <=? 222) && negb (n =? 215))%N
  then ascii_of_N (n + 32) else c.

Definition toLowerCase (s : string) : string := map_chars toLowerCase_unit s.

(** [s.includes(sub)] *)
Fixpoint includes (s sub : string) : bool :=
  String.prefix sub s
  || match s with
     | EmptyString => false
     | String _ s' => includes s' sub
     end.

(** Relative index of [slice]: negative counts from the end. *)
Definition relative_index (len i : Z) : Z :=
  if (i <? 0)%Z then Z.max (len + i) 0 else Z.min i len.

(** [s.slice(start, finish)] for integral arguments. *)
Definition slice (s : string) (start finish : Z) : string :=
  let len := Z.of_nat (String.length s) in
  let from := relative_index len start in
  let to := relative_index len finish in
  String.substring (Z.to_nat from) (Z.to_nat (Z.max (to - from) 0)) s.

Definition hex_digit (n : N) : ascii :=
  if (n <? 10)%N then ascii_of_N (48 + n) else ascii_of_N (87 + n).

Definition DQUOTE : ascii := "034"%char.
Definition BACKSLASH : ascii := "092"%char.

(** One code unit of [QuoteJSONString]. *)
Definition quote_unit (c : ascii) : string :=
  let n := N_of_ascii c in
  if (n =? 34)%N then String BACKSLASH (String DQUOTE "")
  else if (n =? 92)%N then String BACKSLASH (String BACKSLASH "")
  else if (n =? 8)%N then "\b"
  else if (n =? 9)%N then "\t"
  else if (n =? 10)%N then "\n"
  else if (n =? 12)%N then "\f"
  else if (n =? 13)%N then "\r"
  else if (n <? 32)%N then
    "\u00" +:+ String (hex_digit (n / 16)) (String (hex_digit (n mod 16)) "")
  else String c "".

Fixpoint quote_units (s : string) : string :=
  match s with
  | EmptyString => EmptyString
  | String c s' => quote_unit c +:+ quote_units s'
  end.

(** [JSON.stringify(s)] for a string [s]. *)
Definition JSON_stringify_string (s : string) : string :=
  String DQUOTE (quote_units s +:+ String DQUOTE "").

(** A decimal digit, and a string of decimal digits. *)
Definition is_digit (c : ascii) : bool :=
  Nat.leb 48 (nat_of_ascii c) && Nat.leb (nat_of_ascii c) 57.

Fixpoint all_digits (digits : string) : bool :=
  match digits with
  | EmptyString => true
  | String c rest => is_digit c && all_digits rest
  end.

(** [x] is not [NaN]. *)
Definition not_nan (x : float) : Prop := PrimFloat.is_nan x = false.

(** [x <= y] on the specification-level view of numbers. *)
Definition sf_le (x y : spec_float) : Prop :=
  SFcompare x y = Some Lt \/ SFcompare x y = Some Eq.

(** The line feed, U+000A. *)
Definition LF : ascii := "010"%char.

(** [parts.join(sep)] on an array of strings. *)
Fixpoint join (sep : string) (parts : list string) : string :=
  match parts with
  | [] => ""
  | [part] => part
  | part :: rest => part +:+ sep +:+ join sep rest
  end.

End JS.

(* ===================================================================== *)
(** * [src/types.ts] *)
(* ===================================================================== *)

Module Types.

(** The [event] tag: ['call' | 'return' | 'call_return']. *)
Inductive EventKind := ev_call | ev_return | ev_call_return.

#[global] Instance EventKind_eq_dec : EqDecision EventKind.
Proof. solve_decision. Defined.

(** A value of TypeScript type [any], as the formatters inspect it with
    [=== null], [typeof] and [Array.isArray].  [VObject] lists the own
    enumerable properties in [Object.keys] order. *)
Inductive any :=
| VNull
| VUndefined
| VBoolean (b : bool)
| VNumber (x : float)
| VString (s : string)
| VSymbol (description : string)
| VArray (items : list any)
| VObject (entries : list (string * any)).

(** The interface [Parameter] ([Parameter] is a reserved word here). *)
Record Param := {
  type : string;
  name : string;
  value : any }.

(** [number | null] fields are [option]s, [None] being [null]. *)
Record TreeNodeData := {
  event : EventKind;
  method_name : string;
  parameters : option (list Param);
  return_value : any;
  depth : nat;
  defined_class : option string;
  path : option string;
  lineno : option nat;
  start_time : option float;
  end_time : option float;
  duration : option float }.

(** [TreeNodeDisplay extends TreeNodeData].  The [parent] back-reference
    is kept as the parent's address in the store, that is the index of the
    event that created the parent. *)
Inductive TreeNodeDisplay := mkTreeNodeDisplay {
  node_data :> TreeNodeData;
  id : string;
  children : list TreeNodeDisplay;
  isExpanded : bool;
  level : nat;
  parent : option nat }.

End Types.

(* ===================================================================== *)
(** * [src/utils/treeTransform.ts] *)
(* ===================================================================== *)

Module treeTransform.
Import Types.

(** ** The store of node objects

    [transformTreeData] holds every node object through several
    references at once.  A [StoredNode] is such an object; its [children]
    array and [parent] field hold addresses.  The object created for the
    event at [index] lives at address [index]. *)

Record StoredNode := {
  s_data : TreeNodeData;
  s_id : string;
  s_children : list nat;
  s_isExpanded : bool;
  s_level : nat;
  s_parent : option nat }.

(** The three locals of [transformTreeData] and the store.  [stack] is
    kept with its top (the array's last element) at the head. *)
Record State := {
  store : gmap nat StoredNode;
  nodes : list nat;
  stack : list nat;
  callStack : gmap string nat }.

Definition initial : State :=
  {| store := ∅; nodes := []; stack := []; callStack := ∅ |}.

(** [`${depth}-${method_name}`] *)
Definition callKey (depth : nat) (method_name : string) : string :=
  JS.String_of_nat depth +:+ "-" +:+ method_name.

(** [`node-${index}`] *)
Definition node_id (index : nat) : string :=
  "node-" +:+ JS.String_of_nat index.

(** [callNode.return_value = event.return_value;
     callNode.end_time = event.end_time;
     callNode.duration = event.duration], on the event fields. *)
Definition merge_data (event d : TreeNodeData) : TreeNodeData :=
  {| event := Types.event d;
     method_name := method_name d;
     parameters := parameters d;
     return_value := return_value event;
     depth := depth d;
     defined_class := defined_class d;
     path := path d;
     lineno := lineno d;
     start_time := start_time d;
     end_time := end_time event;
     duration := duration event |}.

Definition merge_return (event : TreeNodeData) (callNode : StoredNode)
  : StoredNode :=
  {| s_data := merge_data event (s_data callNode);
     s_id := s_id callNode;
     s_children := s_children callNode;
     s_isExpanded := s_isExpanded callNode;
     s_level := s_level callNode;
     s_parent := s_parent callNode |}.

(** [parent.children.push(node)] *)
Definition push_child (node : nat) (parent : StoredNode) : StoredNode :=
  {| s_data := s_data parent;
     s_id := s_id parent;
     s_children := s_children parent ++ [node];
     s_isExpanded := s_isExpanded parent;
     s_level := s_level parent;
     s_parent := s_parent parent |}.

(** The [while] loop: pop every stack entry whose [level] is at least
    [level], deleting the popped node's key from [callStack].  Reading
    through an address that holds no object has no counterpart in the
    source; it is the error [None]. *)
Fixpoint pop_stack (store : gmap nat StoredNode) (level : nat)
    (stack : list nat) (callStack : gmap string nat)
  : option (list nat * gmap string nat) :=
  match stack with
  | [] => Some ([], callStack)
  | top :: rest =>
      popped ← store !! top;
      if (level <=? s_level popped)%nat then
        let key := callKey (depth (s_data popped)) (method_name (s_data popped)) in
        pop_stack store level rest (delete key callStack)
      else Some (stack, callStack)
  end.

(** The body of [events.forEach((event, index) => ...)]. *)
Definition process (st : State) (index : nat) (event : TreeNodeData)
  : option State :=
  match Types.event event with
  | ev_return =>
      let key := callKey (depth event) (method_name event) in
      match callStack st !! key with
      | Some a =>
          callNode ← store st !! a;
          Some {| store := <[a := merge_return event callNode]> (store st);
                  nodes := nodes st;
                  stack := stack st;
                  callStack := delete key (callStack st) |}
      | None => Some st
      end
  | _ =>
      let level := depth event in
      '(stack1, callStack1) ← pop_stack (store st) level (stack st) (callStack st);
      '(store1, nodes1, parent) ←
        match stack1 with
        | p :: _ =>
            parentNode ← store st !! p;
            Some (<[p := push_child index parentNode]> (store st), nodes st, Some p)
        | [] => Some (store st, nodes st ++ [index], None)
        end;
      let node :=
        {| s_data := event;
           s_id := node_id index;
           s_children := [];
           s_isExpanded := true;
           s_level := level;
           s_parent := parent |} in
      let callStack2 :=
        match Types.event event with
        | ev_call => <[callKey (depth event) (method_name event) := index]> callStack1
        | _ => callStack1
        end in
      Some {| store := <[index := node]> store1;
              nodes := nodes1;
              stack := index :: stack1;
              callStack := callStack2 |}
  end.

Fixpoint forEach (events : list TreeNodeData) (index : nat) (st : State)
  : option State :=
  match events with
  | [] => Some st
  | event :: rest => st' ← process st index event; forEach rest (S index) st'
  end.

(** Reading the tree rooted at an address out of the store.  [fuel]
    bounds the height that is followed. *)
Fixpoint load (fuel : nat) (store : gmap nat StoredNode) (a : nat)
  : option TreeNodeDisplay :=
  match fuel with
  | O => None
  | S fuel =>
      n ← store !! a;
      kids ← mapM (load fuel store) (s_children n);
      Some {| node_data := s_data n;
              id := s_id n;
              children := kids;
              isExpanded := s_isExpanded n;
              level := s_level n;
              parent := s_parent n |}
  end.

(** The returned [nodes] array, read out of the final store. *)
Definition result_of (st : State) : option (list TreeNodeDisplay) :=
  mapM (load (S (size (store st))) (store st)) (nodes st).

Definition transformTreeData (events : list TreeNodeData)
  : option (list TreeNodeDisplay) :=
  st ← forEach events 0 initial; result_of st.

(** ** [flattenTree] *)

(** One iteration of [for (const node of nodeList)], [result] threaded. *)
Fixpoint traverse_node (node : TreeNodeDisplay) (result : list TreeNodeDisplay)
  : list TreeNodeDisplay :=
  let result := result ++ [node] in
  if isExpanded node && (0 <? length (children node))%nat
  then fold_left (fun result child => traverse_node child result)
                 (children node) result
  else result.

Definition traverse (nodeList result : list TreeNodeDisplay)
  : list TreeNodeDisplay :=
  fold_left (fun result node => traverse_node node result) nodeList result.

Definition flattenTree (nodes : list TreeNodeDisplay) : list TreeNodeDisplay :=
  traverse nodes [].

(** ** Formatters *)

Section Formatters.

(** [Number.prototype.toFixed] and [String(x)] on numbers. *)
Variable toFixed : float -> nat -> string.
Variable String_of_number : float -> string.

Definition formatDuration (duration : option float) : string :=
  match duration with
  | None => ""
  | Some duration =>
      if (duration <? 0.001)%float then
        toFixed (duration * 1000000)%float 1 +:+ "μs"
      else if (duration <? 1.0)%float then
        toFixed (duration * 1000)%float 1 +:+ "ms"
      else toFixed duration 3 +:+ "s"
  end.

(** [formatValue(value, maxLength = 50)]; [maxLength] is integral. *)
Fixpoint formatValue (value : any) (maxLength : Z) : string :=
  match value with
  | VNull => "nil"
  | VBoolean b => JS.String_of_boolean b
  | VNumber x => String_of_number x
  | VString s =>
      let quoted := JS.JSON_stringify_string s in
      if (maxLength <? Z.of_nat (String.length quoted))%Z
      then JS.slice quoted 0 (maxLength - 3) +:+ "..." +:+ String JS.DQUOTE ""
      else quoted
  | VSymbol description => ":" +:+ "Symbol(" +:+ description +:+ ")"
  | VArray items =>
      match items with
      | [] => "[]"
      | [v0] => "[" +:+ formatValue v0 20 +:+ "]"
      | v0 :: _ =>
          "[" +:+ formatValue v0 15 +:+ ", ... +"
              +:+ JS.String_of_nat (length items - 1) +:+ " more]"
      end
  | VObject entries =>
      match entries with
      | [] => "{}"
      | [(k, v)] =>
          let formatted := "{" +:+ k +:+ ": " +:+ formatValue v 20 +:+ "}" in
          if (maxLength <? Z.of_nat (String.length formatted))%Z
          then "{" +:+ k +:+ ": ...}"
          else formatted
      | (k0, _) :: _ =>
          "{" +:+ k0 +:+ ": ..., +"
              +:+ JS.String_of_nat (length entries - 1) +:+ " more}"
      end
  | VUndefined =>
      let str := "undefined" in
      if (maxLength <? Z.of_nat (String.length str))%Z
      then JS.slice str 0 (maxLength - 3) +:+ "..."
      else str
  end.

(** The [switch (type)] that the three [map] callbacks of
    [formatParameters] and [formatParametersFull] repeat word for word;
    [format] is the value formatter the callback calls. *)
Definition formatParameter (format : any -> string) (param : Param) : string :=
  let type := Types.type param in
  let name := Types.name param in
  let value := Types.value param in
  if String.eqb type "req" || String.eqb type "opt" then
    name +:+ " = " +:+ format value
  else if String.eqb type "keyreq" || String.eqb type "key" then
    match value with
    | VNull => name +:+ ":"
    | _ => name +:+ " = " +:+ format value
    end
  else if String.eqb type "rest" then "*" +:+ name
  else if String.eqb type "keyrest" then "**" +:+ name
  else if String.eqb type "block" then "&" +:+ name
  else name.

(** [formatParameters(parameters)]; [null] is the only value of the
    field that is not an array. *)
Definition formatParameters (parameters : option (list Param)) : string :=
  match parameters with
  | None => ""
  | Some parameters =>
      if (length parameters =? 0)%nat then ""
      else if (3 <? length parameters)%nat then
        let first :=
          JS.join ", " (map (formatParameter (fun value => formatValue value 25))
                            (take 2 parameters)) in
        first +:+ ", ... +" +:+ JS.String_of_nat (length parameters - 2)
              +:+ " more"
      else
        JS.join ", " (map (formatParameter (fun value => formatValue value 30))
                          parameters)
  end.

(** [formatValueFull(value)] *)
Fixpoint formatValueFull (value : any) : string :=
  match value with
  | VNull => "nil"
  | VBoolean b => JS.String_of_boolean b
  | VNumber x => String_of_number x
  | VString s => String JS.DQUOTE (s +:+ String JS.DQUOTE "")
  | VSymbol description => ":" +:+ "Symbol(" +:+ description +:+ ")"
  | VArray items =>
      match items with
      | [] => "[]"
      | _ =>
          let items :=
            JS.join ("," +:+ String JS.LF "  ") (map formatValueFull items) in
          "[" +:+ String JS.LF "  " +:+ items +:+ String JS.LF "]"
      end
  | VObject entries =>
      match entries with
      | [] => "{}"
      | _ =>
          let items :=
            JS.join ("," +:+ String JS.LF "  ")
              (map (fun entry : string * any =>
                      let (k, v) := entry in
                      JS.JSON_stringify_string k +:+ ": " +:+ formatValueFull v)
                   entries) in
          "{" +:+ String JS.LF "  " +:+ items +:+ String JS.LF "}"
      end
  | VUndefined => "undefined"
  end.

(** [formatParametersFull(parameters)] *)
Definition formatParametersFull (parameters : option (list Param)) : string :=
  match parameters with
  | None => ""
  | Some parameters =>
      JS.join ("," +:+ String JS.LF "")
              (map (formatParameter formatValueFull) parameters)
  end.

End Formatters.

End treeTransform.

(* ===================================================================== *)
(** * [src/components/TreeView.tsx]: the [visibleNodes] projection *)
(* ===================================================================== *)

Module TreeView.
Import Types.

Section VisibleNodes.

(** The component state read by the [useMemo] callback. *)
Variable expandedNodes : gset string.
Variable searchTerm : string.
Variable showOnlyFiltered : bool.

Definition searchLower : string := JS.toLowerCase searchTerm.

(** [!searchTerm ||
     node.method_name.toLowerCase().includes(searchLower) ||
     node.defined_class?.toLowerCase().includes(searchLower)],
    as a truth value. *)
Definition matchesSearch (node : TreeNodeDisplay) : bool :=
  match searchTerm with EmptyString => true | _ => false end
  || JS.includes (JS.toLowerCase (method_name node)) searchLower
  || match defined_class node with
     | Some c => JS.includes (JS.toLowerCase c) searchLower
     | None => false
     end.

(** One iteration of [for (const node of nodes)], [result] threaded. *)
Fixpoint traverse_node (node : TreeNodeDisplay) (result : list TreeNodeDisplay)
  : list TreeNodeDisplay :=
  let result :=
    if negb showOnlyFiltered || matchesSearch node
    then result ++ [node] else result in
  if bool_decide (id node ∈ expandedNodes) && (0 <? length (children node))%nat
  then fold_left (fun result child => traverse_node child result)
                 (children node) result
  else result.

Definition traverse (nodes result : list TreeNodeDisplay)
  : list TreeNodeDisplay :=
  fold_left (fun result node => traverse_node node result) nodes result.

Definition visibleNodes (data : list TreeNodeDisplay) : list TreeNodeDisplay :=
  traverse data [].

End VisibleNodes.

(** The duration badge of a row ([TreeNodeItem]):
    [const duration = formatDuration(node.duration)] and
    [{duration && <span>[{duration}]</span>}]; the empty string is falsy,
    so no badge is rendered for it. *)
Definition durationBadge (toFixed : float -> nat -> string)
    (node : TreeNodeDisplay) : option string :=
  match treeTransform.formatDuration toFixed (duration node) with
  | EmptyString => None
  | duration => Some ("[" +:+ duration +:+ "]")
  end.

(** ** Component state *)

Definition DEPTH_COLORS : list string :=
  ["text-green-400"; "text-blue-400"; "text-yellow-400";
   "text-pink-400"; "text-cyan-400"; "text-red-400"].

(** [DEPTH_COLORS[depth % DEPTH_COLORS.length]]; [None] is [undefined]. *)
Definition getDepthColor (depth : nat) : option string :=
  DEPTH_COLORS !! (depth mod length DEPTH_COLORS).

(** The effect run when [data] changes: the set handed to
    [setExpandedNodes]. *)
Definition rootNodeIds (data : list TreeNodeDisplay) : gset string :=
  fold_left (fun rootNodeIds (node : TreeNodeDisplay) =>
               {[id node]} ∪ rootNodeIds) data ∅.

(** The updater [toggleExpansion] passes to [setExpandedNodes]. *)
Definition toggleExpansion (nodeId : string) (prev : gset string)
  : gset string :=
  if decide (nodeId ∈ prev) then prev ∖ {[nodeId]} else {[nodeId]} ∪ prev.

(** [collect] of the Expand All button, [allIds] threaded. *)
Fixpoint collect_node (node : TreeNodeDisplay) (allIds : gset string)
  : gset string :=
  let allIds :=
    if (0 <? length (children node))%nat then {[id node]} ∪ allIds
    else allIds in
  fold_left (fun allIds child => collect_node child allIds)
            (children node) allIds.

Definition collect (nodes : list TreeNodeDisplay) (allIds : gset string)
  : gset string :=
  fold_left (fun allIds node => collect_node node allIds) nodes allIds.

(** The sets the Expand All and Collapse All buttons install. *)
Definition expandAll (data : list TreeNodeDisplay) : gset string :=
  collect data ∅.

Definition collapseAll : gset string := ∅.

(** [selectedNode ? visibleNodes.find(n => n.id === selectedNode) : null];
    [None] stands for both [null] and [undefined]. *)
Definition selectedNodeData (selectedNode : option string)
    (visibleNodes : list TreeNodeDisplay) : option TreeNodeDisplay :=
  match selectedNode with
  | None | Some EmptyString => None
  | Some selected =>
      find (fun n : TreeNodeDisplay => String.eqb (id n) selected) visibleNodes
  end.

End TreeView.

(* ===================================================================== *)
(** * [src/components/PerformanceAnalysis.tsx]: the [analysis] rollup *)
(* ===================================================================== *)

Module MethodStats.

Record t := {
  method_name : string;
  class_name : option string;
  total_time : float;
  call_count : nat;
  average_time : float;
  max_time : float;
  min_time : float;
  node_ids : list string }.

End MethodStats.

Module PerformanceAnalysis.
Import Types.

(** [Array.prototype.sort(compare)]: a stable sort; [a] moves behind [b]
    exactly when [compare(a, b) > 0]. *)
Section Sort.
Context {A : Type} (compare : A -> A -> float).

Fixpoint sort_insert (a : A) (sorted : list A) : list A :=
  match sorted with
  | [] => [a]
  | b :: rest =>
      if (0 <? compare a b)%float then b :: sort_insert a rest
      else a :: sorted
  end.

Definition sort (l : list A) : list A := foldr sort_insert [] l.

End Sort.

(** [collectNodes]: [allNodes.push(node); collectNodes(node.children)]. *)
Fixpoint collect_node (node : TreeNodeDisplay) (allNodes : list TreeNodeDisplay)
  : list TreeNodeDisplay :=
  fold_left (fun allNodes child => collect_node child allNodes)
            (children node) (allNodes ++ [node]).

Definition collectNodes (nodes allNodes : list TreeNodeDisplay)
  : list TreeNodeDisplay :=
  fold_left (fun allNodes node => collect_node node allNodes) nodes allNodes.

(** [!node.duration || node.duration <= 0] *)
Definition skipped (duration : option float) : bool :=
  match duration with
  | None => true
  | Some d => JS.falsy d || (d <=? 0)%float
  end.

(** [`${node.defined_class || 'Unknown'}#${node.method_name}`] *)
Definition key_of (defined_class : option string) (method_name : string)
  : string :=
  match defined_class with
  | None | Some EmptyString => "Unknown"
  | Some c => c
  end +:+ "#" +:+ method_name.

(** The object [methodStats], as its entries in property-creation
    order (the order [Object.values] follows for these keys). *)
Fixpoint get (key : string) (methodStats : list (string * MethodStats.t))
  : option MethodStats.t :=
  match methodStats with
  | [] => None
  | (k, stats) :: rest => if String.eqb k key then Some stats else get key rest
  end.

(** In-place update of the object stored under [key]. *)
Fixpoint update (key : string) (f : MethodStats.t -> MethodStats.t)
    (methodStats : list (string * MethodStats.t))
  : list (string * MethodStats.t) :=
  match methodStats with
  | [] => []
  | (k, stats) :: rest =>
      if String.eqb k key then (k, f stats) :: rest
      else (k, stats) :: update key f rest
  end.

Definition fresh_stats (node : TreeNodeDisplay) : MethodStats.t :=
  {| MethodStats.method_name := method_name node;
     MethodStats.class_name := defined_class node;
     MethodStats.total_time := 0;
     MethodStats.call_count := 0;
     MethodStats.average_time := 0;
     MethodStats.max_time := 0;
     MethodStats.min_time := JS.Infinity;
     MethodStats.node_ids := [] |}.

Definition record_call (node_id : string) (d : float) (stats : MethodStats.t)
  : MethodStats.t :=
  {| MethodStats.method_name := MethodStats.method_name stats;
     MethodStats.class_name := MethodStats.class_name stats;
     MethodStats.total_time := (MethodStats.total_time stats + d)%float;
     MethodStats.call_count := MethodStats.call_count stats + 1;
     MethodStats.average_time := MethodStats.average_time stats;
     MethodStats.max_time := JS.Math_max (MethodStats.max_time stats) d;
     MethodStats.min_time := JS.Math_min (MethodStats.min_time stats) d;
     MethodStats.node_ids := MethodStats.node_ids stats ++ [node_id] |}.

(** The body of [allNodes.forEach(node => ...)]. *)
Definition analyze_node (methodStats : list (string * MethodStats.t))
    (node : TreeNodeDisplay) : list (string * MethodStats.t) :=
  if skipped (duration node) then methodStats
  else
    let d := default 0%float (duration node) in
    let key := key_of (defined_class node) (method_name node) in
    let methodStats :=
      match get key methodStats with
      | Some _ => methodStats
      | None => methodStats ++ [(key, fresh_stats node)]
      end in
    update key (record_call (id node) d) methodStats.

(** The body of [Object.values(methodStats).forEach(stats => ...)]. *)
Definition finish_stats (stats : MethodStats.t) : MethodStats.t :=
  {| MethodStats.method_name := MethodStats.method_name stats;
     MethodStats.class_name := MethodStats.class_name stats;
     MethodStats.total_time := MethodStats.total_time stats;
     MethodStats.call_count := MethodStats.call_count stats;
     MethodStats.average_time :=
       (MethodStats.total_time stats
        / JS.number_of_nat (MethodStats.call_count stats))%float;
     MethodStats.max_time := MethodStats.max_time stats;
     MethodStats.min_time :=
       if (MethodStats.min_time stats =? JS.Infinity)%float then 0%float
       else MethodStats.min_time stats;
     MethodStats.node_ids := MethodStats.node_ids stats |}.

(** [methodStats] once both loops have run. *)
Definition methodStats_of (allNodes : list TreeNodeDisplay)
  : list (string * MethodStats.t) :=
  map (fun entry => (entry.1, finish_stats entry.2))
      (fold_left analyze_node allNodes []).

(** [Object.values(methodStats)] *)
Definition values (methodStats : list (string * MethodStats.t))
  : list MethodStats.t := map snd methodStats.

(** [n.duration || 0] *)
Definition duration_or_0 (duration : option float) : float :=
  match duration with
  | Some d => if JS.falsy d then 0%float else d
  | None => 0%float
  end.

(** [n.duration && n.duration > 0], as a truth value. *)
Definition positive (duration : option float) : bool :=
  match duration with
  | Some d => negb (JS.falsy d) && (0 <? d)%float
  | None => false
  end.

Record Analysis := {
  byTotalTime : list MethodStats.t;
  byAverageTime : list MethodStats.t;
  byCallCount : list MethodStats.t;
  slowCalls : list TreeNodeDisplay;
  totalTime : float;
  totalCalls : nat }.

Definition analysis (data : list TreeNodeDisplay) : Analysis :=
  let allNodes := collectNodes data [] in
  let methodStats := methodStats_of allNodes in
  {| byTotalTime :=
       take 10 (sort (fun a b => (MethodStats.total_time b
                                  - MethodStats.total_time a)%float)
                     (values methodStats));
     byAverageTime :=
       take 10 (sort (fun a b => (MethodStats.average_time b
                                  - MethodStats.average_time a)%float)
                     (filter (fun s => 1 <= MethodStats.call_count s)
                             (values methodStats)));
     byCallCount :=
       take 10 (sort (fun a b => (JS.number_of_nat (MethodStats.call_count b)
                                  - JS.number_of_nat (MethodStats.call_count a))%float)
                     (values methodStats));
     slowCalls :=
       take 15 (sort (fun a b : TreeNodeDisplay =>
                        (duration_or_0 (duration b)
                         - duration_or_0 (duration a))%float)
                     (filter (fun n : TreeNodeDisplay => positive (duration n))
                             allNodes));
     totalTime :=
       fold_left (fun sum (n : TreeNodeDisplay) => (sum + duration_or_0 (duration n))%float)
                 allNodes 0%float;
     totalCalls := length allNodes |}.

(** [MethodCard]'s [onClick]:
    [stats.node_ids[0] && onNodeSelect(stats.node_ids[0])]; the id handed
    to [onNodeSelect], if the handler calls it. *)
Definition methodCard_onClick (stats : MethodStats.t) : option string :=
  match MethodStats.node_ids stats with
  | [] => None
  | EmptyString :: _ => None
  | nodeId :: _ => Some nodeId
  end.

End PerformanceAnalysis.

(* ===================================================================== *)
(** * Specification-level notions

    The vocabulary in which the properties below are stated: pre-order
    flattening, the projection described in words, nesting of traces,
    groups of calls.  None of these is read off the source. *)
(* ===================================================================== *)

Module Spec.
Import Types.

(** Pre-order: a node, then its children in order, recursively. *)
Fixpoint preorder_node (node : TreeNodeDisplay) : list TreeNodeDisplay :=
  node :: flat_map preorder_node (children node).

Definition preorder (forest : list TreeNodeDisplay) : list TreeNodeDisplay :=
  flat_map preorder_node forest.

(** ** Traces *)

(** Perfectly nested, matched call/return pairs: a sequence of calls at
    depth [d], each followed by the nested calls it makes at depth
    [d + 1] and then by its own return. *)
Inductive well_nested : nat -> list TreeNodeData -> Prop :=
| nested_nil d : well_nested d []
| nested_call d c r inner rest :
    event c = ev_call -> depth c = d ->
    event r = ev_return -> depth r = d -> method_name r = method_name c ->
    well_nested (S d) inner ->
    well_nested d rest ->
    well_nested d (c :: inner ++ r :: rest).

(** The pending-return index once [events] have been processed. *)
Definition pending (events : list TreeNodeData) : gmap string nat :=
  match treeTransform.forEach events 0 treeTransform.initial with
  | Some st => treeTransform.callStack st
  | None => ∅
  end.

(** The first event of [events] that creates a node. *)
Definition next_created (events : list TreeNodeData) : option TreeNodeData :=
  head (filter (fun e => event e <> ev_return) events).

(** An event with the given kind, method name, depth and return value
    and nothing else. *)
Definition trace_event (kind : EventKind) (method : string) (d : nat)
    (result : any) : TreeNodeData :=
  {| event := kind; method_name := method; parameters := None;
     return_value := result; depth := d; defined_class := None;
     path := None; lineno := None; start_time := None; end_time := None;
     duration := None |}.

(** ** Visibility projection, as described *)

(** [text] contains [search], ignoring case. *)
Definition contains_ci (text search : string) : bool :=
  JS.includes (JS.toLowerCase text) (JS.toLowerCase search).

(** A node is emitted if [filteredOnly] is false, or its [method_name] or
    [defined_class] contains [search] ignoring case. *)
Definition emitted (search : string) (filteredOnly : bool)
    (node : TreeNodeDisplay) : bool :=
  negb filteredOnly
  || contains_ci (method_name node) search
  || match defined_class node with
     | Some c => contains_ci c search
     | None => false
     end.

(** Depth-first traversal: a node's children are traversed only if its id
    is in [expanded]. *)
Fixpoint project_node (expanded : gset string) (search : string)
    (filteredOnly : bool) (node : TreeNodeDisplay) : list TreeNodeDisplay :=
  (if emitted search filteredOnly node then [node] else [])
  ++ (if bool_decide (id node ∈ expanded)
      then flat_map (project_node expanded search filteredOnly) (children node)
      else []).

Definition project (forest : list TreeNodeDisplay) (expanded : gset string)
    (search : string) (filteredOnly : bool) : list TreeNodeDisplay :=
  flat_map (project_node expanded search filteredOnly) forest.

(** ** Groups of calls *)

(** A present, positive duration. *)
Definition qualifies (node : TreeNodeDisplay) : bool :=
  match duration node with
  | Some d => (0 <? d)%float
  | None => false
  end.

(** The key of a node's group: its class, or Unknown when it has none,
    then a hash sign, then its method name. *)
Definition group_key (node : TreeNodeDisplay) : string :=
  PerformanceAnalysis.key_of (defined_class node) (method_name node).

(** The qualifying nodes of [nodes] whose key is [key], in order. *)
Definition group (key : string) (nodes : list TreeNodeDisplay)
  : list TreeNodeDisplay :=
  filter (fun node => qualifies node = true /\ group_key node = key) nodes.

(** The durations that are present, in order. *)
Definition durations (nodes : list TreeNodeDisplay) : list float :=
  omap (fun node : TreeNodeDisplay => duration node) nodes.

(** The sum of numbers, added left to right from zero. *)
Definition fsum (ds : list float) : float := fold_left PrimFloat.add ds 0%float.

Definition is_maximum (m : float) (ds : list float) : Prop :=
  m ∈ ds /\ forall d, d ∈ ds -> (d <=? m)%float = true.

Definition is_minimum (m : float) (ds : list float) : Prop :=
  m ∈ ds /\ forall d, d ∈ ds -> (m <=? d)%float = true.

(** The key under which a Method Stat was collected. *)
Definition stats_key (stats : MethodStats.t) : string :=
  PerformanceAnalysis.key_of (MethodStats.class_name stats)
                             (MethodStats.method_name stats).

End Spec.

(* ===================================================================== *)
(** * The store as a forest

    What relates the store that [transformTreeData] builds to the forest
    it returns, and the invariants of its loop. *)
(* ===================================================================== *)

Module Repr.
Import Types treeTransform.

(** The fields of a node other than its children. *)
Definition label (t : TreeNodeDisplay)
  : TreeNodeData * string * bool * nat * option nat :=
  (node_data t, id t, isExpanded t, level t, parent t).

Definition s_label (n : StoredNode)
  : TreeNodeData * string * bool * nat * option nat :=
  (s_data n, s_id n, s_isExpanded n, s_level n, s_parent n).

(** [repr store a t]: the tree [t] is what the object at address [a]
    and the objects reachable through [children] arrays look like. *)
Inductive repr (store : gmap nat StoredNode) : nat -> TreeNodeDisplay -> Prop :=
| repr_node a n t :
    store !! a = Some n ->
    label t = s_label n ->
    Forall2 (repr store) (s_children n) (children t) ->
    repr store a t.

(** A childless object as a tree. *)
Definition leaf_tree (n : StoredNode) : TreeNodeDisplay :=
  {| node_data := s_data n; id := s_id n; children := [];
     isExpanded := s_isExpanded n; level := s_level n; parent := s_parent n |}.

Definition with_children (t : TreeNodeDisplay) (kids : list TreeNodeDisplay)
  : TreeNodeDisplay :=
  {| node_data := node_data t; id := id t; children := kids;
     isExpanded := isExpanded t; level := level t; parent := parent t |}.

(** The return merge, on the node of a forest whose id is [target]. *)
Fixpoint merge_tree (target : string) (event : TreeNodeData)
    (t : TreeNodeDisplay) : TreeNodeDisplay :=
  {| node_data := if decide (id t = target)
                  then merge_data event (node_data t) else node_data t;
     id := id t;
     children := map (merge_tree target event) (children t);
     isExpanded := isExpanded t; level := level t; parent := parent t |}.

(** [chain store l spine]: [spine] descends from the last element of
    [l] through last children. *)
Inductive chain (store : gmap nat StoredNode) : list nat -> list nat -> Prop :=
| chain_nil l : chain store l []
| chain_cons l a n rest :
    last l = Some a ->
    store !! a = Some n ->
    chain store (s_children n) rest ->
    chain store l (a :: rest).

(** Levels strictly decrease from the top of the stack downwards. *)
Fixpoint sorted_stack (store : gmap nat StoredNode) (stack : list nat) : Prop :=
  match stack with
  | [] => True
  | a :: rest =>
      (exists n, store !! a = Some n
                 /\ forall b, b ∈ rest ->
                      exists m, store !! b = Some m /\ s_level m < s_level n)
      /\ sorted_stack store rest
  end.

(** The events that create a node, with their indices. *)
Fixpoint created_from (index : nat) (events : list TreeNodeData)
  : list (nat * TreeNodeData) :=
  match events with
  | [] => []
  | e :: rest =>
      match event e with
      | ev_return => created_from (S index) rest
      | _ => (index, e) :: created_from (S index) rest
      end
  end.

Definition created (events : list TreeNodeData) : list (nat * TreeNodeData) :=
  created_from 0 events.

(** What never changes about a node once created. *)
Definition sig (t : TreeNodeDisplay)
  : string * EventKind * string * nat * nat * bool :=
  (id t, event t, method_name t, depth t, level t, isExpanded t).

Definition esig (ie : nat * TreeNodeData)
  : string * EventKind * string * nat * nat * bool :=
  (node_id ie.1, event ie.2, method_name ie.2, depth ie.2, depth ie.2, true).

Fixpoint height (t : TreeNodeDisplay) : nat :=
  S (foldr Nat.max 0 (map height (children t))).

(** The key under which a stored call awaits its return. *)
Definition key_of (n : StoredNode) : string :=
  callKey (depth (s_data n)) (method_name (s_data n)).

(** Invariants of the loop that speak of the store alone, after the
    events [evs]. *)
Record StoreInv (evs : list TreeNodeData) (st : State) : Prop := {
  si_nodes : forall a n, store st !! a = Some n ->
    exists e, evs !! a = Some e
      /\ event e <> ev_return
      /\ s_id n = node_id a
      /\ s_level n = depth e
      /\ s_isExpanded n = true
      /\ event (s_data n) = event e
      /\ method_name (s_data n) = method_name e
      /\ depth (s_data n) = depth e
      /\ (event e = ev_call_return -> s_data n = e);
  si_stack : sorted_stack (store st) (stack st);
  si_callStack : forall k a, callStack st !! k = Some a ->
    a ∈ stack st
    /\ exists n, store st !! a = Some n
         /\ event (s_data n) = ev_call /\ k = key_of n;
  si_kids : forall a n c, store st !! a = Some n -> c ∈ s_children n ->
    exists m, store st !! c = Some m
      /\ s_level n < s_level m /\ s_parent m = Some a;
  si_roots : forall a, a ∈ nodes st ->
    exists n, store st !! a = Some n /\ s_parent n = None }.

(** Invariants that relate the store to the forest [F] it represents. *)
Record TreeInv (evs : list TreeNodeData) (st : State)
    (F : list TreeNodeDisplay) : Prop := {
  ti_repr : Forall2 (repr (store st)) (nodes st) F;
  ti_chain : chain (store st) (nodes st) (rev (stack st));
  ti_sig : map sig (Spec.preorder F) = map esig (created evs);
  ti_size : size (store st) = length (Spec.preorder F) }.

(** The ids of the nodes of a forest, in pre-order. *)
Definition ids (F : list TreeNodeDisplay) : list string :=
  map id (Spec.preorder F).

(** [store'] keeps the objects of the nodes of [F]. *)
Definition kept (store store' : gmap nat StoredNode)
    (F : list TreeNodeDisplay) : Prop :=
  forall b n, store !! b = Some n -> s_id n ∈ ids F -> store' !! b = Some n.

(** Two objects that differ at most in the fields a return writes. *)
Definition same_node (n n' : StoredNode) : Prop :=
  s_id n' = s_id n /\ s_children n' = s_children n
  /\ s_isExpanded n' = s_isExpanded n /\ s_level n' = s_level n
  /\ s_parent n' = s_parent n
  /\ event (s_data n') = event (s_data n)
  /\ method_name (s_data n') = method_name (s_data n)
  /\ depth (s_data n') = depth (s_data n).

(** The object created for the event at [index]. *)
Definition new_node (index : nat) (e : TreeNodeData) (par : option nat)
  : StoredNode :=
  {| s_data := e; s_id := node_id index; s_children := [];
     s_isExpanded := true; s_level := depth e; s_parent := par |}.

(** The state after a [call] or [call_return] event, given what the
    [while] loop left. *)
Definition attached (st : State) (i : nat) (e : TreeNodeData)
    (stack1 : list nat) (cs1 : gmap string nat) (store1 : gmap nat StoredNode)
    (nodes1 : list nat) : State :=
  {| store := <[i := new_node i e (head stack1)]> store1;
     nodes := nodes1;
     stack := i :: stack1;
     callStack :=
       match event e with
       | ev_call => <[callKey (depth e) (method_name e) := i]> cs1
       | _ => cs1
       end |}.

(** The node at [i] is on top of the stack, at level [L], childless. *)
Definition open_leaf (i L : nat) (st : State) : Prop :=
  head (stack st) = Some i
  /\ exists n, store st !! i = Some n /\ s_children n = [] /\ s_level n = L.

End Repr.

(* ===================================================================== *)
(** * The aggregation loop, by group *)
(* ===================================================================== *)

Module Aggregation.
Import Types PerformanceAnalysis.

(** What the aggregation loop holds for a group once [members] have been
    seen. *)
Record collected (stats : MethodStats.t) (members : list TreeNodeDisplay)
  : Prop := {
  col_members : members <> [];
  col_total : MethodStats.total_time stats = Spec.fsum (Spec.durations members);
  col_count : MethodStats.call_count stats = length members;
  col_max : MethodStats.max_time stats
            = fold_left JS.Math_max (Spec.durations members) 0%float;
  col_min : MethodStats.min_time stats
            = fold_left JS.Math_min (Spec.durations members) JS.Infinity;
  col_ids : MethodStats.node_ids stats = map id members }.

Definition tracks (ms : list (string * MethodStats.t))
    (ns : list TreeNodeDisplay) : Prop :=
  NoDup ms.*1
  /\ (forall k s, (k, s) ∈ ms ->
        Spec.stats_key s = k /\ collected s (Spec.group k ns))
  /\ (forall n, n ∈ ns -> Spec.qualifies n = true -> Spec.group_key n ∈ ms.*1).

End Aggregation.

(* ===================================================================== *)
(** * Example traces and forests *)
(* ===================================================================== *)

Module Examples.
Import Types.

(** The example trace [call a; call b; return b; return a]. *)
Definition nested_example : list TreeNodeData :=
  [Spec.trace_event ev_call "a" 0 VUndefined;
   Spec.trace_event ev_call "b" 1 VUndefined;
   Spec.trace_event ev_return "b" 1 (VNumber 5);
   Spec.trace_event ev_return "a" 0 (VNumber 5)].

(** Two calls of [f] at depth 0, none of them returned yet. *)
Definition same_key_calls : list TreeNodeData :=
  [Spec.trace_event ev_call "f" 0 VUndefined;
   Spec.trace_event ev_call "f" 0 VUndefined].

(** A node as reconstruction builds it for the event at [index], with
    the given depth, parent, class, method name and duration. *)
Definition call_with (index d : nat) (par : option nat)
    (class : option string) (method : string) (time : option float)
    (kids : list TreeNodeDisplay) : TreeNodeDisplay :=
  {| node_data :=
       {| event := ev_call_return; method_name := method;
          parameters := None; return_value := VNull; depth := d;
          defined_class := class; path := None; lineno := None;
          start_time := None; end_time := None; duration := time |};
     id := treeTransform.node_id index;
     children := kids; isExpanded := true; level := d; parent := par |}.

(** One call of [A#f] whose duration is [Infinity] (what [JSON.parse]
    yields for a literal such as [1e999]). *)
Definition unbounded_call : list TreeNodeDisplay :=
  [call_with 0 0 None (Some "A") "f" (Some PrimFloat.infinity) []].

(** The example scenario: one method called three times, with
    durations 1, 2 and 3. *)
Definition three_calls : list TreeNodeDisplay :=
  [call_with 0 0 None (Some "A") "f" (Some 1%float)
     [call_with 1 1 (Some 0) (Some "A") "f" (Some 2%float) [];
      call_with 2 1 (Some 0) (Some "A") "f" (Some 3%float) []]].

(** The Method Stat of that scenario. *)
Definition three_calls_stats : MethodStats.t :=
  {| MethodStats.method_name := "f";
     MethodStats.class_name := Some "A";
     MethodStats.total_time := 6;
     MethodStats.call_count := 3;
     MethodStats.average_time := 2;
     MethodStats.max_time := 3;
     MethodStats.min_time := 1;
     MethodStats.node_ids := ["node-0"; "node-1"; "node-2"] |}.

(** Three calls in two groups, with durations 0.1, then 0.2 and 0.3. *)
Definition two_groups : list TreeNodeDisplay :=
  [call_with 0 0 None (Some "A") "f" (Some 0.1%float)
     [call_with 1 1 (Some 0) (Some "A") "g" (Some 0.2%float) [];
      call_with 2 1 (Some 0) (Some "A") "g" (Some 0.3%float) []]].

End Examples.

(* ===================================================================== *)
(** * The shape of the reconstructed forest *)
(* ===================================================================== *)

Module Shape.
Import Types treeTransform.

(** The index of the last node-creating event of [events] whose depth is
    below [d]. *)
Definition shallower (events : list TreeNodeData) (d : nat) : option nat :=
  last (filter (fun ie : nat * TreeNodeData => depth ie.2 < d)
               (Repr.created events)).*1.

(** The nearest node-creating event before the event at [j] whose depth
    is strictly smaller than that event's. *)
Definition nearest_shallower (events : list TreeNodeData) (j : nat)
  : option nat :=
  e ← events !! j; shallower (take j events) (depth e).

(** The object at [a] has a level below [d]. *)
Definition level_below (store : gmap nat StoredNode) (d a : nat) : bool :=
  match store !! a with
  | Some n => (s_level n <? d)%nat
  | None => false
  end.

(** What the [while] loop leaves on top of the stack for a node of
    level [d]. *)
Definition top_below (st : State) (d : nat) : option nat :=
  find (level_below (store st) d) (stack st).

(** The stack holds, for every level, the nearest shallower node; every
    [parent] reference is the nearest shallower node. *)
Record ShapeInv (evs : list TreeNodeData) (st : State) : Prop := {
  sh_stack : forall d, top_below st d = shallower evs d;
  sh_parent : forall a n, store st !! a = Some n ->
    s_parent n = nearest_shallower evs a }.

End Shape.

(* ===================================================================== *)
(** * Expansion state *)
(* ===================================================================== *)

Module Expansion.
Import Types.

(** The ids of the nodes of a tree that have children. *)
Fixpoint inner_ids (node : TreeNodeDisplay) : gset string :=
  (if (0 <? length (children node))%nat then {[id node]} else ∅)
  ∪ ⋃ (map inner_ids (children node)).

End Expansion.

(* ===================================================================== *)
(** * Parameters that render alike *)
(* ===================================================================== *)

Module Params.
Import Types.

(** The parameter kinds whose value is printed. *)
Definition shows_value (type : string) : bool :=
  String.eqb type "req" || String.eqb type "opt"
  || String.eqb type "keyreq" || String.eqb type "key".

(** Two parameters of the same kind and name, with the same value where
    the kind prints it. *)
Definition alike (p p' : Param) : Prop :=
  type p = type p' /\ name p = name p'
  /\ (shows_value (type p) = true -> value p = value p').

End Params.

(* ===================================================================== *)
(** * A call and its return *)
(* ===================================================================== *)

Module Pairing.
Import Types treeTransform.

(** The call [c], created at [i], is open: pending under its key, on
    the stack, its object still holding the call event's data. *)
Definition open_call (i : nat) (c : TreeNodeData) (st : State) : Prop :=
  callStack st !! callKey (depth c) (method_name c) = Some i
  /\ i ∈ stack st
  /\ exists n, store st !! i = Some n /\ s_data n = c.

(** The object at [i] holds [data] and no pending entry refers to it. *)
Definition settled (i : nat) (data : TreeNodeData) (st : State) : Prop :=
  (forall k, callStack st !! k <> Some i)
  /\ exists n, store st !! i = Some n /\ s_data n = data.

(** [after] is [before] with the return_value, end_time and duration of
    the return event [r], every other field as it was. *)
Definition returned (r before after : TreeNodeData) : Prop :=
  return_value after = return_value r
  /\ end_time after = end_time r
  /\ duration after = duration r
  /\ event after = event before
  /\ method_name after = method_name before
  /\ parameters after = parameters before
  /\ depth after = depth before
  /\ defined_class after = defined_class before
  /\ path after = path before
  /\ lineno after = lineno before
  /\ start_time after = start_time before.

(** The object at [i] holds [data]. *)
Definition holds_data (i : nat) (data : TreeNodeData) (st : State) : Prop :=
  exists n, store st !! i = Some n /\ s_data n = data.

(** [e] is no return event for the call [c]. *)
Definition no_return_of (c e : TreeNodeData) : Prop :=
  event e = ev_return ->
  ~ (depth e = depth c /\ method_name e = method_name c).

End Pairing.

(* ===================================================================== *)
(** * The order of IEEE-754 numbers

    What the aggregation needs of [<] and [<=] on numbers that are not
    [NaN], derived from the specification of the primitive operations
    ([Prim2SF], [SFcompare]). *)
(* ===================================================================== *)

Module FloatOrder.

Lemma SFcompare_cases x y :
  SFcompare x y = None \/ SFcompare x y = Some Lt \/
  SFcompare x y = Some Eq \/ SFcompare x y = Some Gt.
Proof. destruct (SFcompare x y) as [[]|]; auto. Qed.

Ltac sf_crush :=
  repeat match goal with
  | s : bool |- _ => destruct s
  end;
  simpl in *;
  repeat match goal with
  | H : context [PosDef.Pos.compare_cont Eq ?a ?b] |- _ =>
      change (PosDef.Pos.compare_cont Eq a b) with (Pos.compare a b) in H
  | |- context [PosDef.Pos.compare_cont Eq ?a ?b] =>
      change (PosDef.Pos.compare_cont Eq a b) with (Pos.compare a b)
  end;
  repeat match goal with
  | H : context [Z.compare ?a ?b] |- _ => destruct (Z.compare_spec a b); simpl in *
  | |- context [Z.compare ?a ?b] => destruct (Z.compare_spec a b); simpl in *
  | H : context [Pos.compare ?a ?b] |- _ => destruct (Pos.compare_spec a b); simpl in *
  | |- context [Pos.compare ?a ?b] => destruct (Pos.compare_spec a b); simpl in *
  end;
  subst; try congruence; try lia; auto.

Lemma SFcompare_refl x : x <> S754_nan -> SFcompare x x = Some Eq.
Proof. destruct x; intros; try congruence; sf_crush. Qed.

Lemma SFcompare_antisym x y c :
  SFcompare x y = Some c -> SFcompare y x = Some (CompOpp c).
Proof. destruct x, y; intros H; simpl in H; try discriminate; injection H as <-; sf_crush. Qed.

Lemma sf_le_trans x y z : JS.sf_le x y -> JS.sf_le y z -> JS.sf_le x z.
Proof.
  unfold JS.sf_le. destruct x, y, z; intros [H1|H1] [H2|H2]; simpl in H1, H2;
    try discriminate; try injection H1 as H1; try injection H2 as H2; sf_crush.
Qed.


(** Lifting to primitive floats. *)

Lemma ltb_iff x y :
  (x <? y)%float = true <-> SFcompare (Prim2SF x) (Prim2SF y) = Some Lt.
Proof.
  rewrite FloatAxioms.ltb_spec. unfold SFltb.
  destruct (SFcompare _ _) as [[]|]; split; congruence.
Qed.

Lemma leb_iff x y : (x <=? y)%float = true <-> JS.sf_le (Prim2SF x) (Prim2SF y).
Proof.
  rewrite FloatAxioms.leb_spec. unfold SFleb, JS.sf_le.
  destruct (SFcompare _ _) as [[]|]; split; intros; try tauto; try congruence;
    destruct H; congruence.
Qed.

Lemma not_nan_iff x : JS.not_nan x <-> Prim2SF x <> S754_nan.
Proof.
  unfold JS.not_nan, PrimFloat.is_nan. rewrite FloatAxioms.eqb_spec. unfold SFeqb. split.
  - intros H E. rewrite E in H. discriminate.
  - intros H. rewrite (SFcompare_refl _ H). reflexivity.
Qed.

Lemma ltb_not_nan_l x y : (x <? y)%float = true -> JS.not_nan x.
Proof.
  intros H. apply ltb_iff in H. apply not_nan_iff. intros E.
  rewrite E in H. discriminate.
Qed.

Lemma ltb_not_nan_r x y : (x <? y)%float = true -> JS.not_nan y.
Proof.
  intros H. apply ltb_iff in H. apply not_nan_iff. intros E.
  rewrite E in H. destruct (Prim2SF x); discriminate.
Qed.

Lemma leb_refl x : JS.not_nan x -> (x <=? x)%float = true.
Proof.
  intros H. apply not_nan_iff in H. apply leb_iff. right.
  by apply SFcompare_refl.
Qed.

Lemma leb_trans x y z :
  (x <=? y)%float = true -> (y <=? z)%float = true -> (x <=? z)%float = true.
Proof.
  intros H1 H2. apply leb_iff in H1, H2. apply leb_iff. eapply sf_le_trans; eauto.
Qed.

Lemma ltb_leb x y : (x <? y)%float = true -> (x <=? y)%float = true.
Proof. intros H. apply ltb_iff in H. apply leb_iff. by left. Qed.

Lemma compare_total x y :
  JS.not_nan x -> JS.not_nan y ->
  (x <? y)%float = true \/ (y <? x)%float = true
  \/ SFcompare (Prim2SF x) (Prim2SF y) = Some Eq.
Proof.
  intros Hx Hy. apply not_nan_iff in Hx, Hy. rewrite !ltb_iff.
  destruct (SFcompare_cases (Prim2SF x) (Prim2SF y)) as [H|[H|[H|H]]]; auto.
  - destruct (Prim2SF x), (Prim2SF y); try discriminate; congruence.
  - right; left. by apply SFcompare_antisym in H.
Qed.

Lemma not_ltb_leb x y :
  JS.not_nan x -> JS.not_nan y -> (x <? y)%float = false -> (y <=? x)%float = true.
Proof.
  intros Hx Hy H. rewrite leb_iff.
  destruct (compare_total x y Hx Hy) as [H'|[H'|H']].
  - congruence.
  - left. by apply ltb_iff.
  - right. by apply SFcompare_antisym in H'.
Qed.

Lemma not_leb_ltb x y :
  JS.not_nan x -> JS.not_nan y -> (x <=? y)%float = false -> (y <? x)%float = true.
Proof.
  intros Hx Hy H.
  destruct (compare_total x y Hx Hy) as [H'|[H'|H']]; auto.
  - apply ltb_leb in H'. congruence.
  - assert ((x <=? y)%float = true) by (apply leb_iff; by right). congruence.
Qed.

Lemma ltb_not_leb x y : (x <? y)%float = true -> (y <=? x)%float = false.
Proof.
  intros H. apply ltb_iff in H. apply not_true_is_false. intros E.
  apply leb_iff in E. apply SFcompare_antisym in H. simpl in H.
  destruct E as [E|E]; congruence.
Qed.

Lemma Prim2SF_zero : Prim2SF 0%float = S754_zero false.
Proof. reflexivity. Qed.

Lemma Prim2SF_infinity : Prim2SF PrimFloat.infinity = S754_infinity false.
Proof. reflexivity. Qed.

Lemma ltb_zero_not_zero x : (0 <? x)%float = true -> PrimFloat.is_zero x = false.
Proof.
  intros H. apply ltb_iff in H. unfold PrimFloat.is_zero.
  rewrite FloatAxioms.eqb_spec. unfold SFeqb.
  apply SFcompare_antisym in H. simpl in H.
  change PrimFloat.zero with 0%float. by rewrite H.
Qed.

(** A number that is neither below nor above [Infinity] is [Infinity]. *)
Lemma not_below_infinity x :
  JS.not_nan x -> (x <? PrimFloat.infinity)%float = false -> x = PrimFloat.infinity.
Proof.
  intros Hx H. apply not_nan_iff in Hx. apply Prim2SF_inj. rewrite Prim2SF_infinity.
  assert (SFcompare (Prim2SF x) (S754_infinity false) <> Some Lt) as H'.
  { intros E. rewrite <- Prim2SF_infinity in E. apply ltb_iff in E. congruence. }
  destruct (Prim2SF x) as [s|s| |s m e]; try congruence; simpl in H';
    destruct s; congruence.
Qed.

End FloatOrder.

(* ===================================================================== *)
(** * Reasoning principles for trees and loops *)
(* ===================================================================== *)

Section TreeInduction.
Import Types.

(** Induction on a node with the hypothesis available for every child. *)
Lemma TreeNodeDisplay_ind' (P : TreeNodeDisplay -> Prop) :
  (forall node, Forall P (children node) -> P node) ->
  forall node, P node.
Proof.
  intros step. fix IH 1. intros [d i kids e l p]. apply step. simpl.
  induction kids as [|kid kids IHkids]; constructor; [apply IH | exact IHkids].
Qed.

(** A loop that appends what [g] yields for each element. *)
Lemma fold_left_appending {A B} (f : list B -> A -> list B) (g : A -> list B)
    (l : list A) :
  Forall (fun x => forall acc, f acc x = acc ++ g x) l ->
  forall acc, fold_left f l acc = acc ++ flat_map g l.
Proof.
  induction 1 as [|x l Hx _ IH]; intros acc; simpl.
  - by rewrite app_nil_r.
  - by rewrite Hx, IH, app_assoc.
Qed.

End TreeInduction.

(* ===================================================================== *)
(** * Formatters *)
(* ===================================================================== *)

Section FormatterFacts.
Import Types treeTransform.

Variable toFixed : float -> nat -> string.
Variable String_of_number : float -> string.

(** C10. For an absent duration ([null]) [formatDuration] returns the
    empty string, not a sentinel, an error or a rendering of zero; a row
    whose call never returned ([duration] still [null]) gets no badge. *)
Theorem formatDuration_null :
  formatDuration toFixed None = ""
  /\ (forall node : TreeNodeDisplay, duration node = None ->
        TreeView.durationBadge toFixed node = None).
Proof.
  split; [reflexivity|]. intros node H. unfold TreeView.durationBadge.
  by rewrite H.
Qed.

Lemma length_append (s1 s2 : string) :
  String.length (s1 +:+ s2) = String.length s1 + String.length s2.
Proof. induction s1; simpl; auto. Qed.

Lemma length_substring_le n m s : String.length (String.substring n m s) <= m.
Proof.
  revert n m. induction s as [|c s IH]; intros [|n] [|m]; simpl; try lia.
  - specialize (IH 0 m). lia.
  - apply (IH n 0).
  - apply (IH n (S m)).
Qed.

Lemma prefix_substring m s : String.prefix (String.substring 0 m s) s = true.
Proof.
  revert m. induction s as [|c s IH]; intros [|m]; simpl; auto.
  rewrite IH. by destruct (Ascii.ascii_dec c c).
Qed.

Lemma slice_from_start_prefix s finish :
  String.prefix (JS.slice s 0 finish) s = true.
Proof.
  unfold JS.slice. simpl.
  replace (Z.to_nat (JS.relative_index (Z.of_nat (String.length s)) 0)) with 0.
  - apply prefix_substring.
  - unfold JS.relative_index. simpl. lia.
Qed.

Lemma length_slice_le s start finish :
  (0 <= finish)%Z ->
  (Z.of_nat (String.length (JS.slice s start finish)) <= finish)%Z.
Proof.
  intros H. unfold JS.slice.
  pose proof (length_substring_le
    (Z.to_nat (JS.relative_index (Z.of_nat (String.length s)) start))
    (Z.to_nat (Z.max (JS.relative_index (Z.of_nat (String.length s)) finish
                      - JS.relative_index (Z.of_nat (String.length s)) start) 0))
    s) as Hle.
  revert Hle. unfold JS.relative_index.
  repeat match goal with |- context [Z.ltb ?a ?b] => destruct (Z.ltb_spec a b) end;
    lia.
Qed.

(** The counterexample to C7: a ten-letter string formatted with
    [maxLength = 5] comes back six characters long (the cut keeps
    [maxLength - 3] characters and then appends the three dots and a
    closing quote), and [null] formatted with [maxLength = 2] is the
    three characters [nil]. *)
Lemma formatValue_exceeds_maxLength :
  (forall S, formatValue S (VString "abcdefghij") 5
             = String JS.DQUOTE ("a..." +:+ String JS.DQUOTE ""))
  /\ (forall S, String.length (formatValue S (VString "abcdefghij") 5) = 6)
  /\ (forall S, formatValue S VNull 2 = "nil").
Proof. repeat split. Qed.

#[local] Arguments JS.JSON_stringify_string : simpl never.
#[local] Arguments JS.slice : simpl never.
#[local] Arguments String.append : simpl never.
#[local] Arguments String.length : simpl never.
#[local] Arguments String.prefix : simpl never.

(** C7, amended.  [formatValue] applies [maxLength] only to strings,
    single-key mappings and values rendered by the final [String(value)]
    fallback.  A string whose JSON-quoted form is at most [maxLength] long
    is returned in full, so within the limit; a longer one is cut to a
    prefix of its quoted form followed by the ellipsis marker.  The
    fallback rendering is at most [maxLength] long when [maxLength >= 3].
    A single-key mapping is within [maxLength] or collapsed to its key
    and an ellipsis.  [null], booleans, numbers, symbols, sequences and
    multi-key mappings are rendered independently of [maxLength]. *)
Theorem formatValue_maxLength (value : any) (maxLength : Z) :
  let result := formatValue String_of_number value maxLength in
  match value with
  | VString s =>
      let quoted := JS.JSON_stringify_string s in
      if (Z.of_nat (String.length quoted) <=? maxLength)%Z
      then result = quoted /\ (Z.of_nat (String.length result) <= maxLength)%Z
      else exists kept,
             String.prefix kept quoted = true
             /\ result = kept +:+ "..." +:+ String JS.DQUOTE ""
  | VUndefined =>
      (3 <= maxLength)%Z -> (Z.of_nat (String.length result) <= maxLength)%Z
  | VObject [(k, _)] =>
      (Z.of_nat (String.length result) <= maxLength)%Z
      \/ result = "{" +:+ k +:+ ": ...}"
  | _ => forall maxLength', result = formatValue String_of_number value maxLength'
  end.
Proof.
  destruct value as [| |b|x|s|d|items|entries]; simpl.
  - (* null *) reflexivity.
  - (* undefined *)
    intros H. change (String.length "undefined") with 9.
    destruct (Z.ltb_spec maxLength (Z.of_nat 9)).
    + rewrite length_append. change (String.length "...") with 3.
      pose proof (length_slice_le "undefined" 0 (maxLength - 3)). lia.
    + change (String.length "undefined") with 9. lia.
  - (* boolean *) reflexivity.
  - (* number *) reflexivity.
  - (* string *)
    destruct (Z.leb_spec (Z.of_nat (String.length (JS.JSON_stringify_string s)))
                maxLength) as [Hfit|Hlong].
    + destruct (Z.ltb_spec maxLength
                  (Z.of_nat (String.length (JS.JSON_stringify_string s)))); [lia|].
      by split.
    + destruct (Z.ltb_spec maxLength
                  (Z.of_nat (String.length (JS.JSON_stringify_string s)))); [|lia].
      eexists. split; [apply slice_from_start_prefix|reflexivity].
  - (* symbol *) reflexivity.
  - (* sequence *)
    destruct items as [|v0 [|v1 rest]]; reflexivity.
  - (* mapping *)
    destruct entries as [|[k v] [|entry rest]]; try reflexivity.
    destruct (Z.ltb_spec maxLength
      (Z.of_nat (String.length ("{" +:+ k +:+ ": "
                  +:+ formatValue String_of_number v 20 +:+ "}"))));
      [by right | by left].
Qed.

End FormatterFacts.

(* ===================================================================== *)
(** * The visibility projection *)
(* ===================================================================== *)

Section VisibleNodesFacts.
Import Types.

Lemma includes_empty s : JS.includes s "" = true.
Proof. by destruct s. Qed.

Lemma matchesSearch_emitted search filteredOnly node :
  negb filteredOnly || TreeView.matchesSearch search node
  = Spec.emitted search filteredOnly node.
Proof.
  unfold TreeView.matchesSearch, Spec.emitted, Spec.contains_ci,
    TreeView.searchLower.
  destruct search as [|c search]; simpl.
  - rewrite includes_empty. by destruct filteredOnly.
  - by rewrite orb_assoc.
Qed.

Lemma traverse_node_project expanded search filteredOnly node :
  forall result,
    TreeView.traverse_node expanded search filteredOnly node result
    = result ++ Spec.project_node expanded search filteredOnly node.
Proof.
  induction node as [node IH] using TreeNodeDisplay_ind'. intros result.
  destruct node as [d i kids e l p]; simpl in *.
  rewrite matchesSearch_emitted.
  set (out := if Spec.emitted _ _ _ then _ else _).
  assert (out = result ++ (if Spec.emitted search filteredOnly
                                 (mkTreeNodeDisplay d i kids e l p)
                           then [mkTreeNodeDisplay d i kids e l p] else []))
    as -> by (subst out; destruct (Spec.emitted _ _ _); by rewrite ?app_nil_r).
  destruct (bool_decide (i ∈ expanded)); simpl.
  - destruct kids as [|kid kids]; simpl.
    + by rewrite app_nil_r.
    + inversion IH as [|? ? Hkid Hkids]; subst.
      rewrite Hkid, (fold_left_appending _ _ _ Hkids).
      by rewrite <- !app_assoc.
  - by rewrite app_nil_r.
Qed.

(** C3. For every forest, expanded set, search string and filteredOnly
    flag, [visibleNodes] is the depth-first traversal of the
    specification: a node is emitted iff filteredOnly is false or its
    method_name or defined_class contains the search string ignoring case,
    the empty search matching every node, and its children are traversed
    iff its id is in the expanded set; a collapsed node therefore
    contributes at most itself, whatever its descendants match. *)
Theorem visibleNodes_is_projection (forest : list TreeNodeDisplay)
    (expanded : gset string) (search : string) (filteredOnly : bool) :
  TreeView.visibleNodes expanded search filteredOnly forest
  = Spec.project forest expanded search filteredOnly
  /\ (forall node, Spec.emitted "" filteredOnly node = true)
  /\ (forall node,
        id node ∉ expanded ->
        TreeView.visibleNodes expanded search filteredOnly [node]
        = if Spec.emitted search filteredOnly node then [node] else []).
Proof.
  assert (forall data,
    TreeView.visibleNodes expanded search filteredOnly data
    = Spec.project data expanded search filteredOnly) as Heq.
  { intros data. unfold TreeView.visibleNodes, TreeView.traverse, Spec.project.
    apply (fold_left_appending
             (fun result node =>
                TreeView.traverse_node expanded search filteredOnly node result)
             (Spec.project_node expanded search filteredOnly) data).
    apply Forall_forall. intros node _ acc. apply traverse_node_project. }
  split; [apply Heq|]. split.
  - intros node. unfold Spec.emitted, Spec.contains_ci. simpl.
    rewrite includes_empty. by destruct filteredOnly.
  - intros node Hcollapsed. rewrite Heq. unfold Spec.project.
    destruct node as [d i kids e l p]. cbn [flat_map Spec.project_node].
    simpl in Hcollapsed. simpl id.
    rewrite (bool_decide_eq_false_2 _ Hcollapsed). by rewrite !app_nil_r.
Qed.

End VisibleNodesFacts.

(* ===================================================================== *)
(** * The performance aggregation *)
(* ===================================================================== *)

Section AggregatorFacts.
Import Types PerformanceAnalysis FloatOrder.

(** ** [Math.max] and [Math.min] on numbers that are not [NaN] *)

Lemma Math_max_spec a b :
  JS.not_nan a -> JS.not_nan b ->
  let r := JS.Math_max a b in
  (r = a \/ r = b) /\ (a <=? r)%float = true /\ (b <=? r)%float = true.
Proof.
  intros Ha Hb. unfold JS.Math_max. rewrite Ha, Hb. simpl.
  destruct (a <? b)%float eqn:Hab.
  { repeat split; auto using ltb_leb, leb_refl. }
  destruct (b <? a)%float eqn:Hba.
  { repeat split; auto using ltb_leb, leb_refl. }
  pose proof (not_ltb_leb _ _ Ha Hb Hab). pose proof (not_ltb_leb _ _ Hb Ha Hba).
  destruct (_ && _); repeat split; auto using leb_refl.
Qed.

Lemma Math_min_spec a b :
  JS.not_nan a -> JS.not_nan b ->
  let r := JS.Math_min a b in
  (r = a \/ r = b) /\ (r <=? a)%float = true /\ (r <=? b)%float = true.
Proof.
  intros Ha Hb. unfold JS.Math_min. rewrite Ha, Hb. simpl.
  destruct (b <? a)%float eqn:Hba.
  { repeat split; auto using ltb_leb, leb_refl. }
  destruct (a <? b)%float eqn:Hab.
  { repeat split; auto using ltb_leb, leb_refl. }
  pose proof (not_ltb_leb _ _ Ha Hb Hab). pose proof (not_ltb_leb _ _ Hb Ha Hba).
  destruct (_ && _); repeat split; auto using leb_refl.
Qed.

Lemma not_nan_zero : JS.not_nan 0%float.
Proof. reflexivity. Qed.

Lemma not_nan_Infinity : JS.not_nan JS.Infinity.
Proof. reflexivity. Qed.

(** The running maximum of the loop. *)
Lemma fold_Math_max ds : forall acc,
  JS.not_nan acc -> Forall JS.not_nan ds ->
  let m := fold_left JS.Math_max ds acc in
  JS.not_nan m /\ (m = acc \/ m ∈ ds) /\ (acc <=? m)%float = true
  /\ forall d, d ∈ ds -> (d <=? m)%float = true.
Proof.
  induction ds as [|d ds IH]; intros acc Hacc Hds; simpl.
  - repeat split; auto using leb_refl. intros d Hd. inversion Hd.
  - inversion Hds as [|? ? Hd Hds']; subst.
    destruct (Math_max_spec acc d Hacc Hd) as (Hr & Hle1 & Hle2).
    assert (JS.not_nan (JS.Math_max acc d)) as Hnn by (destruct Hr as [->| ->]; auto).
    destruct (IH _ Hnn Hds') as (Hm & Hin & Hle & Hall).
    split; [done|]. split; [|split].
    + destruct Hin as [->|Hin].
      * destruct Hr as [->| ->]; [by left|right; constructor].
      * right. by constructor.
    + eauto using leb_trans.
    + intros d' Hd'. inversion Hd'; subst; eauto using leb_trans.
Qed.

(** The running minimum of the loop. *)
Lemma fold_Math_min ds : forall acc,
  JS.not_nan acc -> Forall JS.not_nan ds ->
  let m := fold_left JS.Math_min ds acc in
  JS.not_nan m /\ (m = acc \/ m ∈ ds) /\ (m <=? acc)%float = true
  /\ forall d, d ∈ ds -> (m <=? d)%float = true.
Proof.
  induction ds as [|d ds IH]; intros acc Hacc Hds; simpl.
  - repeat split; auto using leb_refl. intros d Hd. inversion Hd.
  - inversion Hds as [|? ? Hd Hds']; subst.
    destruct (Math_min_spec acc d Hacc Hd) as (Hr & Hle1 & Hle2).
    assert (JS.not_nan (JS.Math_min acc d)) as Hnn by (destruct Hr as [->| ->]; auto).
    destruct (IH _ Hnn Hds') as (Hm & Hin & Hle & Hall).
    split; [done|]. split; [|split].
    + destruct Hin as [->|Hin].
      * destruct Hr as [->| ->]; [by left|right; constructor].
      * right. by constructor.
    + eauto using leb_trans.
    + intros d' Hd'. inversion Hd'; subst; eauto using leb_trans.
Qed.

(** Over positive numbers the loop from [0] yields their maximum. *)
Lemma fold_Math_max_positive ds :
  ds <> [] -> Forall (fun d => (0 <? d)%float = true) ds ->
  Spec.is_maximum (fold_left JS.Math_max ds 0%float) ds.
Proof.
  intros Hne Hpos.
  assert (Forall JS.not_nan ds) as Hnn
    by (eapply Forall_impl; [exact Hpos|]; intros d; apply ltb_not_nan_r).
  destruct (fold_Math_max ds _ not_nan_zero Hnn) as (_ & Hin & _ & Hall).
  split; [|exact Hall].
  destruct Hin as [Hz|Hin]; [|done]. exfalso.
  destruct ds as [|d ds]; [done|].
  inversion Hpos as [|? ? Hd _]; subst.
  specialize (Hall d ltac:(constructor)). rewrite Hz in Hall.
  apply ltb_not_leb in Hd. congruence.
Qed.

(** The loop from [Infinity] yields the minimum. *)
Lemma fold_Math_min_positive ds :
  ds <> [] -> Forall (fun d => (0 <? d)%float = true) ds ->
  Spec.is_minimum (fold_left JS.Math_min ds JS.Infinity) ds.
Proof.
  intros Hne Hpos.
  assert (Forall JS.not_nan ds) as Hnn
    by (eapply Forall_impl; [exact Hpos|]; intros d; apply ltb_not_nan_r).
  destruct (fold_Math_min ds _ not_nan_Infinity Hnn) as (_ & Hin & _ & Hall).
  split; [|exact Hall].
  destruct Hin as [Hinf|Hin]; [|done].
  destruct ds as [|d ds]; [done|].
  inversion Hnn as [|? ? Hd _]; subst.
  pose proof (Hall d ltac:(constructor)) as Hle. rewrite Hinf in Hle.
  assert (d = PrimFloat.infinity) as ->.
  { apply not_below_infinity; [done|].
    destruct (d <? PrimFloat.infinity)%float eqn:E; [|done].
    apply ltb_not_leb in E. unfold JS.Infinity in Hle. congruence. }
  rewrite Hinf. constructor.
Qed.

(** ** Which nodes the loop skips *)

Lemma skipped_qualifies (node : TreeNodeDisplay) :
  skipped (duration node) = negb (Spec.qualifies node).
Proof.
  unfold skipped, Spec.qualifies, JS.falsy.
  destruct (duration node) as [d|]; [|done].
  destruct (0 <? d)%float eqn:Hpos; simpl.
  - rewrite (ltb_zero_not_zero _ Hpos), (ltb_not_nan_r _ _ Hpos). simpl.
    by apply ltb_not_leb.
  - destruct (PrimFloat.is_zero d); [done|].
    destruct (PrimFloat.is_nan d) eqn:Hnan; [done|]. simpl.
    by apply not_ltb_leb.
Qed.

(** ** The object [methodStats] *)

Lemma get_None key ms : get key ms = None <-> key ∉ ms.*1.
Proof.
  induction ms as [|[k s] ms IH]; simpl.
  - split; [intros _ H; inversion H|done].
  - destruct (String.eqb_spec k key) as [->|Hne].
    + split; [done|]. intros H. destruct H. constructor.
    + rewrite IH. split.
      * intros H H'. inversion H'; subst; auto.
      * intros H H'. apply H. by constructor.
Qed.

Lemma get_Some key ms stats : get key ms = Some stats -> (key, stats) ∈ ms.
Proof.
  induction ms as [|[k s] ms IH]; simpl; [done|].
  destruct (String.eqb_spec k key) as [->|Hne].
  - intros [= ->]. constructor.
  - intros H. constructor. auto.
Qed.

Lemma update_keys key f ms : (update key f ms).*1 = ms.*1.
Proof.
  induction ms as [|[k s] ms IH]; [done|]. simpl.
  destruct (String.eqb k key); csimpl; congruence.
Qed.

Lemma elem_of_update key f ms k' s' :
  NoDup ms.*1 ->
  (k', s') ∈ update key f ms <->
  (k' <> key /\ (k', s') ∈ ms)
  \/ (k' = key /\ exists s, (key, s) ∈ ms /\ s' = f s).
Proof.
  assert (forall (k : string) (s : MethodStats.t) (l : list (string * MethodStats.t)),
            (k, s) ∈ l -> k ∈ l.*1) as Hfst.
  { intros k s l H. apply list_elem_of_fmap. by exists (k, s). }
  induction ms as [|[k s] ms IH]; simpl; intros Hnd.
  - split; [intros H; inversion H|].
    intros [[_ H]|(_ & s & H & _)]; inversion H.
  - inversion Hnd as [|? ? Hk Hnd']; subst.
    destruct (String.eqb_spec k key) as [->|Hne].
    + rewrite !elem_of_cons. split.
      * intros [Heq|H].
        { simplify_eq. right. split; [done|].
          exists s. split; [constructor|done]. }
        left. split; [|by right]. intros ->. eauto.
      * intros [[Hne' [Heq|H]]|(-> & s0 & H & ->)].
        { simplify_eq. }
        { by right. }
        apply elem_of_cons in H as [Heq|H].
        { simplify_eq. by left. }
        destruct Hk. eauto.
    + rewrite !elem_of_cons, (IH Hnd'). split.
      * intros [Heq|[[Hk' H]|(-> & s0 & H & ->)]].
        { simplify_eq. left. split; [done|by left]. }
        { left. split; [done|by right]. }
        right. split; [done|]. exists s0. split; [by apply elem_of_cons; right|done].
      * intros [[Hk' [Heq|H]]|(-> & s0 & H & ->)].
        { by left. }
        { right. left. by split. }
        apply elem_of_cons in H as [Heq|H].
        { simplify_eq. }
        right. right. split; [done|]. by exists s0.
Qed.

(** ** What the loop has Aggregation.collected after a prefix of [allNodes] *)

Lemma group_snoc key ns n :
  Spec.group key (ns ++ [n])
  = Spec.group key ns
    ++ (if decide (Spec.qualifies n = true /\ Spec.group_key n = key)
        then [n] else []).
Proof.
  unfold Spec.group. by rewrite filter_app.
Qed.

Lemma durations_snoc ns (n : TreeNodeDisplay) d :
  duration n = Some d -> Spec.durations (ns ++ [n]) = Spec.durations ns ++ [d].
Proof. intros H. unfold Spec.durations. rewrite omap_app. simpl. by rewrite H. Qed.

Lemma collected_record stats members (n : TreeNodeDisplay) d :
  duration n = Some d ->
  Aggregation.collected stats members ->
  Aggregation.collected (record_call (id n) d stats) (members ++ [n]).
Proof.
  intros Hd [Hm Ht Hc Hmax Hmin Hids].
  split; simpl; rewrite ?(durations_snoc _ _ _ Hd).
  - by destruct members.
  - unfold Spec.fsum. by rewrite fold_left_app, Ht.
  - rewrite length_app, Hc. reflexivity.
  - by rewrite fold_left_app, Hmax.
  - by rewrite fold_left_app, Hmin.
  - by rewrite map_app, Hids.
Qed.

Lemma collected_first (n : TreeNodeDisplay) d :
  duration n = Some d ->
  Aggregation.collected (record_call (id n) d (fresh_stats n)) [n].
Proof.
  intros Hd. split; simpl; unfold Spec.durations, Spec.fsum; simpl;
    rewrite ?Hd; done.
Qed.

Lemma filter_none {A} (P : A -> Prop) `{forall x, Decision (P x)} (l : list A) :
  (forall x, x ∈ l -> ~ P x) -> filter P l = [].
Proof.
  induction l as [|x l IH]; intros Hl; [done|].
  rewrite filter_cons_False by (apply Hl; constructor).
  apply IH. intros y Hy. apply Hl. by constructor.
Qed.

Lemma tracks_step ms ns n : Aggregation.tracks ms ns -> Aggregation.tracks (analyze_node ms n) (ns ++ [n]).
Proof.
  intros (Hnd & Hent & Hkeys). unfold analyze_node.
  rewrite skipped_qualifies.
  destruct (Spec.qualifies n) eqn:Hq; simpl.
  - assert (exists d, duration n = Some d) as [d Hd].
    { unfold Spec.qualifies in Hq. destruct (duration n); [eauto|done]. }
    rewrite Hd. simpl. fold (Spec.group_key n).
    set (key := Spec.group_key n).
    destruct (get key ms) as [s0|] eqn:Hget.
    + (* the group exists *)
      split; [by rewrite update_keys|]. split.
      * intros k s Hks. apply elem_of_update in Hks; [|done].
        rewrite group_snoc.
        destruct Hks as [[Hne Hks]|(-> & s1 & Hks & ->)].
        -- rewrite decide_False, app_nil_r by (intros [_ ?]; done). auto.
        -- rewrite decide_True by done.
           destruct (Hent _ _ Hks) as [Hkey Hcol]. split; [done|].
           by apply collected_record.
      * intros n' Hn' Hq'. rewrite update_keys.
        apply elem_of_app in Hn' as [Hn'|Hn']; [auto|].
        apply list_elem_of_singleton in Hn' as ->.
        apply get_Some in Hget. apply list_elem_of_fmap. by exists (key, s0).
    + (* the first qualifying call of the group *)
      apply get_None in Hget.
      assert (NoDup (ms ++ [(key, fresh_stats n)]).*1) as Hnd'.
      { rewrite fmap_app. apply NoDup_app. split; [done|]. split.
        - intros k Hk Hk'. apply list_elem_of_singleton in Hk'. by subst.
        - apply NoDup_singleton. }
      split; [by rewrite update_keys|]. split.
      * intros k s Hks. apply elem_of_update in Hks; [|done].
        rewrite group_snoc.
        destruct Hks as [[Hne Hks]|(-> & s1 & Hks & ->)].
        -- rewrite decide_False, app_nil_r by (intros [_ ?]; done).
           apply elem_of_app in Hks as [Hks|Hks]; [auto|].
           apply list_elem_of_singleton in Hks. congruence.
        -- rewrite decide_True by done.
           apply elem_of_app in Hks as [Hks|Hks].
           { destruct Hget. apply list_elem_of_fmap. by exists (key, s1). }
           apply list_elem_of_singleton in Hks. simplify_eq.
           split; [done|].
           replace (Spec.group key ns) with (@nil TreeNodeDisplay).
           { by apply collected_first. }
           symmetry. apply filter_none. intros n' Hn' [Hq' Hk'].
           apply Hget. rewrite <- Hk'. auto.
      * intros n' Hn' Hq'. rewrite update_keys, fmap_app.
        apply elem_of_app in Hn' as [Hn'|Hn'].
        -- apply elem_of_app. left. auto.
        -- apply list_elem_of_singleton in Hn' as ->.
           apply elem_of_app. right. constructor.
  - (* skipped *)
    split; [done|]. split.
    + intros k s Hks. rewrite group_snoc.
      rewrite decide_False, app_nil_r by (intros [? _]; congruence). auto.
    + intros n' Hn' Hq'. apply elem_of_app in Hn' as [Hn'|Hn']; [auto|].
      apply list_elem_of_singleton in Hn' as ->. congruence.
Qed.

Lemma tracks_fold ns : forall ms ns0,
  Aggregation.tracks ms ns0 -> Aggregation.tracks (fold_left analyze_node ns ms) (ns0 ++ ns).
Proof.
  induction ns as [|n ns IH]; intros ms ns0 H; simpl.
  - by rewrite app_nil_r.
  - replace (ns0 ++ n :: ns) with ((ns0 ++ [n]) ++ ns)
      by (by rewrite <- app_assoc).
    apply IH. by apply tracks_step.
Qed.

Lemma tracks_all ns : Aggregation.tracks (fold_left analyze_node ns []) ns.
Proof.
  apply (tracks_fold ns [] []). split; [constructor|]. split.
  - intros k s H. inversion H.
  - intros n H. inversion H.
Qed.

(** ** Flattening and sorting *)

Lemma collect_node_preorder node : forall allNodes,
  collect_node node allNodes = allNodes ++ Spec.preorder_node node.
Proof.
  induction node as [node IH] using TreeNodeDisplay_ind'. intros allNodes.
  destruct node as [d i kids e l p]; simpl in *.
  rewrite (fold_left_appending _ _ _ IH). by rewrite <- app_assoc.
Qed.

Lemma collectNodes_preorder data : collectNodes data [] = Spec.preorder data.
Proof.
  unfold collectNodes, Spec.preorder.
  apply (fold_left_appending
           (fun allNodes node => collect_node node allNodes)
           Spec.preorder_node data).
  apply Forall_forall. intros node _ acc. apply collect_node_preorder.
Qed.

Lemma sort_insert_Permutation {A} (compare : A -> A -> float) a l :
  sort_insert compare a l ≡ₚ a :: l.
Proof.
  induction l as [|b l IH]; simpl; [done|].
  destruct (0 <? compare a b)%float; [|done].
  rewrite IH. apply perm_swap.
Qed.

Lemma sort_Permutation {A} (compare : A -> A -> float) l : sort compare l ≡ₚ l.
Proof.
  induction l as [|a l IH]; simpl; [done|].
  by rewrite sort_insert_Permutation, IH.
Qed.

Lemma elem_of_take_sort {A} (compare : A -> A -> float) n l x :
  x ∈ take n (sort compare l) -> x ∈ l.
Proof.
  intros H. rewrite <- (sort_Permutation compare l).
  apply elem_of_take in H as (i & H & _). by eapply list_elem_of_lookup_2.
Qed.

(** Every Method Stat the analysis shows is a finished entry of
    [methodStats]. *)
Lemma analysis_stats data stats :
  stats ∈ byTotalTime (analysis data)
  \/ stats ∈ byAverageTime (analysis data)
  \/ stats ∈ byCallCount (analysis data) ->
  exists k s0,
    (k, s0) ∈ fold_left analyze_node (Spec.preorder data) []
    /\ stats = finish_stats s0.
Proof.
  unfold analysis. simpl. rewrite collectNodes_preorder.
  intros H.
  assert (stats ∈ values (methodStats_of (Spec.preorder data))) as Hin.
  { destruct H as [H|[H|H]]; apply elem_of_take_sort in H; [done| |done].
    by apply list_elem_of_filter in H as [_ H]. }
  unfold values, methodStats_of in Hin.
  apply list_elem_of_fmap in Hin as ([k s] & -> & Hin).
  apply list_elem_of_fmap in Hin as ([k0 s0] & [= -> ->] & Hin).
  by exists k0, s0.
Qed.

Lemma group_positive key ns :
  Forall (fun d => (0 <? d)%float = true) (Spec.durations (Spec.group key ns)).
Proof.
  apply Forall_forall. intros d Hd. unfold Spec.durations in Hd.
  apply list_elem_of_omap in Hd as (n & Hn & Hd).
  apply list_elem_of_filter in Hn as [[Hq _] _].
  unfold Spec.qualifies in Hq. rewrite Hd in Hq. done.
Qed.

Lemma length_durations_group key ns :
  length (Spec.durations (Spec.group key ns)) = length (Spec.group key ns).
Proof.
  unfold Spec.durations.
  assert (Forall (fun n => Spec.qualifies n = true) (Spec.group key ns)) as H.
  { apply Forall_forall. intros n Hn. by apply list_elem_of_filter in Hn as [[? _] _]. }
  induction H as [|n l Hq _ IH]; [done|].
  unfold Spec.qualifies in Hq. destruct (duration n) as [d|] eqn:E; [|done].
  change (n :: l) with ([n] ++ l). rewrite omap_app, length_app, IH.
  simpl. by rewrite E.
Qed.

(** ** Per-group statistics *)

(** The counterexample to C5: the only call of the group has a present,
    positive duration ([Infinity]), it is the group's minimum, and the
    Method Stat reports [min_time = 0]. *)
Lemma min_time_of_unbounded_call :
  Forall (fun node => Spec.qualifies node = true) (Spec.preorder Examples.unbounded_call)
  /\ Spec.durations (Spec.group "A#f" (Spec.preorder Examples.unbounded_call))
     = [PrimFloat.infinity]
  /\ map MethodStats.min_time (byTotalTime (analysis Examples.unbounded_call)) = [0%float]
  /\ map Spec.stats_key (byTotalTime (analysis Examples.unbounded_call)) = ["A#f"]
  /\ ~ Spec.is_minimum 0%float [PrimFloat.infinity].
Proof.
  split; [repeat constructor|]. repeat split; try reflexivity.
  intros [H _]. apply list_elem_of_singleton in H.
  apply (f_equal Prim2SF) in H. discriminate.
Qed.

(** C5, amended.  For every Method Stat of the aggregator's output (its
    group being the nodes with a present, positive duration that share
    its key): [total_time] is the sum of the group's durations, added in
    encounter order; [call_count] is their number; [average_time] is
    [total_time / call_count]; [max_time] is their maximum; and
    [min_time] is their minimum unless that minimum is [Infinity], in
    which case it is reported as [0]. *)
Theorem group_statistics (data : list TreeNodeDisplay) (stats : MethodStats.t) :
  stats ∈ byTotalTime (analysis data)
  \/ stats ∈ byAverageTime (analysis data)
  \/ stats ∈ byCallCount (analysis data) ->
  let ds := Spec.durations
              (Spec.group (Spec.stats_key stats) (Spec.preorder data)) in
  ds <> []
  /\ Forall (fun d => (0 <? d)%float = true) ds
  /\ MethodStats.total_time stats = Spec.fsum ds
  /\ MethodStats.call_count stats = length ds
  /\ MethodStats.average_time stats
     = (MethodStats.total_time stats
        / JS.number_of_nat (MethodStats.call_count stats))%float
  /\ Spec.is_maximum (MethodStats.max_time stats) ds
  /\ exists m,
       Spec.is_minimum m ds
       /\ MethodStats.min_time stats
          = if (m =? JS.Infinity)%float then 0%float else m.
Proof.
  intros H. apply analysis_stats in H as (k & s0 & Hin & ->).
  destruct (tracks_all (Spec.preorder data)) as (_ & Hent & _).
  destruct (Hent _ _ Hin) as [Hkey [Hm Ht Hc Hmax Hmin _]].
  change (Spec.stats_key (finish_stats s0)) with (Spec.stats_key s0).
  rewrite Hkey. simpl.
  pose proof (group_positive k (Spec.preorder data)) as Hpos.
  pose proof (length_durations_group k (Spec.preorder data)) as Hlen.
  assert (Spec.durations (Spec.group k (Spec.preorder data)) <> []) as Hne.
  { intros E. rewrite E in Hlen. simpl in Hlen.
    by destruct (Spec.group k (Spec.preorder data)). }
  repeat split; try done.
  - congruence.
  - rewrite Hmax. apply fold_Math_max_positive; [done|exact Hpos].
  - rewrite Hmax. by apply fold_Math_max_positive.
  - exists (MethodStats.min_time s0). rewrite Hmin. split; [|done].
    by apply fold_Math_min_positive.
Qed.

Lemma three_calls_analysis :
  byTotalTime (analysis Examples.three_calls) = [Examples.three_calls_stats].
Proof. reflexivity. Qed.

Lemma group_statistics_three_calls :
  byTotalTime (analysis Examples.three_calls) = [Examples.three_calls_stats]
  /\ Spec.durations (Spec.group "A#f" (Spec.preorder Examples.three_calls))
     = [1%float; 2%float; 3%float]
  /\ Spec.is_maximum 3%float [1%float; 2%float; 3%float]
  /\ exists m, Spec.is_minimum m [1%float; 2%float; 3%float]
               /\ 1%float = if (m =? JS.Infinity)%float then 0%float else m.
Proof.
  split; [reflexivity|]. split; [reflexivity|].
  assert (Examples.three_calls_stats ∈ byTotalTime (analysis Examples.three_calls)) as Hin
    by (rewrite three_calls_analysis; constructor).
  destruct (group_statistics Examples.three_calls Examples.three_calls_stats (or_introl Hin))
    as (_ & _ & _ & _ & _ & Hmax & Hmin).
  split; assumption.
Defined.

(** ** The groups partition the qualifying nodes *)

Lemma flat_map_ext_elem {A B} (f g : A -> list B) (l : list A) :
  (forall a, a ∈ l -> f a = g a) -> flat_map f l = flat_map g l.
Proof.
  induction l as [|a l IH]; intros H; simpl; [done|].
  rewrite (H a) by constructor. f_equal. apply IH. intros b Hb. apply H.
  by constructor.
Qed.

Lemma partition_by_key (keys : list string) : forall nodes,
  NoDup keys ->
  (forall n, n ∈ nodes -> Spec.qualifies n = true /\ Spec.group_key n ∈ keys) ->
  flat_map (fun key => Spec.group key nodes) keys ≡ₚ nodes.
Proof.
  induction keys as [|k keys IH]; intros nodes Hnd Hall; simpl.
  - destruct nodes as [|n nodes]; [done|].
    destruct (Hall n ltac:(constructor)) as [_ H]. inversion H.
  - inversion Hnd as [|? ? Hk Hnd']; subst.
    set (P := fun n => Spec.qualifies n = true /\ Spec.group_key n = k).
    etrans; [|apply (filter_app_complement P nodes)].
    apply Permutation_app; [done|].
    etrans; [|apply (IH (filter (fun n => ~ P n) nodes) Hnd')].
    + erewrite flat_map_ext_elem; [done|]. intros k' Hk'. unfold Spec.group.
      symmetry. apply list_filter_filter_l.
      intros n [_ Hn] [_ Hn']. subst. done.
    + intros n Hn. apply list_elem_of_filter in Hn as [HnP Hn].
      destruct (Hall n Hn) as [Hq Hkey]. split; [done|].
      apply elem_of_cons in Hkey as [Hkey|Hkey]; [|done].
      destruct HnP. by split.
Qed.

(** Regrouping a sum is harmless when addition is associative and
    commutative. *)
Section ExactSums.
Context {M : Type} (op : M -> M -> M) (e : M).
Hypothesis op_assoc : forall x y z, op x (op y z) = op (op x y) z.
Hypothesis op_comm : forall x y, op x y = op y x.
Hypothesis op_left_id : forall x, op e x = x.

Lemma fold_left_Permutation l1 l2 :
  l1 ≡ₚ l2 -> forall acc, fold_left op l1 acc = fold_left op l2 acc.
Proof.
  induction 1 as [|x l1 l2 _ IH|x y l|l1 l2 l3 _ IH1 _ IH2]; intros acc; simpl.
  - done.
  - apply IH.
  - f_equal. rewrite <- !op_assoc. f_equal. apply op_comm.
  - by rewrite IH1.
Qed.

Lemma fold_left_op l : forall a b,
  fold_left op l (op a b) = op a (fold_left op l b).
Proof.
  induction l as [|x l IH]; intros a b; simpl; [done|].
  by rewrite <- op_assoc, IH.
Qed.

Lemma fold_left_regroup (ls : list (list M)) : forall acc,
  fold_left op (map (fun l => fold_left op l e) ls) acc
  = fold_left op (concat ls) acc.
Proof.
  induction ls as [|l ls IH]; intros acc; simpl; [done|].
  rewrite IH, fold_left_app. f_equal.
  rewrite <- fold_left_op. f_equal. by rewrite op_comm, op_left_id.
Qed.

End ExactSums.

Lemma totalTime_qualifying nodes : forall acc,
  Forall (fun n => Spec.qualifies n = true) nodes ->
  fold_left (fun sum (n : TreeNodeDisplay) =>
               (sum + duration_or_0 (duration n))%float) nodes acc
  = fold_left PrimFloat.add (Spec.durations nodes) acc.
Proof.
  induction nodes as [|n nodes IH]; intros acc Hq; [done|].
  inversion Hq as [|? ? Hn Hq']; subst.
  unfold Spec.qualifies in Hn. destruct (duration n) as [d|] eqn:E; [|done].
  change (n :: nodes) with ([n] ++ nodes).
  unfold Spec.durations. rewrite omap_app, !fold_left_app. simpl. rewrite E.
  simpl. unfold JS.falsy.
  rewrite (ltb_zero_not_zero _ Hn), (ltb_not_nan_r _ _ Hn). simpl.
  by apply IH.
Qed.

(** ** Group totals against the grand total *)

(** The counterexample to C6: every node has a present, positive
    duration; [totalTime] is (0.1 + 0.2) + 0.3 = 0.6000000000000001 while
    the group totals 0.1 and 0.2 + 0.3 = 0.5 add up to 0.6, in ranking
    order as in creation order. *)
Lemma group_totals_differ_from_totalTime :
  Forall (fun node => Spec.qualifies node = true) (Spec.preorder Examples.two_groups)
  /\ totalTime (analysis Examples.two_groups) = 0.6000000000000001%float
  /\ map MethodStats.total_time
         (sort (fun a b => (MethodStats.total_time b
                            - MethodStats.total_time a)%float)
               (values (methodStats_of (collectNodes Examples.two_groups []))))
     = [0.5%float; 0.1%float]
  /\ Spec.fsum [0.5%float; 0.1%float] = 0.6%float
  /\ Spec.fsum [0.1%float; 0.5%float] = 0.6%float
  /\ (0.6 =? 0.6000000000000001)%float = false.
Proof. split; [repeat constructor|]. repeat split. Qed.

Lemma flat_map_fmap {A B C} (f : B -> list C) (g : A -> B) (l : list A) :
  flat_map f (g <$> l) = flat_map (fun a => f (g a)) l.
Proof. induction l as [|a l IH]; [done|]. simpl. f_equal. exact IH. Qed.

Lemma durations_flat_map {A M} (exact : float -> M)
    (members : A -> list TreeNodeDisplay) (groups : list A) :
  concat (map (fun g => map exact (Spec.durations (members g))) groups)
  = map exact (Spec.durations (flat_map members groups)).
Proof.
  induction groups as [|g groups IH]; simpl; [done|].
  unfold Spec.durations in *. by rewrite omap_app, map_app, IH.
Qed.

(** C6, amended.  For every forest in which every node has a present,
    positive duration: [totalTime] is the sum of all durations added in
    pre-order, [totalCalls] is the number of nodes, each group's
    [total_time] is the sum of its members' durations added in encounter
    order, and the groups partition the nodes.  The sum of the group
    totals therefore adds the same durations as [totalTime] in another
    order: the two agree under any addition that is associative and
    commutative (exact arithmetic), not always under IEEE-754 rounding. *)
Theorem group_totals_partition_totalTime (data : list TreeNodeDisplay) :
  Forall (fun node => Spec.qualifies node = true) (Spec.preorder data) ->
  let all := Spec.preorder data in
  let groups := values (methodStats_of (collectNodes data [])) in
  let members := fun g => Spec.group (Spec.stats_key g) all in
  totalTime (analysis data) = Spec.fsum (Spec.durations all)
  /\ totalCalls (analysis data) = length all
  /\ Forall (fun g => MethodStats.total_time g
                      = Spec.fsum (Spec.durations (members g))) groups
  /\ flat_map members groups ≡ₚ all
  /\ sort (fun a b => (MethodStats.total_time b
                       - MethodStats.total_time a)%float) groups ≡ₚ groups
  /\ forall (M : Type) (op : M -> M -> M) (e : M) (exact : float -> M),
       (forall x y z, op x (op y z) = op (op x y) z) ->
       (forall x y, op x y = op y x) ->
       (forall x, op e x = x) ->
       fold_left op
         (map (fun g => fold_left op (map exact (Spec.durations (members g))) e)
              groups) e
       = fold_left op (map exact (Spec.durations all)) e.
Proof.
  intros Hq all groups members.
  destruct (tracks_all all) as (Hnd & Hent & Hkeys).
  assert (forall g, g ∈ groups ->
            exists k s0, (k, s0) ∈ fold_left analyze_node all []
                         /\ g = finish_stats s0 /\ Spec.stats_key g = k) as Hg.
  { intros g Hin. subst groups. rewrite collectNodes_preorder in Hin.
    unfold values, methodStats_of in Hin.
    apply list_elem_of_fmap in Hin as ([k s] & -> & Hin).
    apply list_elem_of_fmap in Hin as ([k0 s0] & [= -> ->] & Hin).
    exists k0, s0. split; [done|]. split; [done|].
    by destruct (Hent _ _ Hin) as [<- _]. }
  assert (flat_map members groups ≡ₚ all) as Hpart.
  { subst groups members. rewrite collectNodes_preorder.
    unfold values, methodStats_of. rewrite map_map.
    change (map ?f ?l) with (f <$> l). rewrite flat_map_fmap.
    etrans; [|apply (partition_by_key (fold_left analyze_node all []).*1 all Hnd)].
    - rewrite flat_map_fmap. erewrite flat_map_ext_elem; [done|].
      intros [k s0] Hin. simpl.
      destruct (Hent _ _ Hin) as [<- _]. done.
    - intros n Hn. split; [by eapply Forall_forall in Hq|].
      apply Hkeys; [done|]. by eapply Forall_forall in Hq. }
  split; [|split; [|split; [|split; [|split]]]].
  - unfold analysis. simpl. rewrite collectNodes_preorder.
    by apply totalTime_qualifying.
  - unfold analysis. simpl. by rewrite collectNodes_preorder.
  - apply Forall_forall. intros g Hin.
    destruct (Hg g Hin) as (k & s0 & Hin0 & -> & Hk).
    destruct (Hent _ _ Hin0) as [_ [_ Ht _ _ _ _]].
    subst members. simpl. rewrite Hk. exact Ht.
  - exact Hpart.
  - apply sort_Permutation.
  - intros M op e exact Hassoc Hcomm Hid.
    rewrite <- (map_map (fun g => map exact (Spec.durations (members g)))
                        (fun l => fold_left op l e)).
    rewrite (fold_left_regroup op e Hassoc Hcomm Hid), durations_flat_map.
    apply (fold_left_Permutation op Hassoc Hcomm).
    apply fmap_Permutation. unfold Spec.durations. by apply omap_Permutation.
Qed.

Lemma group_totals_partition_three_calls :
  Forall (fun node => Spec.qualifies node = true) (Spec.preorder Examples.three_calls)
  /\ totalTime (analysis Examples.three_calls) = 6%float
  /\ totalCalls (analysis Examples.three_calls) = 3.
Proof.
  assert (Forall (fun node => Spec.qualifies node = true)
                 (Spec.preorder Examples.three_calls)) as Hq by (repeat constructor).
  split; [exact Hq|].
  destruct (group_totals_partition_totalTime Examples.three_calls Hq)
    as (Htime & Hcalls & _).
  split; [exact Htime|exact Hcalls].
Defined.

End AggregatorFacts.
(* ===================================================================== *)
(** * Tree reconstruction *)
(* ===================================================================== *)

Section ReconstructionFacts.
Import Types treeTransform Repr.

Implicit Types (store : gmap nat StoredNode) (st : State).
Implicit Types (t : TreeNodeDisplay) (F : list TreeNodeDisplay).

(** ** Identifiers and keys *)

Lemma node_id_inj a b : node_id a = node_id b -> a = b.
Proof.
  unfold node_id, JS.String_of_nat. intros H. simpl in H.
  injection H as H. by apply (inj pretty).
Qed.

Lemma append_cons c (s1 s2 : string) :
  String c s1 +:+ s2 = String c (s1 +:+ s2).
Proof. reflexivity. Qed.

Lemma append_nil (s : string) : "" +:+ s = s.
Proof. reflexivity. Qed.

Lemma append_snoc (s1 s2 : string) c :
  s1 +:+ String c s2 = (s1 +:+ String c "") +:+ s2.
Proof.
  induction s1 as [|c1 s1 IH]; [done|]. rewrite !append_cons. by f_equal.
Qed.

Lemma pretty_N_char_digit x : JS.is_digit (pretty_N_char x) = true.
Proof.
  unfold pretty_N_char.
  repeat (match goal with |- context [match ?p with _ => _ end] => destruct p end;
          try reflexivity).
Qed.

Lemma all_digits_snoc digits c :
  JS.all_digits digits = true -> JS.is_digit c = true ->
  JS.all_digits (digits +:+ String c "") = true.
Proof.
  intros Hds Hc. induction digits as [|c1 ds IH]; cbn [JS.all_digits] in *.
  - change (JS.is_digit c && true = true). by rewrite Hc.
  - rewrite append_cons. cbn [JS.all_digits].
    apply andb_prop in Hds as [-> Hds]. by apply IH.
Qed.

Lemma pretty_N_go_digits x : forall s,
  exists digits, pretty_N_go x s = digits +:+ s /\ JS.all_digits digits = true.
Proof.
  induction (N.lt_wf_0 x) as [x _ IH]. intros s.
  destruct (decide (0 < x)%N) as [Hpos|Hzero].
  - rewrite pretty_N_go_step by done.
    destruct (IH (x `div` 10)%N (N.div_lt x 10 Hpos eq_refl)
                 (String (pretty_N_char (x `mod` 10)) s)) as (ds & -> & Hds).
    exists (ds +:+ String (pretty_N_char (x `mod` 10)) "").
    split; [apply append_snoc|].
    apply all_digits_snoc; [done|apply pretty_N_char_digit].
  - replace x with 0%N by lia. exists "". by rewrite pretty_N_go_0.
Qed.

Lemma String_of_nat_digits (n : nat) :
  JS.all_digits (JS.String_of_nat n) = true.
Proof.
  unfold JS.String_of_nat, pretty, pretty_nat, pretty, pretty_N.
  destruct (decide (N.of_nat n = 0%N)); [done|].
  destruct (pretty_N_go_digits (N.of_nat n) "") as (ds & -> & Hds).
  clear -Hds. induction ds as [|c ds IH]; [done|].
  rewrite append_cons. cbn [JS.all_digits] in *.
  apply andb_prop in Hds as [-> Hds]. by apply IH.
Qed.

Lemma digits_dash_inj ds1 : forall ds2 m1 m2,
  JS.all_digits ds1 = true -> JS.all_digits ds2 = true ->
  ds1 +:+ String "-" m1 = ds2 +:+ String "-" m2 ->
  ds1 = ds2 /\ m1 = m2.
Proof.
  induction ds1 as [|c ds1 IH]; intros [|c' ds2] m1 m2 H1 H2 Heq;
    rewrite ?append_cons, ?append_nil in Heq; cbn [JS.all_digits] in *.
  - by simplify_eq.
  - injection Heq as <- _. by vm_compute in H2.
  - injection Heq as -> _. by vm_compute in H1.
  - apply andb_prop in H1 as [_ H1]. apply andb_prop in H2 as [_ H2].
    injection Heq as -> Heq. destruct (IH _ _ _ H1 H2 Heq) as [-> ->]. done.
Qed.

(** The call key determines the (depth, method_name) pair: the depth is
    written in digits, so the first dash ends it. *)
Lemma callKey_inj d1 m1 d2 m2 :
  callKey d1 m1 = callKey d2 m2 -> d1 = d2 /\ m1 = m2.
Proof.
  intros H. unfold callKey, JS.String_of_nat in H.
  change ("-" +:+ m1) with (String "-" m1) in H.
  change ("-" +:+ m2) with (String "-" m2) in H.
  apply digits_dash_inj in H as [Hd ->]; try apply (String_of_nat_digits).
  split; [|done]. by apply (inj pretty).
Qed.

(** ** Pre-order *)

Lemma preorder_app F G : Spec.preorder (F ++ G) = Spec.preorder F ++ Spec.preorder G.
Proof. unfold Spec.preorder. apply flat_map_app. Qed.

Lemma preorder_cons t F :
  Spec.preorder (t :: F) = t :: Spec.preorder (children t) ++ Spec.preorder F.
Proof. destruct t. reflexivity. Qed.

Lemma preorder_cons_app t F :
  Spec.preorder (t :: F) = Spec.preorder [t] ++ Spec.preorder F.
Proof. apply (preorder_app [t] F). Qed.

Lemma ids_app F G : ids (F ++ G) = ids F ++ ids G.
Proof. unfold ids. by rewrite preorder_app, map_app. Qed.

Lemma ids_cons t F : ids (t :: F) = id t :: ids (children t) ++ ids F.
Proof. unfold ids. by rewrite preorder_cons, map_cons, map_app. Qed.

Lemma preorder_singleton t : Spec.preorder [t] = t :: Spec.preorder (children t).
Proof. rewrite preorder_cons. apply (f_equal (cons t)), app_nil_r. Qed.

Lemma ids_singleton t : ids [t] = id t :: ids (children t).
Proof. unfold ids. by rewrite preorder_singleton. Qed.

Lemma height_le_preorder t : height t <= length (Spec.preorder [t]).
Proof.
  induction t as [t IH] using TreeNodeDisplay_ind'.
  rewrite preorder_singleton. destruct t as [d i kids e l p].
  cbn [height children length]. apply le_n_S. cbn [children] in IH.
  induction IH as [|kid kids' Hkid _ IHkids]; [simpl; lia|].
  cbn [map foldr]. rewrite preorder_cons, length_cons, length_app.
  rewrite preorder_singleton, length_cons in Hkid. lia.
Qed.

(** ** Reading a represented tree out of the store *)

Lemma load_repr store t : forall a fuel,
  repr store a t -> height t <= fuel -> load fuel store a = Some t.
Proof.
  induction t as [t IH] using TreeNodeDisplay_ind'.
  intros a fuel Hrepr Hfuel. inversion Hrepr as [? n ? Ha Hlabel Hkids]; subst.
  destruct fuel as [|fuel]; [destruct t; simpl in Hfuel; lia|].
  simpl. rewrite Ha. simpl.
  assert (mapM (load fuel store) (s_children n) = Some (children t)) as ->.
  { apply mapM_Some. destruct t as [d i kids e l p]. simpl in *.
    apply le_S_n in Hfuel. clear Hlabel Hrepr Ha.
    revert IH Hfuel. induction Hkids as [|c kid cs kids Hc _ IHkids];
      intros IH Hfuel; constructor.
    - inversion IH as [|? ? Hkid _]; subst. apply Hkid; [done|]. simpl in Hfuel. lia.
    - inversion IH; subst. apply IHkids; [done|]. simpl in Hfuel. lia. }
  simpl. destruct t as [d i kids e l p]. unfold label, s_label in Hlabel.
  simpl in *. by injection Hlabel as <- <- <- <- <-.
Qed.

(** A tree is represented unchanged in a store that keeps the objects of
    its nodes. *)
Lemma kept_cons_inv store store' t F :
  kept store store' (t :: F) -> kept store store' [t] /\ kept store store' F.
Proof.
  intros H. split; intros b n Hb Hin; apply H; try done; rewrite ids_cons.
  - rewrite ids_singleton in Hin. apply elem_of_cons in Hin as [->|Hin].
    + constructor.
    + apply elem_of_cons. right. apply elem_of_app. by left.
  - apply elem_of_cons. right. apply elem_of_app. by right.
Qed.

Lemma Forall2_repr_frame store store' cs F :
  Forall (fun t => forall a, repr store a t -> kept store store' [t] ->
                             repr store' a t) F ->
  Forall2 (repr store) cs F -> kept store store' F ->
  Forall2 (repr store') cs F.
Proof.
  intros IH Hrepr. revert IH.
  induction Hrepr as [|c t cs F Hc _ IHF]; intros IH Hkeep; constructor.
  - inversion IH as [|? ? Ht _]; subst. apply Ht; [done|].
    by apply kept_cons_inv in Hkeep as [? _].
  - inversion IH; subst. apply IHF; [done|].
    by apply kept_cons_inv in Hkeep as [_ ?].
Qed.

Lemma repr_frame store store' t : forall a,
  repr store a t -> kept store store' [t] -> repr store' a t.
Proof.
  induction t as [t IH] using TreeNodeDisplay_ind'.
  intros a Hrepr Hkeep. inversion Hrepr as [? n ? Ha Hlabel Hkids]; subst.
  assert (id t = s_id n) as Hid by (unfold label, s_label in Hlabel; congruence).
  apply repr_node with n; [|done|].
  - apply Hkeep; [done|]. rewrite ids_singleton, <- Hid. constructor.
  - apply (Forall2_repr_frame store store'); [done|done|].
    intros b m Hb Hin. apply Hkeep; [done|]. rewrite ids_singleton.
    apply elem_of_cons. by right.
Qed.

Lemma forest_frame store store' roots F :
  Forall2 (repr store) roots F -> kept store store' F ->
  Forall2 (repr store') roots F.
Proof.
  apply Forall2_repr_frame. apply Forall_forall. intros t _ a.
  apply repr_frame.
Qed.

(** ** Attaching a new node *)

Lemma label_with_children t kids : label (with_children t kids) = label t.
Proof. reflexivity. Qed.

Lemma sig_with_children t kids : sig (with_children t kids) = sig t.
Proof. reflexivity. Qed.

Lemma repr_id store a t n : repr store a t -> store !! a = Some n -> id t = s_id n.
Proof.
  intros Hrepr Ha. inversion Hrepr as [? m ? Ha' Hlabel _]; subst.
  unfold label, s_label in Hlabel. congruence.
Qed.

(** The end of a chain is a node of the forest. *)
Lemma chain_in_forest store p pn : forall spine roots F,
  chain store roots (spine ++ [p]) ->
  Forall2 (repr store) roots F ->
  store !! p = Some pn ->
  s_id pn ∈ ids F.
Proof.
  induction spine as [|s spine IH]; intros roots F Hchain Hrepr Hp;
    inversion Hchain as [|? a n rest Hlast Ha Hrest]; subst;
    apply last_Some in Hlast as [roots0 ->];
    apply Forall2_app_inv_l in Hrepr as (F0 & F1 & _ & Hlast & ->);
    inversion Hlast as [|? t ? ? Ht Hnil]; subst; inversion Hnil; subst;
    rewrite ids_app; apply elem_of_app; right; rewrite ids_singleton.
  - rewrite (repr_id _ _ _ _ Ht Hp). constructor.
  - apply elem_of_cons. right.
    inversion Ht as [? m ? Ha' _ Hkids]; subst.
    apply (IH (s_children m)); [|done|done]. congruence.
Qed.

Section Attach.
Variables (store : gmap nat StoredNode) (i p : nat) (leaf pn : StoredNode).
Hypothesis fresh : store !! i = None.
Hypothesis parent_at : store !! p = Some pn.
Hypothesis childless : s_children leaf = [].

Let store' : gmap nat StoredNode :=
  <[i := leaf]> (<[p := push_child i pn]> store).

Lemma attach_lookup_parent : store' !! p = Some (push_child i pn).
Proof.
  unfold store'. rewrite lookup_insert_ne by congruence.
  apply lookup_insert_eq.
Qed.

Lemma attach_lookup_other b n :
  store !! b = Some n -> b <> p -> store' !! b = Some n.
Proof.
  intros Hb Hne. unfold store'.
  rewrite !lookup_insert_ne by congruence. done.
Qed.

Lemma attach_kept F : s_id pn ∉ ids F -> kept store store' F.
Proof.
  intros Hnot b n Hb Hin. apply attach_lookup_other; [done|].
  intros ->. congruence.
Qed.

Lemma attach_leaf : repr store' i (leaf_tree leaf).
Proof.
  apply repr_node with leaf; [apply lookup_insert_eq|done|].
  rewrite childless. constructor.
Qed.

Lemma attach_child : forall spine roots F,
  chain store roots (spine ++ [p]) ->
  Forall2 (repr store) roots F ->
  NoDup (ids F) ->
  exists F',
    Forall2 (repr store') roots F'
    /\ map sig (Spec.preorder F')
       = map sig (Spec.preorder F) ++ [sig (leaf_tree leaf)]
    /\ length (Spec.preorder F') = S (length (Spec.preorder F)).
Proof.
  induction spine as [|s spine IH]; intros roots F Hchain Hrepr Hnd;
    inversion Hchain as [|? a n rest Hlast Ha Hrest]; subst;
    apply last_Some in Hlast as [roots0 ->];
    apply Forall2_app_inv_l in Hrepr as (F0 & F1 & HF0 & Hlast & ->);
    inversion Hlast as [|? t ? ? Ht Hnil]; subst; inversion Hnil; subst;
    rewrite ids_app, ids_singleton in Hnd;
    apply NoDup_app in Hnd as (HndF0 & Hdisj & Hndt);
    apply NoDup_cons in Hndt as [Hidt Hndkids];
    inversion Ht as [? m ? Ha' Hlabel Hkids]; subst.
  - (* the parent is the last root *)
    assert (m = pn) as -> by congruence.
    assert (id t = s_id pn) as Hid by (by apply (repr_id store p)).
    exists (F0 ++ [with_children t (children t ++ [leaf_tree leaf])]).
    split; [|split].
    + apply Forall2_app.
      * apply (forest_frame store); [done|]. apply attach_kept.
        rewrite <- Hid. intros Hin. apply (Hdisj _ Hin). constructor.
      * constructor; [|constructor].
        apply repr_node with (push_child i pn);
          [apply attach_lookup_parent|by rewrite label_with_children|].
        simpl. apply Forall2_app; [|constructor; [apply attach_leaf|constructor]].
        apply (forest_frame store); [done|]. apply attach_kept. by rewrite <- Hid.
    + rewrite !preorder_app, !preorder_singleton, !map_app. simpl.
      rewrite preorder_app, map_app, preorder_singleton. simpl.
      by rewrite <- !app_assoc.
    + rewrite !preorder_app, !preorder_singleton, !length_app. simpl.
      rewrite preorder_app, length_app, preorder_singleton. simpl. lia.
  - (* the parent is further down the spine *)
    assert (s_id pn ∈ ids (children t)) as Hin.
    { apply (chain_in_forest store p pn spine (s_children m)); [|done|done].
      by replace m with n by congruence. }
    assert (id t = s_id m) as Hid by (by apply (repr_id store s)).
    destruct (IH (s_children m) (children t)) as (kids' & Hkids' & Hsig & Hlen);
      [by replace m with n by congruence|done|done|].
    exists (F0 ++ [with_children t kids']). split; [|split].
    + apply Forall2_app.
      * apply (forest_frame store); [done|]. apply attach_kept.
        intros Hin'. apply (Hdisj _ Hin'). apply elem_of_cons. by right.
      * constructor; [|constructor].
        apply repr_node with m; [|by rewrite label_with_children|done].
        apply attach_lookup_other; [done|]. intros ->.
        assert (m = pn) as -> by congruence. congruence.
    + rewrite !preorder_app, !preorder_singleton, !map_app. simpl.
      rewrite Hsig. by rewrite <- !app_assoc.
    + rewrite !preorder_app, !preorder_singleton, !length_app. simpl. lia.
Qed.

Lemma chain_extend : forall spine roots,
  chain store roots (spine ++ [p]) ->
  NoDup (spine ++ [p]) ->
  chain store' roots (spine ++ [p; i]).
Proof.
  induction spine as [|s spine IH]; intros roots Hchain Hnd;
    inversion Hchain as [|? a n rest Hlast Ha Hrest]; subst.
  - apply chain_cons with (push_child i pn);
      [done|apply attach_lookup_parent|].
    simpl. apply chain_cons with leaf;
      [apply last_snoc|apply lookup_insert_eq|constructor].
  - simpl in Hnd. apply NoDup_cons in Hnd as [Hs Hnd].
    apply chain_cons with n; [done| |by apply IH].
    apply attach_lookup_other; [done|]. intros ->. apply Hs.
    apply elem_of_app. right. constructor.
Qed.

End Attach.

(** Attaching a new root. *)
Lemma attach_root store i leaf roots F :
  store !! i = None -> s_children leaf = [] ->
  Forall2 (repr store) roots F ->
  Forall2 (repr (<[i := leaf]> store)) (roots ++ [i]) (F ++ [leaf_tree leaf]).
Proof.
  intros Hfresh Hleaf Hrepr. apply Forall2_app.
  - apply (forest_frame store); [done|]. intros b n Hb _.
    rewrite lookup_insert_ne by congruence. done.
  - constructor; [|constructor].
    apply repr_node with leaf; [apply lookup_insert_eq|done|].
    rewrite Hleaf. constructor.
Qed.

Lemma chain_prefix store roots : forall spine1 spine2,
  chain store roots (spine1 ++ spine2) -> chain store roots spine1.
Proof.
  intros spine1. revert roots.
  induction spine1 as [|s spine1 IH]; intros roots spine2 H; [constructor|].
  inversion H as [|? a n rest Hlast Ha Hrest]; subst.
  apply chain_cons with n; eauto.
Qed.

(** ** The events that create nodes *)

Lemma created_from_app i evs1 evs2 :
  created_from i (evs1 ++ evs2)
  = created_from i evs1 ++ created_from (i + length evs1) evs2.
Proof.
  revert i. induction evs1 as [|e evs1 IH]; intros i; simpl.
  - by rewrite Nat.add_0_r.
  - rewrite IH. replace (S i + length evs1) with (i + S (length evs1)) by lia.
    by destruct (event e).
Qed.

Lemma created_snoc evs e :
  created (evs ++ [e])
  = created evs
    ++ match event e with ev_return => [] | _ => [(length evs, e)] end.
Proof.
  unfold created. rewrite created_from_app. simpl. by destruct (event e).
Qed.

Lemma created_from_bounds i evs j e :
  (j, e) ∈ created_from i evs -> i <= j < i + length evs.
Proof.
  revert i. induction evs as [|e0 evs IH]; intros i H; simpl in H.
  - inversion H.
  - assert ((j, e) ∈ created_from (S i) evs -> i <= j < i + length (e0 :: evs))
      as Hrest by (intros H'; apply IH in H'; simpl; lia).
    destruct (event e0); auto;
      apply elem_of_cons in H as [[= -> ->]|H]; auto; simpl; lia.
Qed.

Lemma created_from_NoDup i evs : NoDup (created_from i evs).*1.
Proof.
  revert i. induction evs as [|e evs IH]; intros i; simpl; [constructor|].
  assert (i ∉ (created_from (S i) evs).*1) as Hi.
  { intros H. apply list_elem_of_fmap in H as ([j e'] & -> & H).
    apply created_from_bounds in H. simpl in H. lia. }
  destruct (event e); auto; csimpl; constructor; auto.
Qed.

Lemma created_lookup i evs j e :
  (j, e) ∈ created_from i evs <->
  i <= j /\ evs !! (j - i) = Some e /\ event e <> ev_return.
Proof.
  revert i. induction evs as [|e0 evs IH]; intros i; simpl.
  - split; [intros H; inversion H|]. intros (_ & H & _). done.
  - assert (forall P : Prop,
      ((j, e) ∈ created_from (S i) evs \/ P) <->
      ((S i <= j /\ evs !! (j - S i) = Some e /\ event e <> ev_return) \/ P))
      as Hrest by (intros P; by rewrite IH).
    assert (S i <= j -> (e0 :: evs) !! (j - i) = evs !! (j - S i)) as Hshift.
    { intros Hle. replace (j - i) with (S (j - S i)) by lia. done. }
    destruct (event e0) eqn:Hev.
    + rewrite elem_of_cons. split.
      * intros [[= -> ->]|H].
        -- rewrite Nat.sub_diag. simpl. rewrite Hev. by repeat split.
        -- apply IH in H as (Hle & H & Hne). rewrite Hshift by done.
           repeat split; auto with lia.
      * intros (Hle & H & Hne). destruct (decide (j = i)) as [->|Hji].
        -- rewrite Nat.sub_diag in H. simpl in H. left. congruence.
        -- right. apply IH. rewrite <- Hshift by lia. repeat split; auto with lia.
    + rewrite IH. split.
      * intros (Hle & H & Hne). rewrite Hshift by done. repeat split; auto with lia.
      * intros (Hle & H & Hne). destruct (decide (j = i)) as [->|Hji].
        -- rewrite Nat.sub_diag in H. simpl in H. congruence.
        -- rewrite <- Hshift by lia. repeat split; auto with lia.
    + rewrite elem_of_cons. split.
      * intros [[= -> ->]|H].
        -- rewrite Nat.sub_diag. simpl. rewrite Hev. by repeat split.
        -- apply IH in H as (Hle & H & Hne). rewrite Hshift by done.
           repeat split; auto with lia.
      * intros (Hle & H & Hne). destruct (decide (j = i)) as [->|Hji].
        -- rewrite Nat.sub_diag in H. simpl in H. left. congruence.
        -- right. apply IH. rewrite <- Hshift by lia. repeat split; auto with lia.
Qed.

Lemma created_ids_NoDup evs F :
  map sig (Spec.preorder F) = map esig (created evs) -> NoDup (ids F).
Proof.
  intros H. unfold ids.
  assert (map id (Spec.preorder F) = node_id <$> (created evs).*1) as ->.
  { transitivity (map (fun x => x.1.1.1.1.1) (map sig (Spec.preorder F))).
    - rewrite map_map. by apply map_ext.
    - rewrite H, map_map. change (map ?f ?l) with (f <$> l).
      by rewrite <- list_fmap_compose. }
  apply NoDup_fmap_2; [intros a b; apply node_id_inj|].
  apply created_from_NoDup.
Qed.

(** ** The stack *)

Lemma sorted_stack_app store stack1 stack2 :
  sorted_stack store (stack1 ++ stack2) -> sorted_stack store stack2.
Proof. induction stack1 as [|a stack1 IH]; simpl; [done|]. intros [_ H]. auto. Qed.

Lemma sorted_stack_lookup store stack a :
  sorted_stack store stack -> a ∈ stack -> is_Some (store !! a).
Proof.
  induction stack as [|b stack IH]; simpl; intros Hs Ha; [inversion Ha|].
  destruct Hs as [(n & Hb & _) Hs].
  apply elem_of_cons in Ha as [->|Ha]; eauto.
Qed.

Lemma sorted_stack_NoDup store stack : sorted_stack store stack -> NoDup stack.
Proof.
  induction stack as [|a stack IH]; simpl; [constructor|].
  intros [(n & Ha & Hbelow) Hs]. constructor; [|auto].
  intros Hin. destruct (Hbelow _ Hin) as (m & Ha' & Hlt).
  assert (m = n) as -> by congruence. lia.
Qed.

(** A store that keeps the level of every object keeps the stack sorted. *)
Lemma sorted_stack_mono store store' stack :
  (forall a n, store !! a = Some n ->
     exists n', store' !! a = Some n' /\ s_level n' = s_level n) ->
  sorted_stack store stack -> sorted_stack store' stack.
Proof.
  intros Hkeep. induction stack as [|a stack IH]; simpl; [done|].
  intros [(n & Ha & Hbelow) Hs]. split; [|auto].
  destruct (Hkeep _ _ Ha) as (n' & Ha' & Hl). exists n'. split; [done|].
  intros b Hb. destruct (Hbelow _ Hb) as (m & Hm & Hlt).
  destruct (Hkeep _ _ Hm) as (m' & Hm' & Hl'). exists m'. split; [done|]. lia.
Qed.

(** What the [while] loop leaves. *)
Lemma pop_stack_spec store lvl : forall stk cs,
  sorted_stack store stk ->
  exists popped stack1 cs1,
    pop_stack store lvl stk cs = Some (stack1, cs1)
    /\ stk = popped ++ stack1
    /\ (forall a, a ∈ popped ->
          exists n, store !! a = Some n /\ lvl <= s_level n
                    /\ cs1 !! key_of n = None)
    /\ (forall b, b ∈ stack1 ->
          exists m, store !! b = Some m /\ s_level m < lvl)
    /\ (forall k a, cs1 !! k = Some a -> cs !! k = Some a).
Proof.
  induction stk as [|top rest IH]; intros cs Hs; simpl.
  - exists [], [], cs. split; [done|]. split; [done|].
    split; [intros ? H; inversion H|]. split; [intros ? H; inversion H|done].
  - destruct Hs as [(n & Htop & Hbelow) Hs]. rewrite Htop. simpl.
    destruct (Nat.leb_spec lvl (s_level n)) as [Hle|Hlt].
    + destruct (IH (delete (callKey (depth (s_data n)) (method_name (s_data n))) cs) Hs)
        as (popped & stack1 & cs1 & Hpop & -> & Hpopped & Hkept & Hsub).
      exists (top :: popped), stack1, cs1. split; [done|]. split; [done|].
      split; [|split; [done|]].
      * intros a Ha. apply elem_of_cons in Ha as [->|Ha]; [|auto].
        exists n. split; [done|]. split; [done|].
        destruct (cs1 !! key_of n) as [b|] eqn:E; [|done].
        apply Hsub in E. unfold key_of in E. by rewrite lookup_delete_eq in E.
      * intros k a Hk. apply Hsub in Hk.
        apply lookup_delete_Some in Hk as [_ Hk]. done.
    + exists [], (top :: rest), cs. split; [done|]. split; [done|].
      split; [intros ? H; inversion H|]. split; [|done].
      * intros b Hb. apply elem_of_cons in Hb as [->|Hb]; [eauto|].
        destruct (Hbelow _ Hb) as (m & Hm & Hlt'). exists m. split; [done|]. lia.
Qed.

(** ** The store invariants are kept by every event *)

Lemma StoreInv_initial : StoreInv [] initial.
Proof.
  split; simpl.
  - intros a n H. by rewrite lookup_empty in H.
  - done.
  - intros k a H. by rewrite lookup_empty in H.
  - intros a n c H. by rewrite lookup_empty in H.
  - intros a H. inversion H.
Qed.

Lemma StoreInv_fresh evs st : StoreInv evs st -> store st !! length evs = None.
Proof.
  intros Hinv. destruct (store st !! length evs) as [n|] eqn:E; [|done].
  destruct (si_nodes _ _ Hinv _ _ E) as (e & He & _).
  apply lookup_lt_Some in He. lia.
Qed.

Lemma same_node_refl n : same_node n n.
Proof. by repeat split. Qed.

Lemma same_node_merge e n : same_node n (merge_return e n).
Proof. by repeat split. Qed.

Lemma same_node_key n n' : same_node n n' -> key_of n' = key_of n.
Proof. intros (_ & _ & _ & _ & _ & _ & Hm & Hd). unfold key_of. by rewrite Hm, Hd. Qed.

(** An unmatched return changes nothing. *)
Lemma StoreInv_skip evs st e : StoreInv evs st -> StoreInv (evs ++ [e]) st.
Proof.
  intros [Hnodes Hstack Hcs Hkids Hroots]. split; try done.
  intros a n Ha. destruct (Hnodes _ _ Ha) as (e0 & He0 & Hrest).
  exists e0. split; [|done]. by apply lookup_app_l_Some.
Qed.

(** A matched return writes three fields of the awaited call. *)
Lemma StoreInv_return evs st e a cn :
  StoreInv evs st ->
  callStack st !! callKey (depth e) (method_name e) = Some a ->
  store st !! a = Some cn ->
  StoreInv (evs ++ [e])
    {| store := <[a := merge_return e cn]> (store st);
       nodes := nodes st;
       stack := stack st;
       callStack := delete (callKey (depth e) (method_name e)) (callStack st) |}.
Proof.
  intros [Hnodes Hstack Hcs Hkids Hroots] Hkey Ha.
  assert (forall b n, store st !! b = Some n ->
            exists n', <[a := merge_return e cn]> (store st) !! b = Some n'
                       /\ same_node n n') as Hkeep.
  { intros b n Hb. destruct (decide (b = a)) as [->|Hne].
    - exists (merge_return e cn). rewrite lookup_insert_eq.
      replace n with cn by congruence. split; [done|apply same_node_merge].
    - exists n. rewrite lookup_insert_ne by done. split; [done|apply same_node_refl]. }
  assert (forall b n', <[a := merge_return e cn]> (store st) !! b = Some n' ->
            exists n, store st !! b = Some n /\ same_node n n'
                      /\ (n' = n \/ event (s_data n) = ev_call)) as Hback.
  { intros b n' Hb. apply lookup_insert_Some in Hb as [[<- <-]|[Hne Hb]].
    - exists cn. split; [done|]. split; [apply same_node_merge|]. right.
      destruct (Hcs _ _ Hkey) as (_ & n & Hn & Hcall & _). congruence.
    - exists n'. split; [done|]. split; [apply same_node_refl|by left]. }
  split; simpl.
  - intros b n' Hb.
    destruct (Hback _ _ Hb) as (n & Hn & (Hid & _ & Hexp & Hlvl & _ & Hev & Hmn & Hd) & Hdata).
    destruct (Hnodes _ _ Hn) as (e0 & He0 & Hnr & Hid0 & Hlvl0 & Hexp0 & Hev0 & Hmn0 & Hd0 & Hcr).
    exists e0. split; [by apply lookup_app_l_Some|].
    repeat split; try congruence.
    intros Hcr'. destruct Hdata as [->|Hcall]; [auto|congruence].
  - eapply sorted_stack_mono; [|done]. intros b n Hb.
    destruct (Hkeep _ _ Hb) as (n' & Hn' & Hsame). exists n'. split; [done|].
    apply Hsame.
  - intros k b Hk. apply lookup_delete_Some in Hk as [_ Hk].
    destruct (Hcs _ _ Hk) as (Hin & n & Hn & Hcall & ->). split; [done|].
    destruct (Hkeep _ _ Hn) as (n' & Hn' & Hsame). exists n'. split; [done|].
    split; [|by rewrite (same_node_key _ _ Hsame)].
    destruct Hsame as (_ & _ & _ & _ & _ & Hev & _). congruence.
  - intros b n' c Hb Hc.
    destruct (Hback _ _ Hb) as (n & Hn & (_ & Hch & _ & Hlvl & _) & _).
    rewrite Hch in Hc. destruct (Hkids _ _ _ Hn Hc) as (m & Hm & Hlt & Hpar).
    destruct (Hkeep _ _ Hm) as (m' & Hm' & (_ & _ & _ & Hlvl' & Hpar' & _)).
    exists m'. split; [done|]. split; [lia|congruence].
  - intros b Hb. destruct (Hroots _ Hb) as (n & Hn & Hpar).
    destruct (Hkeep _ _ Hn) as (n' & Hn' & (_ & _ & _ & _ & Hpar' & _)).
    exists n'. split; [done|congruence].
Qed.

Lemma s_label_eq n1 n :
  s_label n1 = s_label n ->
  s_data n1 = s_data n /\ s_id n1 = s_id n /\ s_isExpanded n1 = s_isExpanded n
  /\ s_level n1 = s_level n /\ s_parent n1 = s_parent n.
Proof. unfold s_label. intros [= ? ? ? ? ?]. done. Qed.

(** A [call] or [call_return] event: pop, attach, register, push. *)
Lemma StoreInv_attach evs st e popped stack1 cs1 store1 nodes1 par :
  StoreInv evs st ->
  event e <> ev_return ->
  stack st = popped ++ stack1 ->
  (forall a, a ∈ popped ->
     exists n, store st !! a = Some n /\ depth e <= s_level n
               /\ cs1 !! key_of n = None) ->
  (forall b, b ∈ stack1 ->
     exists m, store st !! b = Some m /\ s_level m < depth e) ->
  (forall k a, cs1 !! k = Some a -> callStack st !! k = Some a) ->
  par = head stack1 ->
  (forall a n1, store1 !! a = Some n1 ->
     exists n, store st !! a = Some n /\ s_label n1 = s_label n
       /\ forall c, c ∈ s_children n1 ->
            c ∈ s_children n \/ (c = length evs /\ par = Some a)) ->
  (forall a n, store st !! a = Some n ->
     exists n1, store1 !! a = Some n1 /\ s_label n1 = s_label n) ->
  (forall a, a ∈ nodes1 -> a ∈ nodes st \/ (a = length evs /\ par = None)) ->
  StoreInv (evs ++ [e])
    {| store := <[length evs := new_node (length evs) e par]> store1;
       nodes := nodes1;
       stack := length evs :: stack1;
       callStack :=
         match event e with
         | ev_call => <[callKey (depth e) (method_name e) := length evs]> cs1
         | _ => cs1
         end |}.
Proof.
  intros Hinv Hnr Hstk Hpopped Hstack1 Hsub Hpar S1 S2 Hnodes1.
  pose proof (StoreInv_fresh _ _ Hinv) as Hfresh.
  destruct Hinv as [Hnodes Hstack Hcs Hkids Hroots].
  set (i := length evs) in *.
  set (store' := <[i := new_node i e par]> store1).
  assert (forall a n, store st !! a = Some n ->
            exists n1, store' !! a = Some n1 /\ s_label n1 = s_label n) as Hkeep.
  { intros a n Ha. destruct (S2 _ _ Ha) as (n1 & Hn1 & Hl). exists n1.
    split; [|done]. unfold store'. rewrite lookup_insert_ne; [done|].
    intros <-. congruence. }
  assert (forall k a, cs1 !! k = Some a ->
            a ∈ i :: stack1
            /\ exists n, store' !! a = Some n
                 /\ event (s_data n) = ev_call /\ k = key_of n) as Hcs1.
  { intros k a Hk. destruct (Hcs _ _ (Hsub _ _ Hk)) as (Hin & n & Hn & Hcall & ->).
    rewrite Hstk in Hin. apply elem_of_app in Hin as [Hin|Hin].
    - destruct (Hpopped _ Hin) as (n' & Hn' & _ & Hnone).
      replace n' with n in Hnone by congruence. congruence.
    - split; [apply elem_of_cons; by right|].
      destruct (Hkeep _ _ Hn) as (n1 & Hn1 & Hl). exists n1. split; [done|].
      apply s_label_eq in Hl as (Hd & _). unfold key_of. rewrite Hd. done. }
  split; simpl; fold i; fold store'.
  - intros a n Ha. apply lookup_insert_Some in Ha as [[<- <-]|[Hne Ha]].
    + exists e. split; [apply list_lookup_middle; done|]. by repeat split.
    + destruct (S1 _ _ Ha) as (n0 & Hn0 & Hl & _).
      apply s_label_eq in Hl as (Hd & Hid & Hexp & Hlvl & _).
      destruct (Hnodes _ _ Hn0) as (e0 & He0 & Hrest).
      exists e0. split; [by apply lookup_app_l_Some|]. rewrite Hd, Hid, Hexp, Hlvl.
      exact Hrest.
  - split.
    + exists (new_node i e par). split; [apply lookup_insert_eq|].
      intros b Hb. destruct (Hstack1 _ Hb) as (m & Hm & Hlt).
      destruct (Hkeep _ _ Hm) as (m1 & Hm1 & Hl).
      apply s_label_eq in Hl as (_ & _ & _ & Hlvl & _).
      exists m1. split; [done|]. simpl. lia.
    + rewrite Hstk in Hstack. apply sorted_stack_app in Hstack.
      eapply sorted_stack_mono; [|done]. intros a n Ha.
      destruct (Hkeep _ _ Ha) as (n1 & Hn1 & Hl).
      apply s_label_eq in Hl as (_ & _ & _ & Hlvl & _). eauto.
  - intros k a Hk. destruct (event e) eqn:Hev; [|done|by apply Hcs1].
    apply lookup_insert_Some in Hk as [[<- <-]|[_ Hk]]; [|by apply Hcs1].
    split; [constructor|]. exists (new_node i e par).
    split; [apply lookup_insert_eq|]. done.
  - intros a n c Ha Hc. apply lookup_insert_Some in Ha as [[<- <-]|[Hne Ha]].
    { inversion Hc. }
    destruct (S1 _ _ Ha) as (n0 & Hn0 & Hl & Hch).
    apply s_label_eq in Hl as (_ & _ & _ & Hlvl & _).
    destruct (Hch _ Hc) as [Hc0|[-> Hp]].
    + destruct (Hkids _ _ _ Hn0 Hc0) as (m & Hm & Hlt & Hparent).
      destruct (Hkeep _ _ Hm) as (m1 & Hm1 & Hl1).
      apply s_label_eq in Hl1 as (_ & _ & _ & Hlvl1 & Hpar1).
      exists m1. split; [done|]. split; [lia|congruence].
    + exists (new_node i e par). split; [apply lookup_insert_eq|]. simpl.
      split; [|done].
      assert (a ∈ stack1) as Hin.
      { rewrite Hpar in Hp. destruct stack1; simpl in Hp; [done|].
        injection Hp as ->. constructor. }
      destruct (Hstack1 _ Hin) as (m & Hm & Hlt).
      replace m with n0 in Hlt by congruence. lia.
  - intros a Ha. destruct (Hnodes1 _ Ha) as [Hold|[-> Hp]].
    + destruct (Hroots _ Hold) as (n & Hn & Hparent).
      destruct (Hkeep _ _ Hn) as (n1 & Hn1 & Hl).
      apply s_label_eq in Hl as (_ & _ & _ & _ & Hpar1).
      exists n1. split; [done|congruence].
    + exists (new_node i e par). split; [apply lookup_insert_eq|done].
Qed.

(** ** The forest follows the store *)

Lemma chain_kept store store' : forall spine l,
  (forall b n, store !! b = Some n ->
     exists n', store' !! b = Some n' /\ s_children n' = s_children n) ->
  chain store l spine -> chain store' l spine.
Proof.
  induction spine as [|s spine IH]; intros l Hkeep H; [constructor|].
  inversion H as [|? a n rest Hlast Ha Hrest]; subst.
  destruct (Hkeep _ _ Ha) as (n' & Ha' & Hch).
  apply chain_cons with n'; [done|done|]. rewrite Hch. by apply IH.
Qed.

Lemma Forall2_merge_repr store store' (f : TreeNodeDisplay -> TreeNodeDisplay)
    cs F :
  Forall (fun t => forall b, repr store b t -> repr store' b (f t)) F ->
  Forall2 (repr store) cs F ->
  Forall2 (repr store') cs (map f F).
Proof.
  intros IH Hrepr. revert IH.
  induction Hrepr as [|c t cs F Hc _ IHF]; intros IH; simpl; constructor.
  - inversion IH as [|? ? Ht _]; subst. by apply Ht.
  - inversion IH; subst. by apply IHF.
Qed.

Lemma merge_repr store a cn e t : forall b,
  (forall b n, store !! b = Some n -> s_id n = node_id b) ->
  store !! a = Some cn ->
  repr store b t ->
  repr (<[a := merge_return e cn]> store) b (merge_tree (node_id a) e t).
Proof.
  induction t as [t IH] using TreeNodeDisplay_ind'.
  intros b Hwf Ha Hrepr. inversion Hrepr as [? n ? Hb Hlabel Hkids]; subst.
  unfold label, s_label in Hlabel.
  assert (Forall2 (repr (<[a := merge_return e cn]> store)) (s_children n)
            (map (merge_tree (node_id a) e) (children t))) as Hkids'.
  { apply (Forall2_merge_repr store); [|done].
    eapply Forall_impl; [exact IH|]. intros kid Hkid c. by apply Hkid. }
  destruct t as [d i kids ex l p]. simpl in *.
  injection Hlabel as -> -> -> -> ->.
  destruct (decide (b = a)) as [->|Hne].
  - assert (n = cn) as -> by congruence.
    apply repr_node with (merge_return e cn); [apply lookup_insert_eq| |done].
    unfold label, s_label. simpl.
    rewrite decide_True by (by apply Hwf). done.
  - apply repr_node with n; [by rewrite lookup_insert_ne| |done].
    unfold label, s_label. simpl.
    rewrite decide_False; [done|]. rewrite (Hwf _ _ Hb).
    intros H. by apply node_id_inj in H.
Qed.

Lemma merge_sig target e t :
  map sig (Spec.preorder [merge_tree target e t]) = map sig (Spec.preorder [t]).
Proof.
  induction t as [t IH] using TreeNodeDisplay_ind'.
  rewrite !preorder_singleton. destruct t as [d i kids ex l p].
  cbn [merge_tree children map]. f_equal.
  - unfold sig. simpl. by destruct (decide _).
  - cbn [children] in IH. induction IH as [|kid kids' Hkid _ IHkids]; [done|].
    cbn [map]. rewrite (preorder_cons_app kid), (preorder_cons_app (merge_tree _ _ kid)).
    rewrite !map_app. by rewrite Hkid, IHkids.
Qed.

Lemma merge_forest_sig target e F :
  map sig (Spec.preorder (map (merge_tree target e) F)) = map sig (Spec.preorder F).
Proof.
  induction F as [|t F IH]; [done|].
  cbn [map]. rewrite (preorder_cons_app t), (preorder_cons_app (merge_tree _ _ t)).
  rewrite !map_app. by rewrite IH, (merge_sig target e t).
Qed.

(** ** One event *)

Lemma process_attach st i e stack1 cs1 :
  event e <> ev_return ->
  pop_stack (store st) (depth e) (stack st) (callStack st) = Some (stack1, cs1) ->
  process st i e
  = match stack1 with
    | p :: _ =>
        pn ← store st !! p;
        Some (attached st i e stack1 cs1
                (<[p := push_child i pn]> (store st)) (nodes st))
    | [] => Some (attached st i e stack1 cs1 (store st) (nodes st ++ [i]))
    end.
Proof.
  intros Hnr Hpop. unfold process, attached.
  destruct (event e) eqn:Hev; [|done|]; rewrite Hpop; simpl;
    (destruct stack1 as [|p rest]; simpl; [done|]);
    by destruct (store st !! p).
Qed.

Lemma process_return st i e :
  event e = ev_return ->
  process st i e
  = match callStack st !! callKey (depth e) (method_name e) with
    | Some a =>
        cn ← store st !! a;
        Some {| store := <[a := merge_return e cn]> (store st);
                nodes := nodes st;
                stack := stack st;
                callStack := delete (callKey (depth e) (method_name e))
                                    (callStack st) |}
    | None => Some st
    end.
Proof. intros Hev. unfold process. by rewrite Hev. Qed.

Lemma sig_new_node i e par : sig (leaf_tree (new_node i e par)) = esig (i, e).
Proof. reflexivity. Qed.

Lemma process_invariant evs st F e :
  StoreInv evs st -> TreeInv evs st F ->
  exists st' F',
    process st (length evs) e = Some st'
    /\ StoreInv (evs ++ [e]) st'
    /\ TreeInv (evs ++ [e]) st' F'.
Proof.
  intros Hs Ht. set (i := length evs).
  destruct (decide (event e = ev_return)) as [Hev|Hev].
  - (* a return *)
    rewrite (process_return _ _ _ Hev).
    assert (created (evs ++ [e]) = created evs) as Hcreated
      by (rewrite created_snoc, Hev; apply app_nil_r).
    destruct (callStack st !! callKey (depth e) (method_name e)) as [a|] eqn:Hkey.
    + destruct (si_callStack _ _ Hs _ _ Hkey) as (_ & cn & Ha & _).
      rewrite Ha. simpl. eexists _, (map (merge_tree (node_id a) e) F).
      split; [done|]. split; [by apply StoreInv_return|].
      destruct Ht as [Hrepr Hchain Hsig Hsize]. split; simpl.
      * apply (Forall2_merge_repr (store st)); [|done].
        apply Forall_forall. intros t _ b. apply merge_repr; [|done].
        intros b' n Hb'. by destruct (si_nodes _ _ Hs _ _ Hb') as (_ & _ & _ & ? & _).
      * eapply chain_kept; [|done]. intros b n Hb.
        destruct (decide (b = a)) as [->|Hne].
        -- exists (merge_return e cn). rewrite lookup_insert_eq.
           split; [done|]. by replace n with cn by congruence.
        -- exists n. by rewrite lookup_insert_ne.
      * by rewrite merge_forest_sig, Hcreated.
      * rewrite map_size_insert_Some by eauto.
        rewrite Hsize, <- !(length_map sig). by rewrite merge_forest_sig.
    + exists st, F. split; [done|]. split; [by apply StoreInv_skip|].
      destruct Ht as [Hrepr Hchain Hsig Hsize]. split; try done.
      by rewrite Hcreated.
  - (* a call or a call_return *)
    assert (created (evs ++ [e]) = created evs ++ [(i, e)]) as Hcreated
      by (rewrite created_snoc; by destruct (event e)).
    pose proof (StoreInv_fresh _ _ Hs) as Hfresh.
    destruct (pop_stack_spec (store st) (depth e) (stack st) (callStack st)
                (si_stack _ _ Hs))
      as (popped & stack1 & cs1 & Hpop & Hstk & Hpopped & Hstack1 & Hsub).
    rewrite (process_attach _ _ _ _ _ Hev Hpop).
    destruct Ht as [Hrepr Hchain Hsig Hsize].
    pose proof (created_ids_NoDup _ _ Hsig) as Hnd.
    destruct stack1 as [|p rest].
    + (* a new root *)
      eexists _, (F ++ [leaf_tree (new_node i e None)]). split; [done|].
      split.
      * apply (StoreInv_attach evs st e popped [] cs1); try done.
        -- intros a n1 Ha. exists n1. split; [done|]. split; [done|]. auto.
        -- intros a n Ha. eauto.
        -- intros a Ha. apply elem_of_app in Ha as [Ha|Ha]; [by left|].
           apply list_elem_of_singleton in Ha. by right.
      * split; simpl.
        -- by apply attach_root.
        -- apply chain_cons with (new_node i e None);
             [apply last_snoc|apply lookup_insert_eq|constructor].
        -- rewrite preorder_app, map_app, Hsig, Hcreated, map_app. done.
        -- rewrite map_size_insert_None by done.
           rewrite preorder_app, length_app, Hsize. simpl. lia.
    + (* a new child of the stack top *)
      destruct (Hstack1 p ltac:(constructor)) as (pn & Hp & Hlt).
      rewrite Hp. simpl.
      assert (chain (store st) (nodes st) (rev rest ++ [p])) as Hspine.
      { rewrite Hstk, rev_app_distr in Hchain. simpl in Hchain.
        by apply chain_prefix in Hchain. }
      assert (NoDup (rev rest ++ [p])) as Hndstack.
      { pose proof (sorted_stack_NoDup _ _ (si_stack _ _ Hs)) as H.
        rewrite Hstk in H. apply NoDup_app in H as (_ & _ & H).
        change (rev rest ++ [p]) with (rev (p :: rest)).
        by rewrite <- Permutation_rev. }
      destruct (attach_child (store st) i p (new_node i e (Some p)) pn
                  Hfresh Hp eq_refl (rev rest) (nodes st) F Hspine Hrepr Hnd)
        as (F' & Hrepr' & Hsig' & Hlen').
      eexists _, F'. split; [done|]. split.
      * apply (StoreInv_attach evs st e popped (p :: rest) cs1); try done.
        -- intros a n1 Ha. apply lookup_insert_Some in Ha as [[<- <-]|[Hne Ha]].
           ++ exists pn. split; [done|]. split; [done|]. simpl.
              intros c Hc. apply elem_of_app in Hc as [Hc|Hc]; [by left|].
              apply list_elem_of_singleton in Hc. by right.
           ++ exists n1. split; [done|]. split; [done|]. auto.
        -- intros a n Ha. destruct (decide (a = p)) as [->|Hne].
           ++ exists (push_child i pn). rewrite lookup_insert_eq.
              split; [done|]. by replace n with pn by congruence.
           ++ exists n. by rewrite lookup_insert_ne.
        -- intros a Ha. by left.
      * split; simpl.
        -- done.
        -- rewrite <- app_assoc. simpl.
           by apply (chain_extend (store st) i p (new_node i e (Some p)) pn).
        -- by rewrite Hsig', Hsig, Hcreated, map_app.
        -- assert (p <> i) as Hpi
             by (intros Heq; rewrite Heq in Hp; unfold i in Hp; congruence).
           rewrite map_size_insert_None
             by (rewrite lookup_insert_ne by done; done).
           rewrite map_size_insert_Some by (by exists pn).
           by rewrite Hlen', Hsize.
Qed.

(** ** The whole loop *)

Lemma forEach_app evs1 evs2 : forall i st,
  forEach (evs1 ++ evs2) i st
  = st' ← forEach evs1 i st; forEach evs2 (i + length evs1) st'.
Proof.
  induction evs1 as [|e evs1 IH]; intros i st; simpl.
  - by rewrite Nat.add_0_r.
  - destruct (process st i e) as [st'|]; simpl; [|done].
    rewrite IH. by replace (S i + length evs1) with (i + S (length evs1)) by lia.
Qed.

Lemma TreeInv_initial : TreeInv [] initial [].
Proof. split; simpl; try done; constructor. Qed.

(** The loop never fails, and keeps the invariants. *)
Lemma forEach_invariant evs :
  exists st F,
    forEach evs 0 initial = Some st /\ StoreInv evs st /\ TreeInv evs st F.
Proof.
  induction evs as [|e evs IH] using rev_ind.
  - exists initial, []. split; [done|].
    split; [apply StoreInv_initial|apply TreeInv_initial].
  - destruct IH as (st & F & Hrun & Hs & Ht).
    destruct (process_invariant evs st F e Hs Ht) as (st' & F' & Hstep & Hs' & Ht').
    exists st', F'. split; [|done].
    rewrite forEach_app, Hrun. simpl. by rewrite Hstep.
Qed.

(** The returned forest is the one the store represents. *)
Lemma result_of_TreeInv evs st F : TreeInv evs st F -> result_of st = Some F.
Proof.
  intros [Hrepr _ _ Hsize]. unfold result_of. apply mapM_Some.
  assert (forall t, t ∈ F -> height t <= S (size (store st))) as Hheight.
  { intros t Hin. rewrite Hsize. etrans; [apply height_le_preorder|].
    apply list_elem_of_split in Hin as (F1 & F2 & ->).
    rewrite (preorder_app F1), (preorder_cons_app t F2), !length_app. lia. }
  clear Hsize. induction Hrepr as [|a t roots F Ha _ IH]; constructor.
  - apply load_repr; [done|]. apply Hheight. constructor.
  - apply IH. intros t' Hin. apply Hheight. by constructor.
Qed.

(** [transformTreeData] returns a forest for every event sequence. *)
Lemma transformTreeData_invariant evs :
  exists st F,
    forEach evs 0 initial = Some st
    /\ transformTreeData evs = Some F
    /\ StoreInv evs st /\ TreeInv evs st F.
Proof.
  destruct (forEach_invariant evs) as (st & F & Hrun & Hs & Ht).
  exists st, F. split; [done|]. split; [|done].
  unfold transformTreeData. rewrite Hrun. simpl. by eapply result_of_TreeInv.
Qed.

(** ** Pre-order is creation order *)

Lemma fold_traverse_preorder kids :
  Forall (fun t => forall result,
            Forall (fun n => isExpanded n = true) (Spec.preorder [t]) ->
            traverse_node t result = result ++ Spec.preorder [t]) kids ->
  Forall (fun n => isExpanded n = true) (Spec.preorder kids) ->
  forall acc,
    fold_left (fun result child => traverse_node child result) kids acc
    = acc ++ Spec.preorder kids.
Proof.
  induction 1 as [|kid kids Hkid _ IHkids]; intros Hexp acc; cbn [fold_left].
  - by rewrite app_nil_r.
  - rewrite (preorder_cons_app kid) in Hexp.
    apply Forall_app in Hexp as [Hk Hks].
    rewrite Hkid by done. rewrite IHkids by done.
    rewrite (preorder_cons_app kid kids). by rewrite <- !app_assoc.
Qed.

Lemma traverse_node_preorder t : forall result,
  Forall (fun n => isExpanded n = true) (Spec.preorder [t]) ->
  traverse_node t result = result ++ Spec.preorder [t].
Proof.
  induction t as [t IH] using TreeNodeDisplay_ind'. intros result Hexp.
  rewrite preorder_singleton in *. apply Forall_cons in Hexp as [Ht Hkids].
  destruct t as [d i kids e l p]. cbn [children isExpanded] in *. subst e.
  cbn [traverse_node children isExpanded]. simpl andb.
  pose proof (fold_traverse_preorder kids IH Hkids
                (result ++ [mkTreeNodeDisplay d i kids true l p])) as Hfold.
  destruct kids as [|kid kids]; simpl length; simpl Nat.ltb; cbv iota.
  - reflexivity.
  - rewrite Hfold. by rewrite <- app_assoc.
Qed.

Lemma flattenTree_preorder F :
  Forall (fun n => isExpanded n = true) (Spec.preorder F) ->
  flattenTree F = Spec.preorder F.
Proof.
  intros Hexp. unfold flattenTree, traverse.
  rewrite fold_traverse_preorder; [done| |done].
  apply Forall_forall. intros t _ result. apply traverse_node_preorder.
Qed.

Lemma created_from_events i evs :
  map snd (created_from i evs) = filter (fun e => event e <> ev_return) evs.
Proof.
  revert i. induction evs as [|e evs IH]; intros i; [done|]. simpl.
  destruct (decide (event e = ev_return)) as [Hev|Hev].
  - rewrite Hev, filter_cons_False by (intros H; by apply H). apply IH.
  - rewrite filter_cons_True by done.
    destruct (event e); [|done|]; simpl; by rewrite IH.
Qed.

(** For every event sequence, the flattened forest lists the created
    nodes in the order of their events. *)
Lemma flattenTree_creation_order evs F :
  map sig (Spec.preorder F) = map esig (created evs) ->
  flattenTree F = Spec.preorder F
  /\ map (fun n : TreeNodeDisplay => (method_name n, depth n)) (flattenTree F)
     = map (fun e => (method_name e, depth e))
           (filter (fun e => event e <> ev_return) evs).
Proof.
  intros Hsig.
  assert (flattenTree F = Spec.preorder F) as Hflat.
  { apply flattenTree_preorder. apply Forall_forall. intros n Hn.
    assert (sig n ∈ map esig (created evs)) as Hin
      by (rewrite <- Hsig; apply list_elem_of_fmap; eauto).
    apply list_elem_of_fmap in Hin as (ie & Heq & _).
    unfold sig, esig in Heq. congruence. }
  split; [done|]. rewrite Hflat, <- (created_from_events 0 evs).
  fold (created evs).
  transitivity (map (fun x : string * EventKind * string * nat * nat * bool =>
                       (x.1.1.1.2, x.1.1.2)) (map sig (Spec.preorder F))).
  - rewrite map_map. by apply map_ext.
  - rewrite Hsig, !map_map. by apply map_ext.
Qed.

Lemma well_nested_calls d evs :
  Spec.well_nested d evs ->
  filter (fun e => event e <> ev_return) evs
  = filter (fun e => event e = ev_call) evs.
Proof.
  induction 1 as [|d c r inner rest Hc _ Hr _ _ _ IHinner _ IHrest]; [done|].
  rewrite !filter_cons_True by congruence.
  rewrite !filter_app, IHinner.
  rewrite !filter_cons_False by congruence. by rewrite IHrest.
Qed.

(** C1. For every event sequence of perfectly nested, matched
    call/return pairs, the forest returned by [transformTreeData],
    flattened by [flattenTree] (which is pre-order, every node being
    expanded), yields the (method_name, depth) pairs of the input's call
    events, element for element and in order. *)
Theorem flatten_of_nested_trace (d : nat) (events : list TreeNodeData) :
  Spec.well_nested d events ->
  exists forest,
    transformTreeData events = Some forest
    /\ flattenTree forest = Spec.preorder forest
    /\ map (fun n : TreeNodeDisplay => (method_name n, depth n))
           (flattenTree forest)
       = map (fun e => (method_name e, depth e))
             (filter (fun e => event e = ev_call) events).
Proof.
  intros Hnested.
  destruct (transformTreeData_invariant events) as (st & F & _ & Hrun & _ & Ht).
  exists F. split; [done|].
  destruct (flattenTree_creation_order events F (ti_sig _ _ _ Ht)) as [Hflat Hmap].
  split; [done|]. by rewrite Hmap, (well_nested_calls d).
Qed.

Lemma nested_example_well_nested : Spec.well_nested 0 Examples.nested_example.
Proof.
  apply (Spec.nested_call 0 (Spec.trace_event ev_call "a" 0 VUndefined)
           (Spec.trace_event ev_return "a" 0 (VNumber 5))
           [Spec.trace_event ev_call "b" 1 VUndefined;
            Spec.trace_event ev_return "b" 1 (VNumber 5)] []);
    try reflexivity; [|constructor].
  apply (Spec.nested_call 1 (Spec.trace_event ev_call "b" 1 VUndefined)
           (Spec.trace_event ev_return "b" 1 (VNumber 5)) [] []);
    try reflexivity; constructor.
Defined.

Lemma flatten_of_nested_example :
  Spec.well_nested 0 Examples.nested_example
  /\ exists forest,
       transformTreeData Examples.nested_example = Some forest
       /\ flattenTree forest = Spec.preorder forest
       /\ map (fun n : TreeNodeDisplay => (method_name n, depth n))
              (flattenTree forest)
          = [("a", 0); ("b", 1)].
Proof.
  split; [exact nested_example_well_nested|].
  exact (flatten_of_nested_trace 0 Examples.nested_example nested_example_well_nested).
Defined.

(** ** Parents and children *)

Lemma repr_preorder_list store cs kids t :
  Forall (fun t0 => forall a, repr store a t0 -> t ∈ Spec.preorder [t0] ->
                    exists b, repr store b t) kids ->
  Forall2 (repr store) cs kids ->
  t ∈ Spec.preorder kids ->
  exists b, repr store b t.
Proof.
  intros IH Hrepr. revert IH.
  induction Hrepr as [|c kid cs kids Hc _ IHk]; intros IH Ht; [inversion Ht|].
  rewrite (preorder_cons_app kid) in Ht. inversion IH as [|? ? Hkid Hkids]; subst.
  apply elem_of_app in Ht as [Ht|Ht]; [by apply (Hkid c)|by apply IHk].
Qed.

Lemma repr_preorder_node store t t0 : forall a,
  repr store a t0 -> t ∈ Spec.preorder [t0] -> exists b, repr store b t.
Proof.
  induction t0 as [t0 IH] using TreeNodeDisplay_ind'. intros a Ha Ht.
  rewrite preorder_singleton in Ht. apply elem_of_cons in Ht as [->|Ht]; [eauto|].
  inversion Ha as [? n ? _ _ Hkids]; subst.
  by apply (repr_preorder_list store (s_children n) (children t0)).
Qed.

Lemma repr_preorder store roots F t :
  Forall2 (repr store) roots F -> t ∈ Spec.preorder F -> exists a, repr store a t.
Proof.
  apply repr_preorder_list. apply Forall_forall. intros t0 _.
  apply repr_preorder_node.
Qed.

(** C9. In every forest produced by reconstruction, every child has a
    level (and depth) strictly greater than that of the node whose
    children sequence holds it, and its parent reference is that node;
    roots have no parent. *)
Theorem child_level_above_parent (events : list TreeNodeData) :
  exists forest,
    transformTreeData events = Some forest
    /\ (forall p c, p ∈ Spec.preorder forest -> c ∈ children p ->
          level p < level c /\ depth p < depth c
          /\ exists a, parent c = Some a /\ id p = node_id a)
    /\ (forall r, r ∈ forest -> parent r = None).
Proof.
  destruct (transformTreeData_invariant events) as (st & F & _ & Hrun & Hs & Ht).
  exists F. split; [done|]. destruct Ht as [Hrepr _ _ _].
  assert (forall a t n, repr (store st) a t -> store st !! a = Some n ->
            label t = s_label n /\ level t = depth t /\ id t = node_id a)
    as Hnode.
  { intros a t n Ha Hn. inversion Ha as [? n' ? Hn' Hlabel _]; subst.
    replace n' with n in * by congruence. split; [done|].
    destruct (si_nodes _ _ Hs _ _ Hn) as (e & _ & _ & Hid & Hl & _ & _ & _ & Hd & _).
    unfold label, s_label in Hlabel. split; congruence. }
  split.
  - intros p c Hp Hc.
    destruct (repr_preorder _ _ _ _ Hrepr Hp) as (a & Ha).
    inversion Ha as [? n ? Hn Hlabel Hkids]; subst.
    apply list_elem_of_lookup in Hc as (k & Hk).
    destruct (Forall2_lookup_r _ _ _ _ _ Hkids Hk) as (ca & Hca & Hrc).
    inversion Hrc as [? m ? Hm Hlabelc _]; subst.
    destruct (si_kids _ _ Hs a n ca Hn) as (m' & Hm' & Hlt & Hpar).
    { by eapply list_elem_of_lookup_2. }
    replace m' with m in * by congruence.
    destruct (Hnode _ _ _ Ha Hn) as (_ & Hlp & Hidp).
    destruct (Hnode _ _ _ Hrc Hm) as (_ & Hlc & _).
    unfold label, s_label in Hlabel, Hlabelc.
    assert (level p = s_level n) as Hp1 by congruence.
    assert (level c = s_level m) as Hc1 by congruence.
    split; [lia|]. split; [lia|].
    exists a. split; [congruence|done].
  - intros r Hr. apply list_elem_of_lookup in Hr as (k & Hk).
    destruct (Forall2_lookup_r _ _ _ _ _ Hrepr Hk) as (a & Ha & Hra).
    destruct (si_roots _ _ Hs a) as (n & Hn & Hpar).
    { by eapply list_elem_of_lookup_2. }
    destruct (Hnode _ _ _ Hra Hn) as (Hlabel & _).
    unfold label, s_label in Hlabel. congruence.
Qed.

(** ** Unmatched returns *)

(** C4. For every event sequence ending in a return event whose call key
    has no pending open call, reconstruction succeeds and returns the
    same forest as for the sequence without that trailing return. *)
Theorem unmatched_trailing_return (events : list TreeNodeData)
    (r : TreeNodeData) :
  event r = ev_return ->
  Spec.pending events !! callKey (depth r) (method_name r) = None ->
  exists forest,
    transformTreeData (events ++ [r]) = Some forest
    /\ transformTreeData events = Some forest.
Proof.
  intros Hev Hpending.
  destruct (transformTreeData_invariant events) as (st & F & Hrun & Hres & _).
  exists F. split; [|done].
  unfold Spec.pending in Hpending. rewrite Hrun in Hpending.
  unfold transformTreeData in *. rewrite forEach_app, Hrun. simpl.
  rewrite (process_return _ _ _ Hev), Hpending. simpl.
  by rewrite Hrun in Hres.
Qed.

Lemma unmatched_trailing_return_example :
  Spec.pending Examples.nested_example !! callKey 0 "a" = None
  /\ exists forest,
       transformTreeData
         (Examples.nested_example ++ [Spec.trace_event ev_return "a" 0 VNull])
       = Some forest
       /\ transformTreeData Examples.nested_example = Some forest.
Proof.
  assert (Spec.pending Examples.nested_example !! callKey 0 "a" = None) as H
    by reflexivity.
  split; [exact H|].
  exact (unmatched_trailing_return Examples.nested_example
           (Spec.trace_event ev_return "a" 0 VNull) eq_refl H).
Defined.

(** ** Nodes that have left the stack *)

(** An event touches only the store objects of stack entries and the
    object it creates. *)
Lemma process_frozen evs st e st' a :
  StoreInv evs st ->
  process st (length evs) e = Some st' ->
  a ∉ stack st -> a < length evs ->
  store st' !! a = store st !! a /\ a ∉ stack st'.
Proof.
  intros Hs Hstep Hnot Hlt.
  destruct (decide (event e = ev_return)) as [Hev|Hev].
  - rewrite (process_return _ _ _ Hev) in Hstep.
    destruct (callStack st !! callKey (depth e) (method_name e)) as [b|] eqn:Hkey.
    + destruct (si_callStack _ _ Hs _ _ Hkey) as (Hin & cn & Hb & _).
      rewrite Hb in Hstep. simpl in Hstep. injection Hstep as <-. simpl.
      split; [|done]. apply lookup_insert_ne. intros ->. done.
    + injection Hstep as <-. done.
  - destruct (pop_stack_spec (store st) (depth e) (stack st) (callStack st)
                (si_stack _ _ Hs))
      as (popped & stack1 & cs1 & Hpop & Hstk & _ & Hstack1 & _).
    rewrite (process_attach _ _ _ _ _ Hev Hpop) in Hstep.
    assert (a ∉ stack1) as Hnot1.
    { intros Hin. apply Hnot. rewrite Hstk. apply elem_of_app. by right. }
    assert (a ∉ length evs :: stack1) as Hnot'.
    { intros Hin. apply elem_of_cons in Hin as [->|Hin]; [lia|done]. }
    destruct stack1 as [|p rest].
    + injection Hstep as <-. simpl. split; [|done].
      apply lookup_insert_ne. lia.
    + destruct (Hstack1 p ltac:(constructor)) as (pn & Hp & _).
      rewrite Hp in Hstep. simpl in Hstep. injection Hstep as <-. simpl.
      split; [|done]. rewrite !lookup_insert_ne; [done| |lia].
      intros ->. apply Hnot1. constructor.
Qed.

Lemma forEach_frozen rest : forall evs st F st' a,
  StoreInv evs st -> TreeInv evs st F ->
  forEach rest (length evs) st = Some st' ->
  a ∉ stack st -> a < length evs ->
  store st' !! a = store st !! a.
Proof.
  induction rest as [|e rest IH]; intros evs st F st' a Hs Ht Hrun Hnot Hlt.
  - simpl in Hrun. by injection Hrun as <-.
  - simpl in Hrun.
    destruct (process_invariant evs st F e Hs Ht) as (st1 & F1 & Hstep & Hs1 & Ht1).
    rewrite Hstep in Hrun. simpl in Hrun.
    destruct (process_frozen evs st e st1 a Hs Hstep Hnot Hlt) as [Heq Hnot1].
    rewrite <- Heq.
    apply (IH (evs ++ [e]) st1 F1); try done.
    + by rewrite length_app, Nat.add_1_r.
    + rewrite length_app. lia.
Qed.

(** What a [call] event leaves behind. *)
Lemma process_call evs st e :
  StoreInv evs st -> event e = ev_call ->
  exists st' stack1 par,
    process st (length evs) e = Some st'
    /\ callStack st' !! callKey (depth e) (method_name e) = Some (length evs)
    /\ store st' !! length evs = Some (new_node (length evs) e par)
    /\ stack st' = length evs :: stack1
    /\ forall b, b ∈ stack1 ->
         exists m, store st !! b = Some m /\ s_level m < depth e.
Proof.
  intros Hs Hev.
  assert (event e <> ev_return) as Hnr by congruence.
  destruct (pop_stack_spec (store st) (depth e) (stack st) (callStack st)
              (si_stack _ _ Hs))
    as (popped & stack1 & cs1 & Hpop & Hstk & _ & Hstack1 & _).
  rewrite (process_attach _ _ _ _ _ Hnr Hpop).
  destruct stack1 as [|p rest].
  - eexists _, [], None. split; [done|]. unfold attached. simpl. rewrite Hev.
    split; [apply lookup_insert_eq|]. split; [apply lookup_insert_eq|].
    split; [done|]. intros b Hb. inversion Hb.
  - destruct (Hstack1 p ltac:(constructor)) as (pn & Hp & _). rewrite Hp. simpl.
    eexists _, (p :: rest), (Some p). split; [done|]. unfold attached. simpl.
    rewrite Hev. split; [apply lookup_insert_eq|].
    split; [apply lookup_insert_eq|]. done.
Qed.

Lemma same_key_calls_forest :
  map (fun n : TreeNodeDisplay => (id n, return_value n))
      <$> transformTreeData
            (Examples.same_key_calls ++ [Spec.trace_event ev_return "f" 0 (VNumber 5)])
  = Some [("node-0", VUndefined); ("node-1", VNumber 5)].
Proof. reflexivity. Qed.

(** ** The children of a [call_return] node *)

Lemma process_created evs st e :
  StoreInv evs st -> event e <> ev_return ->
  exists st', process st (length evs) e = Some st'
              /\ open_leaf (length evs) (depth e) st'.
Proof.
  intros Hs Hnr.
  destruct (pop_stack_spec (store st) (depth e) (stack st) (callStack st)
              (si_stack _ _ Hs))
    as (popped & stack1 & cs1 & Hpop & Hstk & _ & Hstack1 & _).
  rewrite (process_attach _ _ _ _ _ Hnr Hpop).
  destruct stack1 as [|p rest].
  - eexists. split; [done|]. split; [done|]. simpl.
    eexists. split; [apply lookup_insert_eq|done].
  - destruct (Hstack1 p ltac:(constructor)) as (pn & Hp & _). rewrite Hp. simpl.
    eexists. split; [done|]. split; [done|]. simpl.
    eexists. split; [apply lookup_insert_eq|done].
Qed.

Lemma open_leaf_return evs st r st' i L :
  StoreInv evs st -> event r = ev_return ->
  process st (length evs) r = Some st' ->
  open_leaf i L st -> open_leaf i L st'.
Proof.
  intros Hs Hev Hstep [Htop (n & Hn & Hch & Hl)].
  rewrite (process_return _ _ _ Hev) in Hstep.
  destruct (callStack st !! callKey (depth r) (method_name r)) as [a|] eqn:Hkey.
  - destruct (si_callStack _ _ Hs _ _ Hkey) as (_ & cn & Ha & _).
    rewrite Ha in Hstep. simpl in Hstep. injection Hstep as <-.
    split; [done|]. simpl. destruct (decide (i = a)) as [->|Hne].
    + exists (merge_return r cn). rewrite lookup_insert_eq.
      replace cn with n by congruence. done.
    + exists n. by rewrite lookup_insert_ne.
  - injection Hstep as <-. split; [done|]. eauto.
Qed.

(** A following event at the same or a smaller depth closes the leaf. *)
Lemma open_leaf_closed evs st e st' i L :
  StoreInv evs st -> event e <> ev_return ->
  process st (length evs) e = Some st' ->
  open_leaf i L st -> depth e <= L ->
  store st' !! i = store st !! i /\ (i ∉ stack st') /\ i < length evs.
Proof.
  intros Hs Hnr Hstep [Htop (n & Hn & Hch & Hl)] Hle.
  assert (i < length evs) as Hlt.
  { destruct (si_nodes _ _ Hs _ _ Hn) as (e0 & He0 & _).
    by apply lookup_lt_Some in He0. }
  destruct (pop_stack_spec (store st) (depth e) (stack st) (callStack st)
              (si_stack _ _ Hs))
    as (popped & stack1 & cs1 & Hpop & Hstk & _ & Hstack1 & _).
  rewrite (process_attach _ _ _ _ _ Hnr Hpop) in Hstep.
  assert (i ∉ stack1) as Hnot1.
  { intros Hin. destruct (Hstack1 _ Hin) as (m & Hm & Hlt').
    replace m with n in Hlt' by congruence. lia. }
  assert (i ∉ length evs :: stack1) as Hnot.
  { intros Hin. apply elem_of_cons in Hin as [->|Hin]; [lia|done]. }
  destruct stack1 as [|p rest].
  - injection Hstep as <-. simpl. split; [|done]. apply lookup_insert_ne. lia.
  - destruct (Hstack1 p ltac:(constructor)) as (pn & Hp & _).
    rewrite Hp in Hstep. simpl in Hstep. injection Hstep as <-. simpl.
    split; [|done]. rewrite !lookup_insert_ne; [done| |lia].
    intros ->. apply Hnot1. constructor.
Qed.

(** A following event at a greater depth becomes its child. *)
Lemma open_leaf_child evs st e st' i L :
  StoreInv evs st -> event e <> ev_return ->
  process st (length evs) e = Some st' ->
  open_leaf i L st -> L < depth e ->
  exists n', store st' !! i = Some n' /\ s_children n' <> [].
Proof.
  intros Hs Hnr Hstep [Htop (n & Hn & Hch & Hl)] Hlt.
  assert (i <> length evs) as Hne.
  { destruct (si_nodes _ _ Hs _ _ Hn) as (e0 & He0 & _).
    apply lookup_lt_Some in He0. lia. }
  destruct (pop_stack_spec (store st) (depth e) (stack st) (callStack st)
              (si_stack _ _ Hs))
    as (popped & stack1 & cs1 & Hpop & Hstk & Hpopped & _ & _).
  rewrite (process_attach _ _ _ _ _ Hnr Hpop) in Hstep.
  assert (popped = []) as ->.
  { destruct popped as [|a popped]; [done|]. rewrite Hstk in Htop.
    simpl in Htop. injection Htop as ->.
    destruct (Hpopped i ltac:(constructor)) as (m & Hm & Hle & _).
    replace m with n in Hle by congruence. lia. }
  simpl in Hstk. rewrite <- Hstk in Hstep.
  destruct (stack st) as [|p rest]; [done|]. simpl in Htop. injection Htop as ->.
  rewrite Hn in Hstep. simpl in Hstep. injection Hstep as <-. simpl.
  exists (push_child (length evs) n).
  rewrite lookup_insert_ne, lookup_insert_eq by done. split; [done|].
  simpl. rewrite Hch. done.
Qed.

(** Children arrays only grow. *)
Lemma process_children_grow evs st e st' a n :
  StoreInv evs st ->
  process st (length evs) e = Some st' ->
  store st !! a = Some n -> s_children n <> [] ->
  exists n', store st' !! a = Some n' /\ s_children n' <> [].
Proof.
  intros Hs Hstep Ha Hch.
  assert (a <> length evs) as Hne.
  { destruct (si_nodes _ _ Hs _ _ Ha) as (e0 & He0 & _).
    apply lookup_lt_Some in He0. lia. }
  destruct (decide (event e = ev_return)) as [Hev|Hev].
  - rewrite (process_return _ _ _ Hev) in Hstep.
    destruct (callStack st !! callKey (depth e) (method_name e)) as [b|] eqn:Hkey.
    + destruct (si_callStack _ _ Hs _ _ Hkey) as (_ & cn & Hb & _).
      rewrite Hb in Hstep. simpl in Hstep. injection Hstep as <-. simpl.
      destruct (decide (a = b)) as [->|Hab].
      * exists (merge_return e cn). rewrite lookup_insert_eq.
        replace cn with n by congruence. done.
      * exists n. by rewrite lookup_insert_ne.
    + injection Hstep as <-. eauto.
  - destruct (pop_stack_spec (store st) (depth e) (stack st) (callStack st)
                (si_stack _ _ Hs))
      as (popped & stack1 & cs1 & Hpop & Hstk & _ & Hstack1 & _).
    rewrite (process_attach _ _ _ _ _ Hev Hpop) in Hstep.
    destruct stack1 as [|p rest].
    + injection Hstep as <-. simpl. exists n. by rewrite lookup_insert_ne.
    + destruct (Hstack1 p ltac:(constructor)) as (pn & Hp & _).
      rewrite Hp in Hstep. simpl in Hstep. injection Hstep as <-. simpl.
      rewrite lookup_insert_ne by done.
      destruct (decide (a = p)) as [->|Hap].
      * exists (push_child (length evs) pn). rewrite lookup_insert_eq.
        split; [done|]. simpl. replace pn with n by congruence.
        by destruct (s_children n).
      * exists n. by rewrite lookup_insert_ne.
Qed.

Lemma forEach_children_grow rest : forall evs st F st' a n,
  StoreInv evs st -> TreeInv evs st F ->
  forEach rest (length evs) st = Some st' ->
  store st !! a = Some n -> s_children n <> [] ->
  exists n', store st' !! a = Some n' /\ s_children n' <> [].
Proof.
  induction rest as [|e rest IH]; intros evs st F st' a n Hs Ht Hrun Ha Hch.
  - simpl in Hrun. injection Hrun as <-. eauto.
  - simpl in Hrun.
    destruct (process_invariant evs st F e Hs Ht) as (st1 & F1 & Hstep & Hs1 & Ht1).
    rewrite Hstep in Hrun. simpl in Hrun.
    destruct (process_children_grow evs st e st1 a n Hs Hstep Ha Hch)
      as (n1 & Ha1 & Hch1).
    apply (IH (evs ++ [e]) st1 F1 st' a n1); try done.
    by rewrite length_app, Nat.add_1_r.
Qed.

Lemma next_created_cons e rest :
  Spec.next_created (e :: rest)
  = if decide (event e = ev_return) then Spec.next_created rest else Some e.
Proof.
  unfold Spec.next_created. destruct (decide (event e = ev_return)) as [Hev|Hev].
  - by rewrite filter_cons_False by (intros H; by apply H).
  - by rewrite filter_cons_True.
Qed.

(** An open leaf stays childless exactly when the next created node is
    not deeper. *)
Lemma open_leaf_run rest : forall evs st F st' i L,
  StoreInv evs st -> TreeInv evs st F ->
  open_leaf i L st ->
  forEach rest (length evs) st = Some st' ->
  exists n', store st' !! i = Some n'
    /\ (s_children n' = [] <->
        match Spec.next_created rest with
        | Some e' => depth e' <= L
        | None => True
        end).
Proof.
  induction rest as [|e rest IH]; intros evs st F st' i L Hs Ht Hopen Hrun.
  - simpl in Hrun. injection Hrun as <-.
    destruct Hopen as [_ (n & Hn & Hch & _)]. exists n. done.
  - simpl in Hrun.
    destruct (process_invariant evs st F e Hs Ht) as (st1 & F1 & Hstep & Hs1 & Ht1).
    rewrite Hstep in Hrun. simpl in Hrun.
    assert (length (evs ++ [e]) = S (length evs)) as Hlen
      by (by rewrite length_app, Nat.add_1_r).
    rewrite <- Hlen in Hrun. rewrite next_created_cons.
    destruct (decide (event e = ev_return)) as [Hev|Hev].
    + apply (IH (evs ++ [e]) st1 F1); try done.
      by apply (open_leaf_return evs st e).
    + destruct (le_lt_dec (depth e) L) as [Hle|Hlt].
      * destruct (open_leaf_closed evs st e st1 i L Hs Hev Hstep Hopen Hle)
          as (Heq & Hnot & Hi).
        destruct Hopen as [_ (n & Hn & Hch & _)]. exists n. split; [|done].
        rewrite (forEach_frozen rest (evs ++ [e]) st1 F1 st' i); try done;
          [congruence|lia].
      * destruct (open_leaf_child evs st e st1 i L Hs Hev Hstep Hopen Hlt)
          as (n1 & Hn1 & Hch1).
        destruct (forEach_children_grow rest (evs ++ [e]) st1 F1 st' i n1)
          as (n' & Hn' & Hch'); try done.
        exists n'. split; [done|]. split; [done|lia].
Qed.

Lemma filter_unique {A B} `{EqDecision B} (f : A -> B) (l : list A) (x : A) :
  NoDup (map f l) -> x ∈ l -> filter (fun y => f y = f x) l = [x].
Proof.
  induction l as [|y l IH]; intros Hnd Hin; [inversion Hin|].
  simpl in Hnd. apply NoDup_cons in Hnd as [Hy Hnd].
  apply elem_of_cons in Hin as [->|Hin].
  - rewrite filter_cons_True by done. f_equal.
    apply filter_none. intros z Hz Heq. apply Hy. rewrite <- Heq.
    apply list_elem_of_fmap. change (map f l) with (f <$> l). eauto.
  - rewrite filter_cons_False; [by apply IH|].
    intros Heq. apply Hy. rewrite Heq.
    change (map f l) with (f <$> l). apply list_elem_of_fmap. eauto.
Qed.

(** The counterexample to C2: a [call_return] at depth 0 followed by a
    call at depth 1 yields one root, the [call_return] node, with one
    child. *)
Lemma call_return_with_child :
  map (fun n : TreeNodeDisplay =>
         (id n, event n, map (fun c : TreeNodeDisplay => id c) (children n)))
    <$> transformTreeData
          [Spec.trace_event ev_call_return "x" 0 (VNumber 1);
           Spec.trace_event ev_call "y" 1 VUndefined]
  = Some [("node-0", ev_call_return, ["node-1"])].
Proof. reflexivity. Qed.

(** C2, amended.  For every event sequence and every call_return event
    in it, reconstruction produces exactly one node for that event,
    carrying the event's data; that node has an empty children sequence
    exactly when the next call or call_return event, if there is one,
    does not have a strictly greater depth. *)
Theorem call_return_node (events : list TreeNodeData) (i : nat)
    (e : TreeNodeData) :
  events !! i = Some e ->
  event e = ev_call_return ->
  exists forest node,
    transformTreeData events = Some forest
    /\ filter (fun n => id n = node_id i) (Spec.preorder forest) = [node]
    /\ node_data node = e
    /\ (children node = [] <->
        match Spec.next_created (drop (S i) events) with
        | Some e' => depth e' <= depth e
        | None => True
        end).
Proof.
  intros Hi Hev.
  assert (event e <> ev_return) as Hnr by congruence.
  destruct (transformTreeData_invariant events)
    as (st & F & Hrun & Hres & Hs & Ht).
  (* the node of the forest *)
  assert (exists node, node ∈ Spec.preorder F /\ id node = node_id i)
    as (node & Hnode & Hid).
  { assert (esig (i, e) ∈ map sig (Spec.preorder F)) as Hin.
    { rewrite (ti_sig _ _ _ Ht). change (map ?f ?l) with (f <$> l).
      apply list_elem_of_fmap. exists (i, e). split; [done|].
      apply created_lookup. rewrite Nat.sub_0_r. split; [lia|done]. }
    change (map ?f ?l) with (f <$> l) in Hin.
    apply list_elem_of_fmap in Hin as (node & Heq & Hin).
    exists node. split; [done|]. unfold sig, esig in Heq. simpl in Heq. congruence. }
  destruct (repr_preorder _ _ _ _ (ti_repr _ _ _ Ht) Hnode) as (a & Ha).
  inversion Ha as [? n ? Hn Hlabel Hkids]; subst.
  destruct (si_nodes _ _ Hs _ _ Hn)
    as (e0 & He0 & _ & Hid0 & _ & _ & _ & _ & _ & Hcr).
  assert (a = i) as ->.
  { apply node_id_inj. unfold label, s_label in Hlabel. congruence. }
  assert (e0 = e) as -> by congruence.
  exists F, node. split; [done|]. split; [|split].
  - rewrite <- Hid. apply filter_unique; [|done].
    apply (created_ids_NoDup events). apply (ti_sig _ _ _ Ht).
  - unfold label, s_label in Hlabel. rewrite <- (Hcr Hev). congruence.
  - (* replay the events from the call_return on *)
    pose proof (take_drop_middle events i e Hi) as Hsplit.
    assert (length (take i events) = i) as Hlen.
    { apply length_take_le. apply lookup_lt_Some in Hi. lia. }
    destruct (forEach_invariant (take i events)) as (st0 & F0 & Hrun0 & Hs0 & Ht0).
    destruct (process_created (take i events) st0 e Hs0 Hnr) as (st1 & Hstep & Hopen).
    destruct (process_invariant (take i events) st0 F0 e Hs0 Ht0)
      as (st1' & F1 & Hstep' & Hs1 & Ht1).
    assert (st1' = st1) as -> by congruence.
    rewrite Hlen in Hopen, Hstep.
    assert (forEach (drop (S i) events) (length (take i events ++ [e])) st1
            = Some st) as Hrest.
    { rewrite <- Hsplit in Hrun at 1.
      replace (take i events ++ e :: drop (S i) events)
        with ((take i events ++ [e]) ++ drop (S i) events) in Hrun
        by (by rewrite <- app_assoc).
      rewrite forEach_app, forEach_app, Hrun0 in Hrun. simpl in Hrun.
      rewrite Hlen, Hstep in Hrun. simpl in Hrun. exact Hrun. }
    destruct (open_leaf_run _ _ _ _ _ _ _ Hs1 Ht1 Hopen Hrest)
      as (n' & Hn' & Hiff).
    assert (n' = n) as -> by congruence.
    rewrite <- Hiff. apply Forall2_length in Hkids.
    split; intros H; [destruct (s_children n)|destruct (children node)];
      try done; rewrite H in Hkids; done.
Qed.

Lemma call_return_node_example :
  exists forest node,
    transformTreeData
      [Spec.trace_event ev_call_return "x" 0 (VNumber 1);
       Spec.trace_event ev_call_return "y" 0 (VNumber 2)]
    = Some forest
    /\ filter (fun n => id n = node_id 0) (Spec.preorder forest) = [node]
    /\ node_data node = Spec.trace_event ev_call_return "x" 0 (VNumber 1)
    /\ (children node = [] <-> 0 <= 0).
Proof.
  exact (call_return_node
           [Spec.trace_event ev_call_return "x" 0 (VNumber 1);
            Spec.trace_event ev_call_return "y" 0 (VNumber 2)]
           0 (Spec.trace_event ev_call_return "x" 0 (VNumber 1))
           eq_refl eq_refl).
Defined.

End ReconstructionFacts.
(* ===================================================================== *)
(** * More on tree reconstruction *)
(* ===================================================================== *)

Section ShapeFacts.
Import Types treeTransform Repr Shape.

(** ** The nearest shallower event *)

Lemma shallower_snoc evs e d :
  shallower (evs ++ [e]) d
  = if decide (event e <> ev_return /\ depth e < d)
    then Some (length evs) else shallower evs d.
Proof.
  unfold shallower. rewrite created_snoc.
  destruct (decide (event e <> ev_return /\ depth e < d)) as [[Hev Hd]|Hno].
  - destruct (event e) eqn:E; try done;
      rewrite filter_app, filter_cons_True by done;
      rewrite filter_nil, fmap_app; apply last_snoc.
  - destruct (event e) eqn:E; rewrite ?app_nil_r; try done;
      rewrite filter_app, filter_cons_False, filter_nil, app_nil_r; try done;
      simpl; intros Hd; apply Hno; (split; [congruence|done]).
Qed.

Lemma nearest_shallower_snoc evs e a :
  a < length evs ->
  nearest_shallower (evs ++ [e]) a = nearest_shallower evs a.
Proof.
  intros Hlt. unfold nearest_shallower.
  rewrite lookup_app_l by done. rewrite take_app_le by lia. done.
Qed.

Lemma nearest_shallower_last evs e :
  nearest_shallower (evs ++ [e]) (length evs) = shallower evs (depth e).
Proof.
  unfold nearest_shallower. rewrite list_lookup_middle by done. simpl.
  by rewrite take_app_length.
Qed.

Lemma find_popped {A} (f : A -> bool) popped rest :
  (forall a, a ∈ popped -> f a = false) ->
  find f (popped ++ rest) = find f rest.
Proof.
  induction popped as [|a popped IH]; intros H; [done|]. simpl.
  rewrite (H a) by constructor. apply IH. intros b Hb. apply H. by constructor.
Qed.

Lemma find_ext_elem {A} (f g : A -> bool) l :
  (forall a, a ∈ l -> f a = g a) -> find f l = find g l.
Proof.
  induction l as [|a l IH]; intros H; [done|]. simpl.
  rewrite (H a) by constructor. destruct (g a); [done|].
  apply IH. intros b Hb. apply H. by constructor.
Qed.

Lemma find_head {A} (f : A -> bool) l :
  (forall a, a ∈ l -> f a = true) -> find f l = head l.
Proof.
  destruct l as [|a l]; intros H; [done|]. simpl.
  by rewrite (H a) by constructor.
Qed.

(** ** The stack holds the nearest shallower nodes *)

Lemma ShapeInv_initial : ShapeInv [] initial.
Proof.
  split; [done|]. intros a n H. unfold initial in H. cbn [store] in H.
  by rewrite lookup_empty in H.
Qed.

Lemma ShapeInv_step evs st e st' :
  StoreInv evs st -> ShapeInv evs st ->
  process st (length evs) e = Some st' ->
  ShapeInv (evs ++ [e]) st'.
Proof.
  intros Hs [Hstack Hparent] Hstep.
  assert (forall a n, store st !! a = Some n -> a < length evs) as Hbound.
  { intros a n Ha. destruct (si_nodes _ _ Hs _ _ Ha) as (e0 & He0 & _).
    by apply lookup_lt_Some in He0. }
  destruct (decide (event e = ev_return)) as [Hev|Hev].
  - (* a return: levels, parents and the stack stay *)
    rewrite (process_return _ _ _ Hev) in Hstep.
    assert (forall d, shallower (evs ++ [e]) d = shallower evs d) as Hsh.
    { intros d. rewrite shallower_snoc. rewrite decide_False; [done|].
      intros [H _]. done. }
    destruct (callStack st !! callKey (depth e) (method_name e)) as [b|] eqn:Hkey.
    + destruct (si_callStack _ _ Hs _ _ Hkey) as (_ & cn & Hb & _).
      rewrite Hb in Hstep. simpl in Hstep. injection Hstep as <-.
      split; simpl.
      * intros d. rewrite Hsh, <- Hstack. unfold top_below. simpl.
        apply find_ext_elem. intros a _. unfold level_below.
        destruct (decide (a = b)) as [->|Hne].
        -- by rewrite lookup_insert_eq, Hb.
        -- by rewrite lookup_insert_ne.
      * intros a n Ha. destruct (decide (a = b)) as [->|Hne].
        -- rewrite lookup_insert_eq in Ha. injection Ha as <-. simpl.
           rewrite (Hparent _ _ Hb).
           symmetry. apply nearest_shallower_snoc. by eapply Hbound.
        -- rewrite lookup_insert_ne in Ha by done.
           rewrite (Hparent _ _ Ha).
           symmetry. apply nearest_shallower_snoc. by eapply Hbound.
    + injection Hstep as <-. split.
      * intros d. by rewrite Hsh.
      * intros a n Ha. rewrite (Hparent _ _ Ha).
        symmetry. apply nearest_shallower_snoc. by eapply Hbound.
  - (* a node is created *)
    destruct (pop_stack_spec (store st) (depth e) (stack st) (callStack st)
                (si_stack _ _ Hs))
      as (popped & stack1 & cs1 & Hpop & Hstk & Hpopped & Hstack1 & _).
    rewrite (process_attach _ _ _ _ _ Hev Hpop) in Hstep.
    pose proof (StoreInv_fresh _ _ Hs) as Hfresh.
    (* what the loop leaves on top is the nearest shallower node *)
    assert (head stack1 = shallower evs (depth e)) as Hhead.
    { rewrite <- Hstack. unfold top_below. rewrite Hstk, find_popped.
      - symmetry. apply find_head. intros b Hb.
        destruct (Hstack1 b Hb) as (m & Hm & Hlt). unfold level_below.
        rewrite Hm. by apply Nat.ltb_lt.
      - intros a Ha. destruct (Hpopped a Ha) as (n & Hn & Hle & _).
        unfold level_below. rewrite Hn. apply Nat.ltb_ge. lia. }
    (* the store after the parent's [children] was extended *)
    assert (exists store1 nodes1,
              st' = attached st (length evs) e stack1 cs1 store1 nodes1
              /\ (forall a, a <> length evs ->
                    option_map s_level (store1 !! a)
                    = option_map s_level (store st !! a))
              /\ (forall a n1, store1 !! a = Some n1 ->
                    exists n, store st !! a = Some n
                              /\ s_parent n1 = s_parent n))
      as (store1 & nodes1 & -> & Hlevels & Hparents).
    { destruct stack1 as [|p rest].
      - injection Hstep as <-. eexists _, _. split; [done|].
        split; [done|]. intros a n1 Ha. by exists n1.
      - destruct (Hstack1 p ltac:(constructor)) as (pn & Hp & _).
        rewrite Hp in Hstep. simpl in Hstep. injection Hstep as <-.
        eexists _, _. split; [done|]. split.
        + intros a _. destruct (decide (a = p)) as [->|Hne].
          * by rewrite lookup_insert_eq, Hp.
          * by rewrite lookup_insert_ne.
        + intros a n1 Ha. destruct (decide (a = p)) as [->|Hne].
          * rewrite lookup_insert_eq in Ha. injection Ha as <-. by exists pn.
          * rewrite lookup_insert_ne in Ha by done. by exists n1. }
    split; simpl.
    + intros d. rewrite shallower_snoc. unfold top_below. simpl.
      unfold level_below at 1. rewrite lookup_insert_eq. simpl.
      destruct (decide (event e <> ev_return /\ depth e < d)) as [[_ Hd]|Hno].
      * by rewrite (proj2 (Nat.ltb_lt _ _) Hd).
      * assert (d <= depth e) as Hle.
        { destruct (Nat.le_gt_cases d (depth e)); [done|]. by destruct Hno. }
        rewrite (proj2 (Nat.ltb_ge _ _) Hle).
        rewrite <- Hstack. unfold top_below. rewrite Hstk, find_popped.
        -- apply find_ext_elem. intros b Hb.
           destruct (Hstack1 b Hb) as (m & Hm & _).
           assert (b <> length evs) as Hne.
           { intros ->. by rewrite Hfresh in Hm. }
           unfold level_below. rewrite lookup_insert_ne by done.
           pose proof (Hlevels b Hne) as Hl.
           destruct (store1 !! b), (store st !! b); simpl in Hl; congruence.
        -- intros a Ha. destruct (Hpopped a Ha) as (n & Hn & Hge & _).
           unfold level_below. rewrite Hn. apply Nat.ltb_ge. lia.
    + intros a n Ha. destruct (decide (a = length evs)) as [->|Hne].
      * rewrite lookup_insert_eq in Ha. injection Ha as <-. simpl.
        by rewrite nearest_shallower_last.
      * rewrite lookup_insert_ne in Ha by done.
        destruct (Hparents _ _ Ha) as (n0 & Hn0 & ->).
        rewrite (Hparent _ _ Hn0).
        symmetry. apply nearest_shallower_snoc. by eapply Hbound.
Qed.

(** The loop keeps all its invariants. *)
Lemma forEach_shape evs :
  exists st F,
    forEach evs 0 initial = Some st
    /\ transformTreeData evs = Some F
    /\ StoreInv evs st /\ TreeInv evs st F /\ ShapeInv evs st.
Proof.
  induction evs as [|e evs IH] using rev_ind.
  - exists initial, []. split; [done|]. split; [done|].
    split; [apply StoreInv_initial|]. split; [apply TreeInv_initial|].
    apply ShapeInv_initial.
  - destruct IH as (st & F & Hrun & _ & Hs & Ht & Hsh).
    destruct (process_invariant evs st F e Hs Ht) as (st' & F' & Hstep & Hs' & Ht').
    assert (forEach (evs ++ [e]) 0 initial = Some st') as Hrun'.
    { rewrite forEach_app, Hrun. simpl. by rewrite Hstep. }
    exists st', F'. split; [done|]. split.
    { unfold transformTreeData. rewrite Hrun'. simpl.
      by eapply result_of_TreeInv. }
    split; [done|]. split; [done|]. by eapply ShapeInv_step.
Qed.


(** ** Every trace: the forest in creation order *)

(** X1. For every event sequence, reconstruction returns a forest whose
    flattening lists exactly one node per call or call_return event, in
    the order of the events: the node of the event at index [i] has id
    [node-i], the event's kind, method name and depth, a level equal to
    the depth, and is expanded.  Return events create no node, and no
    two nodes share an id. *)
Theorem forest_in_creation_order (events : list TreeNodeData) :
  exists forest,
    transformTreeData events = Some forest
    /\ map (fun n : TreeNodeDisplay =>
              (id n, event n, method_name n, depth n, level n, isExpanded n))
           (flattenTree forest)
       = map (fun ie : nat * TreeNodeData =>
                (node_id ie.1, event ie.2, method_name ie.2, depth ie.2,
                 depth ie.2, true))
             (created events)
    /\ map snd (created events)
       = filter (fun e => event e <> ev_return) events
    /\ length (flattenTree forest)
       = length (filter (fun e => event e <> ev_return) events)
    /\ NoDup (map id (flattenTree forest)).
Proof.
  destruct (transformTreeData_invariant events) as (st & F & _ & Hres & _ & Ht).
  exists F. split; [done|].
  pose proof (ti_sig _ _ _ Ht) as Hsig.
  destruct (flattenTree_creation_order events F Hsig) as [-> _].
  split; [exact Hsig|]. split; [apply created_from_events|]. split.
  - rewrite <- (created_from_events 0 events), length_map.
    apply (f_equal length) in Hsig. by rewrite !length_map in Hsig.
  - by apply (created_ids_NoDup events).
Qed.

(** ** Parents *)

(** The objects behind a child and the node that holds it. *)
Lemma child_objects evs st F p c :
  StoreInv evs st -> TreeInv evs st F ->
  p ∈ Spec.preorder F -> c ∈ children p ->
  exists a n j m,
    store st !! a = Some n /\ store st !! j = Some m
    /\ label p = s_label n /\ label c = s_label m
    /\ s_level n < s_level m /\ s_parent m = Some a.
Proof.
  intros Hs Ht Hp Hc.
  destruct (repr_preorder _ _ _ _ (ti_repr _ _ _ Ht) Hp) as (a & Ha).
  inversion Ha as [? n ? Hn Hlabel Hkids]; subst.
  apply list_elem_of_lookup in Hc as (k & Hk).
  destruct (Forall2_lookup_r _ _ _ _ _ Hkids Hk) as (j & Hj & Hrc).
  inversion Hrc as [? m ? Hm Hlabelc _]; subst.
  destruct (si_kids _ _ Hs a n j Hn) as (m' & Hm' & Hlt & Hpar).
  { by eapply list_elem_of_lookup_2. }
  replace m' with m in * by congruence.
  by exists a, n, j, m.
Qed.

(** The object behind a root. *)
Lemma root_objects evs st F r :
  StoreInv evs st -> TreeInv evs st F ->
  r ∈ F ->
  exists j m, store st !! j = Some m /\ label r = s_label m
              /\ s_parent m = None.
Proof.
  intros Hs Ht Hr. apply list_elem_of_lookup in Hr as (k & Hk).
  destruct (Forall2_lookup_r _ _ _ _ _ (ti_repr _ _ _ Ht) Hk) as (j & Hj & Hrj).
  inversion Hrj as [? m ? Hm Hlabel _]; subst.
  destruct (si_roots _ _ Hs j) as (m' & Hm' & Hpar).
  { by eapply list_elem_of_lookup_2. }
  replace m' with m in * by congruence.
  by exists j, m.
Qed.

(** A node of a forest is a root or a child of a node of the forest. *)
Lemma preorder_root_or_child (F : list TreeNodeDisplay) t :
  t ∈ Spec.preorder F ->
  t ∈ F \/ exists p, p ∈ Spec.preorder F /\ t ∈ children p.
Proof.
  assert (forall t0, t ∈ Spec.preorder [t0] ->
            t = t0 \/ exists p, p ∈ Spec.preorder [t0] /\ t ∈ children p) as Hnode.
  { induction t0 as [t0 IH] using TreeNodeDisplay_ind'. intros Hin.
    rewrite preorder_singleton in Hin.
    apply elem_of_cons in Hin as [->|Hin]; [by left|]. right.
    unfold Spec.preorder in Hin. apply list_elem_of_In, in_flat_map in Hin.
    destruct Hin as (kid & Hkid & Hin). apply list_elem_of_In in Hkid, Hin.
    rewrite Forall_forall in IH.
    assert (t ∈ Spec.preorder [kid]) as Hin'.
    { unfold Spec.preorder. simpl. by rewrite app_nil_r. }
    assert (forall q, q ∈ Spec.preorder [kid] -> q ∈ Spec.preorder [t0]) as Hsub.
    { intros q Hq. rewrite preorder_singleton. apply elem_of_cons. right.
      unfold Spec.preorder in *. simpl in Hq. rewrite app_nil_r in Hq.
      apply list_elem_of_In, in_flat_map. exists kid.
      split; by apply list_elem_of_In. }
    destruct (IH kid Hkid Hin') as [->|(p & Hp & Hc)].
    - exists t0. split; [|done]. rewrite preorder_singleton. constructor.
    - exists p. split; [by apply Hsub|done]. }
  intros Hin. unfold Spec.preorder in Hin.
  apply list_elem_of_In, in_flat_map in Hin. destruct Hin as (r & Hr & Hin).
  apply list_elem_of_In in Hr, Hin.
  assert (t ∈ Spec.preorder [r]) as Hin'.
  { unfold Spec.preorder. simpl. by rewrite app_nil_r. }
  destruct (Hnode r Hin') as [->|(p & Hp & Hc)]; [by left|right].
  exists p. split; [|done].
  unfold Spec.preorder in *. simpl in Hp. rewrite app_nil_r in Hp.
  apply list_elem_of_In, in_flat_map. exists r. split; by apply list_elem_of_In.
Qed.

(** X2. The shape of the forest.  For every event sequence, a node is a
    child of the node created by the nearest earlier call or call_return
    event of strictly smaller depth, and a root when no earlier such
    event has a smaller depth. *)
Theorem parent_is_nearest_shallower (events : list TreeNodeData) :
  exists forest,
    transformTreeData events = Some forest
    /\ (forall p c, p ∈ Spec.preorder forest -> c ∈ children p ->
          exists a j, id p = node_id a /\ id c = node_id j
                      /\ nearest_shallower events j = Some a)
    /\ (forall r, r ∈ forest ->
          exists j, id r = node_id j /\ nearest_shallower events j = None).
Proof.
  destruct (forEach_shape events) as (st & F & _ & Hres & Hs & Ht & Hsh).
  exists F. split; [done|].
  assert (forall a n, store st !! a = Some n -> s_id n = node_id a) as Hid.
  { intros a n Hn. by destruct (si_nodes _ _ Hs _ _ Hn) as (e & _ & _ & -> & _). }
  split.
  - intros p c Hp Hc.
    destruct (child_objects _ _ _ _ _ Hs Ht Hp Hc)
      as (a & n & j & m & Hn & Hm & Hlp & Hlc & _ & Hpar).
    exists a, j. unfold label, s_label in Hlp, Hlc.
    split; [rewrite <- (Hid _ _ Hn); congruence|].
    split; [rewrite <- (Hid _ _ Hm); congruence|].
    by rewrite <- (sh_parent _ _ Hsh _ _ Hm).
  - intros r Hr.
    destruct (root_objects _ _ _ _ Hs Ht Hr) as (j & m & Hm & Hl & Hpar).
    exists j. unfold label, s_label in Hl.
    split; [rewrite <- (Hid _ _ Hm); congruence|].
    by rewrite <- (sh_parent _ _ Hsh _ _ Hm).
Qed.

(** X3. Every node of depth 0 is a root of the forest, whatever the
    events around it. *)
Theorem top_level_calls_are_roots (events : list TreeNodeData) :
  exists forest,
    transformTreeData events = Some forest
    /\ forall n : TreeNodeDisplay,
         n ∈ Spec.preorder forest -> depth n = 0 ->
         n ∈ forest /\ parent n = None.
Proof.
  destruct (transformTreeData_invariant events) as (st & F & _ & Hres & Hs & Ht).
  exists F. split; [done|]. intros n Hn Hd.
  assert (n ∈ F) as Hroot.
  { destruct (preorder_root_or_child F n Hn) as [H|(p & Hp & Hc)]; [done|].
    destruct (child_objects _ _ _ _ _ Hs Ht Hp Hc)
      as (a & pn & j & m & Hpn & Hm & Hlp & Hlc & Hlt & _).
    destruct (si_nodes _ _ Hs _ _ Hm) as (e & _ & _ & _ & Hl & _ & _ & _ & Hde & _).
    unfold label, s_label in Hlc.
    assert (depth n = s_level m) by congruence. lia. }
  split; [done|].
  destruct (root_objects _ _ _ _ Hs Ht Hroot) as (j & m & Hm & Hl & Hpar).
  unfold label, s_label in Hl. congruence.
Qed.

(** ** [flattenTree] on any forest *)

Lemma traverse_kids_sublist kids :
  Forall (fun kid => exists out,
            (forall acc, traverse_node kid acc = acc ++ out)
            /\ sublist out (Spec.preorder_node kid)) kids ->
  exists outs,
    (forall acc, fold_left (fun result child => traverse_node child result)
                           kids acc = acc ++ outs)
    /\ sublist outs (flat_map Spec.preorder_node kids).
Proof.
  induction 1 as [|kid kids (out & Hout & Hsub) _ (outs & Houts & Hsubs)].
  - exists []. split; [|done]. intros acc. simpl. by rewrite app_nil_r.
  - exists (out ++ outs). split; [|by apply sublist_app].
    intros acc. simpl. by rewrite Hout, Houts, app_assoc.
Qed.

Lemma traverse_node_sublist t :
  exists out,
    (forall acc, traverse_node t acc = acc ++ out)
    /\ sublist out (Spec.preorder_node t).
Proof.
  induction t as [t IH] using TreeNodeDisplay_ind'.
  destruct (traverse_kids_sublist _ IH) as (outs & Houts & Hsubs).
  destruct t as [d i kids e l p]. cbn [traverse_node Spec.preorder_node children isExpanded] in *.
  destruct (e && (0 <? length kids)%nat).
  - exists (mkTreeNodeDisplay d i kids e l p :: outs). split.
    + intros acc. rewrite Houts, <- app_assoc. done.
    + by constructor.
  - exists [mkTreeNodeDisplay d i kids e l p]. split; [done|].
    constructor. apply sublist_nil_l.
Qed.

(** X26. [flattenTree] lists a subsequence of the pre-order of any
    forest: all of it when every node is expanded, and none of the
    descendants of a node whose [isExpanded] is false. *)
Theorem flattenTree_follows_isExpanded (forest : list TreeNodeDisplay) :
  sublist (flattenTree forest) (Spec.preorder forest)
  /\ (Forall (fun n => isExpanded n = true) (Spec.preorder forest) ->
      flattenTree forest = Spec.preorder forest)
  /\ (forall node, isExpanded node = false -> flattenTree [node] = [node]).
Proof.
  split; [|split].
  - unfold flattenTree, traverse.
    destruct (traverse_kids_sublist forest) as (outs & Houts & Hsubs).
    { apply Forall_forall. intros t _. apply traverse_node_sublist. }
    by rewrite Houts.
  - apply flattenTree_preorder.
  - intros [d i kids e l p] Hcollapsed. simpl in Hcollapsed. subst e. done.
Qed.

(** ** Truncated traces *)

Lemma nearest_shallower_app evs more a :
  a < length evs ->
  nearest_shallower (evs ++ more) a = nearest_shallower evs a.
Proof.
  intros Hlt. unfold nearest_shallower.
  rewrite lookup_app_l by done. rewrite take_app_le by lia. done.
Qed.

Lemma node_parent evs st F (n : TreeNodeDisplay) :
  StoreInv evs st -> TreeInv evs st F -> ShapeInv evs st ->
  n ∈ Spec.preorder F ->
  exists j, id n = node_id j /\ j < length evs
            /\ parent n = nearest_shallower evs j.
Proof.
  intros Hs Ht Hsh Hn.
  destruct (repr_preorder _ _ _ _ (ti_repr _ _ _ Ht) Hn) as (j & Hj).
  inversion Hj as [? m ? Hm Hlabel _]; subst.
  destruct (si_nodes _ _ Hs _ _ Hm) as (e & He & _ & Hid & _).
  unfold label, s_label in Hlabel. exists j.
  split; [congruence|]. split; [by apply lookup_lt_Some in He|].
  rewrite <- (sh_parent _ _ Hsh _ _ Hm). congruence.
Qed.

(** X29. A truncated capture shows a prefix of the full tree: for a
    trace and any continuation of it, the nodes of the shorter forest
    are, in pre-order, the first nodes of the longer one, with the same
    id, kind, method name, depth, level and parent.  Later events add
    nodes after them, and may still add children and return data to
    them. *)
Theorem truncated_trace_is_prefix (events more : list TreeNodeData) :
  exists forest forest',
    transformTreeData events = Some forest
    /\ transformTreeData (events ++ more) = Some forest'
    /\ map (fun n : TreeNodeDisplay =>
              (id n, event n, method_name n, depth n, level n, parent n))
           (Spec.preorder forest)
       `prefix_of`
       map (fun n : TreeNodeDisplay =>
              (id n, event n, method_name n, depth n, level n, parent n))
           (Spec.preorder forest').
Proof.
  destruct (forEach_shape events) as (st & F & _ & Hres & Hs & Ht & Hsh).
  destruct (forEach_shape (events ++ more))
    as (st' & F' & _ & Hres' & Hs' & Ht' & Hsh').
  exists F, F'. split; [done|]. split; [done|].
  set (view := fun n : TreeNodeDisplay =>
                 (id n, event n, method_name n, depth n, level n, parent n)).
  pose proof (ti_sig _ _ _ Ht) as Hsig.
  pose proof (ti_sig _ _ _ Ht') as Hsig'.
  unfold created in Hsig'. rewrite created_from_app, map_app in Hsig'.
  fold (created events) in Hsig'. rewrite <- Hsig in Hsig'.
  exists (drop (length (Spec.preorder F)) (map view (Spec.preorder F'))).
  rewrite <- (take_drop (length (Spec.preorder F)) (map view (Spec.preorder F')))
    at 1.
  f_equal. apply list_eq. intros k.
  destruct (Spec.preorder F !! k) as [n|] eqn:Hk.
  - (* the same node on both sides *)
    pose proof (lookup_lt_Some _ _ _ Hk) as Hlt.
    assert (exists n', Spec.preorder F' !! k = Some n' /\ sig n' = sig n)
      as (n' & Hk' & Heq).
    { assert (map sig (Spec.preorder F') !! k = Some (sig n)) as Hl.
      { rewrite Hsig'. rewrite lookup_app_l by (by rewrite length_map).
        change (map ?f ?l) with (f <$> l). by rewrite list_lookup_fmap, Hk. }
      change (map ?f ?l) with (f <$> l) in Hl.
      rewrite list_lookup_fmap in Hl.
      destruct (Spec.preorder F' !! k) as [n'|]; [|done].
      exists n'. split; [done|]. simpl in Hl. congruence. }
    rewrite lookup_take_lt by done.
    change (map ?f ?l) with (f <$> l).
    rewrite !list_lookup_fmap, Hk, Hk'. simpl. f_equal.
    destruct (node_parent _ _ _ n Hs Ht Hsh) as (j & Hid & Hj & Hpar).
    { by eapply list_elem_of_lookup_2. }
    destruct (node_parent _ _ _ n' Hs' Ht' Hsh') as (j' & Hid' & _ & Hpar').
    { by eapply list_elem_of_lookup_2. }
    unfold sig in Heq. injection Heq as Hi He Hm Hd Hl _.
    assert (j' = j) as -> by (apply node_id_inj; congruence).
    rewrite nearest_shallower_app in Hpar' by done.
    unfold view. congruence.
  - (* past the end of the shorter forest *)
    apply lookup_ge_None in Hk.
    change (map ?f ?l) with (f <$> l).
    rewrite list_lookup_fmap.
    replace (Spec.preorder F !! k) with (@None TreeNodeDisplay)
      by (symmetry; by apply lookup_ge_None).
    simpl. apply lookup_take_ge. lia.
Qed.

End ShapeFacts.

(* ===================================================================== *)
(** * More on return events *)
(* ===================================================================== *)

Section ReturnFacts.
Import Types treeTransform Repr.

(** The store and an address determine the tree. *)
Lemma repr_functional store a t t' :
  repr store a t -> repr store a t' -> t = t'.
Proof.
  intros H H'.
  pose proof (load_repr store t a (height t `max` height t') H
                ltac:(lia)) as Hl.
  pose proof (load_repr store t' a (height t `max` height t') H'
                ltac:(lia)) as Hl'.
  congruence.
Qed.

Lemma forest_functional store roots F : forall F',
  Forall2 (repr store) roots F -> Forall2 (repr store) roots F' -> F = F'.
Proof.
  intros F' H. revert F'.
  induction H as [|a t roots F Ha _ IH]; intros F' H'.
  - by inversion H'.
  - inversion H' as [|? t' ? F'' Ha' Hrest]; subst. f_equal.
    + by eapply repr_functional.
    + by apply IH.
Qed.

(** After a return event nothing is pending under its key. *)
Lemma pending_after_return evs st r st' :
  StoreInv evs st -> event r = ev_return ->
  process st (length evs) r = Some st' ->
  callStack st' !! callKey (depth r) (method_name r) = None.
Proof.
  intros Hs Hev Hstep. rewrite (process_return _ _ _ Hev) in Hstep.
  destruct (callStack st !! callKey (depth r) (method_name r)) as [a|] eqn:Hkey.
  - destruct (si_callStack _ _ Hs _ _ Hkey) as (_ & cn & Ha & _).
    rewrite Ha in Hstep. simpl in Hstep. injection Hstep as <-. simpl.
    apply lookup_delete_eq.
  - by injection Hstep as <-.
Qed.

(** X5. A return is consumed at most once: a second return event with
    the same depth and method name right after a return changes
    nothing. *)
Theorem return_consumed_once (events : list TreeNodeData)
    (r r' : TreeNodeData) :
  event r = ev_return -> event r' = ev_return ->
  depth r' = depth r -> method_name r' = method_name r ->
  transformTreeData (events ++ [r; r']) = transformTreeData (events ++ [r])
  /\ is_Some (transformTreeData (events ++ [r])).
Proof.
  intros Hev Hev' Hd Hm.
  destruct (forEach_invariant events) as (st & F & Hrun & Hs & Ht).
  destruct (process_invariant events st F r Hs Ht) as (st' & F' & Hstep & Hs' & Ht').
  assert (forEach (events ++ [r]) 0 initial = Some st') as Hrun'.
  { rewrite forEach_app, Hrun. simpl. by rewrite Hstep. }
  pose proof (pending_after_return _ _ _ _ Hs Hev Hstep) as Hnone.
  split.
  - unfold transformTreeData.
    replace (events ++ [r; r']) with ((events ++ [r]) ++ [r'])
      by (by rewrite <- app_assoc).
    rewrite forEach_app, Hrun'. simpl.
    by rewrite (process_return _ _ _ Hev'), Hd, Hm, Hnone.
  - unfold transformTreeData. rewrite Hrun'. simpl.
    by rewrite (result_of_TreeInv _ _ _ Ht').
Qed.

Lemma return_consumed_once_example :
  transformTreeData
    ([Spec.trace_event ev_call "f" 0 VUndefined]
     ++ [Spec.trace_event ev_return "f" 0 (VNumber 5);
         Spec.trace_event ev_return "f" 0 (VNumber 7)])
  = transformTreeData
      ([Spec.trace_event ev_call "f" 0 VUndefined]
       ++ [Spec.trace_event ev_return "f" 0 (VNumber 5)])
  /\ is_Some (transformTreeData
                ([Spec.trace_event ev_call "f" 0 VUndefined]
                 ++ [Spec.trace_event ev_return "f" 0 (VNumber 5)])).
Proof.
  exact (return_consumed_once [Spec.trace_event ev_call "f" 0 VUndefined]
           (Spec.trace_event ev_return "f" 0 (VNumber 5))
           (Spec.trace_event ev_return "f" 0 (VNumber 7))
           eq_refl eq_refl eq_refl eq_refl).
Defined.

(** X6. The pending-return index never confuses two calls: the key
    built from a depth and a method name determines both, whatever
    characters the method name holds. *)
Theorem callKey_pairs (d1 d2 : nat) (m1 m2 : string) :
  callKey d1 m1 = callKey d2 m2 <-> d1 = d2 /\ m1 = m2.
Proof.
  split; [apply callKey_inj|]. by intros [-> ->].
Qed.

End ReturnFacts.

(* ===================================================================== *)
(** * More on the tree view *)
(* ===================================================================== *)

Section TreeViewFacts.
Import Types.

(** ** The projection, node by node *)

Lemma visibleNodes_flat_map expanded search filteredOnly data :
  TreeView.visibleNodes expanded search filteredOnly data
  = flat_map (Spec.project_node expanded search filteredOnly) data.
Proof.
  unfold TreeView.visibleNodes, TreeView.traverse.
  apply (fold_left_appending
           (fun result node =>
              TreeView.traverse_node expanded search filteredOnly node result)
           (Spec.project_node expanded search filteredOnly) data).
  apply Forall_forall. intros node _ acc. apply traverse_node_project.
Qed.

Lemma project_node_unfold expanded search filteredOnly node :
  Spec.project_node expanded search filteredOnly node
  = (if Spec.emitted search filteredOnly node then [node] else [])
    ++ (if bool_decide (id node ∈ expanded)
        then flat_map (Spec.project_node expanded search filteredOnly)
                      (children node)
        else []).
Proof. by destruct node. Qed.

Lemma preorder_node_unfold node :
  Spec.preorder_node node = node :: flat_map Spec.preorder_node (children node).
Proof. by destruct node. Qed.

Lemma flat_map_Forall_eq {A B} (f g : A -> list B) l :
  Forall (fun x => f x = g x) l -> flat_map f l = flat_map g l.
Proof. induction 1 as [|x l Hx _ IH]; simpl; [done|]. by rewrite Hx, IH. Qed.

Lemma flat_map_sublist {A B} (f g : A -> list B) l :
  Forall (fun x => sublist (f x) (g x)) l ->
  sublist (flat_map f l) (flat_map g l).
Proof.
  induction 1 as [|x l Hx _ IH]; simpl; [constructor|]. by apply sublist_app.
Qed.

Lemma elem_of_preorder_node_child node kid t :
  kid ∈ children node -> t ∈ Spec.preorder_node kid ->
  t ∈ Spec.preorder_node node.
Proof.
  intros Hkid Ht. rewrite preorder_node_unfold. apply elem_of_cons. right.
  apply list_elem_of_In, in_flat_map. exists kid.
  split; by apply list_elem_of_In.
Qed.

Lemma elem_of_preorder_root data r t :
  r ∈ data -> t ∈ Spec.preorder_node r -> t ∈ Spec.preorder data.
Proof.
  intros Hr Ht. apply list_elem_of_In, in_flat_map. exists r.
  split; by apply list_elem_of_In.
Qed.

Lemma elem_of_preorder_node_self node : node ∈ Spec.preorder_node node.
Proof. rewrite preorder_node_unfold. constructor. Qed.

(** ** Order and monotonicity *)

Lemma project_node_sublist expanded search filteredOnly node :
  sublist (Spec.project_node expanded search filteredOnly node)
          (Spec.preorder_node node).
Proof.
  induction node as [node IH] using TreeNodeDisplay_ind'.
  rewrite project_node_unfold, preorder_node_unfold.
  change (node :: ?l) with ([node] ++ l). apply sublist_app.
  - destruct (Spec.emitted _ _ _); [done|]. apply sublist_nil_l.
  - destruct (bool_decide _); [|apply sublist_nil_l].
    by apply flat_map_sublist.
Qed.

(** X7. The visible rows are a subsequence of the pre-order of the
    forest: [visibleNodes] never shows a node that is not in the tree,
    never shows a node more often than it occurs, and keeps the
    pre-order. *)
Theorem visibleNodes_sublist_preorder (data : list TreeNodeDisplay)
    (expanded : gset string) (search : string) (filteredOnly : bool) :
  sublist (TreeView.visibleNodes expanded search filteredOnly data)
          (Spec.preorder data)
  /\ length (TreeView.visibleNodes expanded search filteredOnly data)
     <= length (Spec.preorder data).
Proof.
  assert (sublist (TreeView.visibleNodes expanded search filteredOnly data)
                  (Spec.preorder data)) as H.
  { rewrite visibleNodes_flat_map. apply flat_map_sublist.
    apply Forall_forall. intros node _. apply project_node_sublist. }
  split; [done|]. by apply sublist_length.
Qed.

Lemma project_node_mono expanded expanded' search filteredOnly node :
  expanded ⊆ expanded' ->
  sublist (Spec.project_node expanded search filteredOnly node)
          (Spec.project_node expanded' search filteredOnly node).
Proof.
  intros Hsub. induction node as [node IH] using TreeNodeDisplay_ind'.
  rewrite !project_node_unfold. apply sublist_app; [done|].
  destruct (bool_decide_reflect (id node ∈ expanded)) as [Hin|Hout].
  - rewrite bool_decide_eq_true_2 by (by apply Hsub).
    by apply flat_map_sublist.
  - apply sublist_nil_l.
Qed.

(** X8. Expanding never hides a row: with more ids in the expanded set,
    the rows shown before are still shown, in the same order. *)
Theorem visibleNodes_expand_mono (data : list TreeNodeDisplay)
    (expanded expanded' : gset string) (search : string)
    (filteredOnly : bool) :
  expanded ⊆ expanded' ->
  sublist (TreeView.visibleNodes expanded search filteredOnly data)
          (TreeView.visibleNodes expanded' search filteredOnly data).
Proof.
  intros Hsub. rewrite !visibleNodes_flat_map. apply flat_map_sublist.
  apply Forall_forall. intros node _. by apply project_node_mono.
Qed.

Lemma visibleNodes_expand_mono_example :
  (∅ : gset string) ⊆ {["node-0"]}
  /\ sublist (TreeView.visibleNodes ∅ "" false Examples.three_calls)
             (TreeView.visibleNodes {["node-0"]} "" false Examples.three_calls).
Proof.
  assert ((∅ : gset string) ⊆ {["node-0"]}) as H by apply empty_subseteq.
  split; [exact H|].
  exact (visibleNodes_expand_mono Examples.three_calls ∅ {["node-0"]} ""
           false H).
Defined.

(** ** Search *)

Lemma emitted_filtered search node :
  Spec.emitted search true node = TreeView.matchesSearch search node.
Proof. by rewrite <- matchesSearch_emitted. Qed.

Lemma emitted_unfiltered search node : Spec.emitted search false node = true.
Proof. done. Qed.

Lemma filter_flat_map {A B} (keep : B -> bool) (f : A -> list B) l :
  List.filter keep (flat_map f l) = flat_map (fun x => List.filter keep (f x)) l.
Proof.
  induction l as [|x l IH]; simpl; [done|]. by rewrite List.filter_app, IH.
Qed.

Lemma project_node_filter expanded search node :
  Spec.project_node expanded search true node
  = List.filter (TreeView.matchesSearch search)
                (Spec.project_node expanded search false node).
Proof.
  induction node as [node IH] using TreeNodeDisplay_ind'.
  rewrite !project_node_unfold, emitted_filtered, emitted_unfiltered.
  rewrite List.filter_app. f_equal.
  destruct (bool_decide _); [|done].
  rewrite filter_flat_map. by apply flat_map_Forall_eq.
Qed.

(** X9. The Filter only checkbox removes rows and does nothing else:
    with it on, the rows are those rows of the unfiltered view that match
    the search, in the same order; expansion decides alone which subtrees
    are visited. *)
Theorem visibleNodes_filter_only (data : list TreeNodeDisplay)
    (expanded : gset string) (search : string) :
  TreeView.visibleNodes expanded search true data
  = List.filter (TreeView.matchesSearch search)
                (TreeView.visibleNodes expanded search false data).
Proof.
  rewrite !visibleNodes_flat_map, filter_flat_map.
  apply flat_map_Forall_eq, Forall_forall. intros node _.
  apply project_node_filter.
Qed.

Lemma project_node_search expanded search search' filteredOnly node :
  JS.toLowerCase search = JS.toLowerCase search' ->
  Spec.project_node expanded search filteredOnly node
  = Spec.project_node expanded search' filteredOnly node.
Proof.
  intros Hlower. induction node as [node IH] using TreeNodeDisplay_ind'.
  rewrite !project_node_unfold. f_equal.
  - unfold Spec.emitted, Spec.contains_ci. by rewrite Hlower.
  - destruct (bool_decide _); [|done]. by apply flat_map_Forall_eq.
Qed.

(** X10. The search ignores the case of the search term: two terms with
    the same lower-case form show the same rows. *)
Theorem visibleNodes_search_case (data : list TreeNodeDisplay)
    (expanded : gset string) (search search' : string) (filteredOnly : bool) :
  JS.toLowerCase search = JS.toLowerCase search' ->
  TreeView.visibleNodes expanded search filteredOnly data
  = TreeView.visibleNodes expanded search' filteredOnly data.
Proof.
  intros Hlower. rewrite !visibleNodes_flat_map.
  apply flat_map_Forall_eq, Forall_forall. intros node _.
  by apply project_node_search.
Qed.

Lemma visibleNodes_search_case_example :
  JS.toLowerCase "Foo" = JS.toLowerCase "fOO"
  /\ TreeView.visibleNodes {["node-0"]} "Foo" true Examples.three_calls
     = TreeView.visibleNodes {["node-0"]} "fOO" true Examples.three_calls.
Proof.
  assert (JS.toLowerCase "Foo" = JS.toLowerCase "fOO") as H by reflexivity.
  split; [exact H|].
  exact (visibleNodes_search_case Examples.three_calls {["node-0"]}
           "Foo" "fOO" true H).
Defined.

(** ** Expand All and Collapse All *)

Lemma fold_left_union {A} (f : gset string -> A -> gset string)
    (g : A -> gset string) (l : list A) :
  Forall (fun x => forall acc, f acc x = acc ∪ g x) l ->
  forall acc, fold_left f l acc = acc ∪ ⋃ (map g l).
Proof.
  induction 1 as [|x l Hx _ IH]; intros acc; simpl.
  - by rewrite union_empty_r_L.
  - by rewrite IH, Hx, (assoc_L (∪)).
Qed.

(** The ids [collect] adds for a node and its descendants. *)
Lemma collect_node_inner_ids node : forall allIds,
  TreeView.collect_node node allIds = allIds ∪ Expansion.inner_ids node.
Proof.
  induction node as [node IH] using TreeNodeDisplay_ind'. intros allIds.
  destruct node as [d i kids e l p]. simpl in IH.
  cbn [TreeView.collect_node Expansion.inner_ids children id].
  rewrite (fold_left_union _ Expansion.inner_ids kids) by done.
  destruct (0 <? length kids)%nat.
  - by rewrite (comm_L (∪) {[i]} allIds), !(assoc_L (∪)).
  - by rewrite union_empty_l_L.
Qed.

Lemma elem_of_inner_ids node x :
  x ∈ Expansion.inner_ids node <->
  exists n, n ∈ Spec.preorder_node node /\ children n <> [] /\ id n = x.
Proof.
  induction node as [node IH] using TreeNodeDisplay_ind'.
  rewrite Forall_forall in IH.
  destruct node as [d i kids e l p]. simpl in IH.
  cbn [Expansion.inner_ids children id].
  rewrite elem_of_union, elem_of_union_list. split.
  - intros [Hx|(X & HX & Hx)].
    + destruct kids as [|kid kids]; simpl in Hx; [set_solver|].
      apply elem_of_singleton in Hx as ->.
      eexists. split; [apply elem_of_preorder_node_self|]. done.
    + apply list_elem_of_In, in_map_iff in HX as (kid & <- & Hkid).
      apply list_elem_of_In in Hkid.
      apply (IH kid Hkid) in Hx as (n & Hn & Hkids & Hid).
      exists n. split; [|done]. by eapply elem_of_preorder_node_child.
  - intros (n & Hn & Hkids & <-). rewrite preorder_node_unfold in Hn.
    apply elem_of_cons in Hn as [->|Hn].
    + left. simpl in *. destruct kids; [done|]. simpl. set_solver.
    + right. simpl in Hn. apply list_elem_of_In, in_flat_map in Hn.
      destruct Hn as (kid & Hkid & Hn). apply list_elem_of_In in Hkid, Hn.
      exists (Expansion.inner_ids kid). split.
      * apply list_elem_of_In, in_map_iff. exists kid.
        split; [done|]. by apply list_elem_of_In.
      * apply (IH kid Hkid). by exists n.
Qed.

Lemma elem_of_expandAll data x :
  x ∈ TreeView.expandAll data <->
  exists n, n ∈ Spec.preorder data /\ children n <> [] /\ id n = x.
Proof.
  unfold TreeView.expandAll, TreeView.collect.
  assert (forall acc : gset string,
            x ∈ fold_left (fun allIds node => TreeView.collect_node node allIds)
                          data acc
            <-> x ∈ acc
                \/ exists n, n ∈ Spec.preorder data /\ children n <> [] /\ id n = x)
    as H.
  { induction data as [|r data IH]; intros acc; simpl.
    - split; [by left|]. intros [H|(n & Hn & _)]; [done|]. inversion Hn.
    - rewrite IH, collect_node_inner_ids, elem_of_union, elem_of_inner_ids.
      unfold Spec.preorder. simpl.
      split.
      + intros [[H|(n & Hn & H)]|(n & Hn & H)]; [by left| |];
          right; exists n; (split; [|done]); apply elem_of_app; auto.
      + intros [H|(n & Hn & H)]; [by left; left|].
        apply elem_of_app in Hn as [Hn|Hn]; [left; right|right]; by exists n. }
  rewrite H. split; [|by right]. intros [Hin|Hex]; [|done]. set_solver.
Qed.

Lemma project_node_expanded expanded search node :
  (forall n, n ∈ Spec.preorder_node node -> children n <> [] -> id n ∈ expanded) ->
  Spec.project_node expanded search false node = Spec.preorder_node node.
Proof.
  induction node as [node IH] using TreeNodeDisplay_ind'. intros Hall.
  rewrite project_node_unfold, preorder_node_unfold, emitted_unfiltered.
  simpl. f_equal.
  destruct (children node) as [|kid kids] eqn:Hkids.
  { by destruct (bool_decide _). }
  rewrite bool_decide_eq_true_2.
  - rewrite <- Hkids in *. apply flat_map_Forall_eq.
    rewrite Forall_forall in IH. apply Forall_forall. intros t Ht.
    apply IH; [done|]. intros n Hn. apply Hall.
    by eapply elem_of_preorder_node_child.
  - apply Hall; [apply elem_of_preorder_node_self|]. by rewrite Hkids.
Qed.

(** X11. Expand All installs exactly the ids of the nodes that have
    children, and then (filter off) every node of the forest is shown, in
    pre-order. *)
Theorem expandAll_shows_every_node (data : list TreeNodeDisplay)
    (search : string) :
  (forall x, x ∈ TreeView.expandAll data <->
     exists n, n ∈ Spec.preorder data /\ children n <> [] /\ id n = x)
  /\ TreeView.visibleNodes (TreeView.expandAll data) search false data
     = Spec.preorder data.
Proof.
  split; [apply elem_of_expandAll|].
  rewrite visibleNodes_flat_map. apply flat_map_Forall_eq, Forall_forall.
  intros r Hr. apply project_node_expanded. intros n Hn Hkids.
  apply elem_of_expandAll. exists n. split; [|done].
  by eapply elem_of_preorder_root.
Qed.

(** X12. Collapse All leaves the roots only: the rows are the roots
    (those that match, when the filter is on), in order, and no
    descendant is shown even if it matches the search. *)
Theorem collapseAll_shows_roots (data : list TreeNodeDisplay)
    (search : string) (filteredOnly : bool) :
  TreeView.visibleNodes TreeView.collapseAll search filteredOnly data
  = List.filter (fun node => negb filteredOnly
                             || TreeView.matchesSearch search node) data.
Proof.
  rewrite visibleNodes_flat_map. induction data as [|r data IH]; [done|].
  simpl. rewrite IH, project_node_unfold, matchesSearch_emitted.
  rewrite bool_decide_eq_false_2 by (unfold TreeView.collapseAll; set_solver).
  rewrite app_nil_r. by destruct (Spec.emitted _ _ _).
Qed.

(** ** Toggling *)

(** X13. Clicking a node's expansion control twice restores the expanded
    set; one click flips the membership of that node's id and of no
    other id. *)
Theorem toggleExpansion_twice (nodeId : string) (prev : gset string) :
  TreeView.toggleExpansion nodeId (TreeView.toggleExpansion nodeId prev) = prev
  /\ (nodeId ∈ TreeView.toggleExpansion nodeId prev <-> nodeId ∉ prev)
  /\ (forall other, other <> nodeId ->
        (other ∈ TreeView.toggleExpansion nodeId prev <-> other ∈ prev)).
Proof.
  unfold TreeView.toggleExpansion.
  destruct (decide (nodeId ∈ prev)) as [Hin|Hout].
  - rewrite decide_False by (rewrite elem_of_difference, elem_of_singleton; tauto).
    split; [|split].
    + apply leibniz_equiv. intros x.
      rewrite elem_of_union, elem_of_difference, elem_of_singleton.
      destruct (decide (x = nodeId)) as [->|]; tauto.
    + rewrite elem_of_difference, elem_of_singleton. tauto.
    + intros other Hne. rewrite elem_of_difference, elem_of_singleton. tauto.
  - rewrite decide_True by (rewrite elem_of_union, elem_of_singleton; tauto).
    split; [|split].
    + apply leibniz_equiv. intros x.
      rewrite elem_of_difference, elem_of_union, elem_of_singleton.
      destruct (decide (x = nodeId)) as [->|]; tauto.
    + rewrite elem_of_union, elem_of_singleton. tauto.
    + intros other Hne. rewrite elem_of_union, elem_of_singleton. tauto.
Qed.

(** ** The view right after loading *)

Lemma elem_of_rootNodeIds data x :
  x ∈ TreeView.rootNodeIds data <-> x ∈ map id data.
Proof.
  unfold TreeView.rootNodeIds.
  assert (forall acc : gset string,
            x ∈ fold_left (fun rootNodeIds (node : TreeNodeDisplay) =>
                             {[id node]} ∪ rootNodeIds) data acc
            <-> x ∈ acc \/ x ∈ map id data) as H.
  { induction data as [|r data IH]; intros acc; simpl.
    - split; [by left|]. intros [H|H]; [done|inversion H].
    - rewrite IH, elem_of_union, elem_of_singleton, elem_of_cons. tauto. }
  rewrite H. split; [|by right]. intros [Hin|Hin]; [|done].
  by apply elem_of_empty in Hin.
Qed.

Lemma root_in_preorder data (r : TreeNodeDisplay) :
  r ∈ data -> r ∈ Spec.preorder data.
Proof.
  intros Hr. eapply elem_of_preorder_root; [done|].
  apply elem_of_preorder_node_self.
Qed.

(** With distinct ids, no child of a root has the id of a root. *)
Lemma child_ids_not_roots data : forall r c,
  NoDup (map id (Spec.preorder data)) ->
  r ∈ data -> c ∈ children r -> id c ∉ map id data.
Proof.
  induction data as [|r0 data IH]; intros r c Hnd Hr Hc; [inversion Hr|].
  assert (Spec.preorder (r0 :: data)
          = r0 :: Spec.preorder (children r0) ++ Spec.preorder data) as Heq.
  { unfold Spec.preorder. simpl. by rewrite preorder_node_unfold. }
  rewrite Heq in Hnd. simpl in Hnd. rewrite map_app in Hnd.
  apply NoDup_cons in Hnd as [Hr0 Hnd].
  apply NoDup_app in Hnd as (_ & Hdisj & Hnd').
  assert (forall t : TreeNodeDisplay, t ∈ data -> id t ∈ map id (Spec.preorder data))
    as Hroots.
  { intros t Ht. apply list_elem_of_In, in_map, list_elem_of_In.
    by apply root_in_preorder. }
  assert (forall F (t : TreeNodeDisplay), t ∈ F -> id t ∈ map id F) as Hmap.
  { intros F t Ht. by apply list_elem_of_In, in_map, list_elem_of_In. }
  assert (forall x, x ∈ map id data -> x ∈ map id (Spec.preorder data)) as Hsub.
  { intros x Hx. apply list_elem_of_In, in_map_iff in Hx as (t & <- & Ht).
    apply Hroots. by apply list_elem_of_In. }
  simpl. intros Hin. apply elem_of_cons in Hin as [Hin|Hin].
  - (* the child would have the id of the first root *)
    apply Hr0. rewrite <- Hin. apply elem_of_app.
    apply elem_of_cons in Hr as [->|Hr].
    + left. apply Hmap. by apply root_in_preorder.
    + right. apply Hmap. eapply elem_of_preorder_root; [exact Hr|].
      eapply elem_of_preorder_node_child; [exact Hc|].
      apply elem_of_preorder_node_self.
  - apply elem_of_cons in Hr as [->|Hr].
    + apply (Hdisj (id c)); [|by apply Hsub].
      apply Hmap. by apply root_in_preorder.
    + by apply (IH r c Hnd' Hr Hc).
Qed.

Lemma initial_rows data :
  NoDup (map id (Spec.preorder data)) ->
  TreeView.visibleNodes (TreeView.rootNodeIds data) "" false data
  = flat_map (fun r => r :: children r) data.
Proof.
  intros Hnd. rewrite visibleNodes_flat_map.
  apply flat_map_ext_elem. intros r Hr.
  rewrite project_node_unfold, emitted_unfiltered.
  rewrite bool_decide_eq_true_2.
  2:{ apply elem_of_rootNodeIds. by apply list_elem_of_In, in_map, list_elem_of_In. }
  simpl. f_equal.
  assert (forall c, c ∈ children r ->
            Spec.project_node (TreeView.rootNodeIds data) "" false c = [c]) as Hkid.
  { intros c Hc. rewrite project_node_unfold, emitted_unfiltered.
    rewrite bool_decide_eq_false_2; [done|].
    rewrite elem_of_rootNodeIds. by apply (child_ids_not_roots data r c). }
  clear Hr. induction (children r) as [|c kids IH]; [done|].
  simpl. rewrite Hkid by constructor. simpl. f_equal.
  apply IH. intros c' Hc'. apply Hkid. by constructor.
Qed.

(** X14. Right after a trace is loaded (the roots' ids expanded, no
    search, no filter) the tree shows every root followed by its direct
    children, and nothing deeper. *)
Theorem initial_view_of_trace (events : list TreeNodeData) :
  exists forest,
    treeTransform.transformTreeData events = Some forest
    /\ TreeView.visibleNodes (TreeView.rootNodeIds forest) "" false forest
       = flat_map (fun r => r :: children r) forest.
Proof.
  destruct (transformTreeData_invariant events) as (st & F & _ & Hres & _ & Ht).
  exists F. split; [done|]. apply initial_rows.
  apply (created_ids_NoDup events). apply (Repr.ti_sig _ _ _ Ht).
Qed.

(** ** The details panel *)

Lemma find_first {A} (f : A -> bool) (l : list A) x :
  find f l = Some x ->
  exists before after,
    l = before ++ x :: after /\ Forall (fun y => f y = false) before.
Proof.
  induction l as [|y l IH]; intros Hfind; [done|]. simpl in Hfind.
  destruct (f y) eqn:Hy.
  - injection Hfind as <-. by exists [], l.
  - destruct (IH Hfind) as (before & after & -> & Hbefore).
    exists (y :: before), after. split; [done|]. by constructor.
Qed.

(** X15. The details panel shows a node only while a row with the
    selected id is visible: it is then the first such row; with nothing
    selected, or no visible row of that id (say, below a collapsed
    node), it shows nothing. *)
Theorem selectedNodeData_visible (selected : string)
    (visibleNodes : list TreeNodeDisplay) :
  TreeView.selectedNodeData None visibleNodes = None
  /\ (forall node,
        TreeView.selectedNodeData (Some selected) visibleNodes = Some node ->
        id node = selected
        /\ exists before after,
             visibleNodes = before ++ node :: after
             /\ Forall (fun n : TreeNodeDisplay => id n <> selected) before)
  /\ (TreeView.selectedNodeData (Some selected) visibleNodes = None <->
      selected = "" \/ forall node, node ∈ visibleNodes -> id node <> selected).
Proof.
  split; [done|]. destruct selected as [|c selected].
  { split; [done|]. split; [by left|done]. }
  cbn [TreeView.selectedNodeData]. split.
  - intros node Hfind. split.
    + apply find_some in Hfind as [_ Heq]. by apply String.eqb_eq.
    + apply find_first in Hfind as (before & after & -> & Hbefore).
      exists before, after. split; [done|].
      eapply Forall_impl; [exact Hbefore|]. intros n Hn. simpl in Hn.
      by apply String.eqb_neq.
  - split.
    + intros Hnone. right. intros node Hin Heq.
      apply list_elem_of_In in Hin.
      pose proof (find_none _ _ Hnone node Hin) as Hne. simpl in Hne.
      apply String.eqb_neq in Hne. done.
    + intros [Hempty|Hall]; [done|].
      destruct (find _ visibleNodes) as [node|] eqn:Hfind; [|done].
      apply find_some in Hfind as [Hin Heq]. apply String.eqb_eq in Heq.
      exfalso. apply (Hall node); [by apply list_elem_of_In|done].
Qed.

(** ** Depth colours *)

(** X16. Every depth has a colour: the index into the six-colour
    palette is always in range, and the colours repeat with period six. *)
Theorem getDepthColor_defined (depth : nat) :
  is_Some (TreeView.getDepthColor depth)
  /\ TreeView.getDepthColor (depth + 6) = TreeView.getDepthColor depth.
Proof.
  unfold TreeView.getDepthColor. split.
  - apply lookup_lt_is_Some. apply Nat.mod_upper_bound. done.
  - f_equal. change (length TreeView.DEPTH_COLORS) with 6.
    replace (depth + 6) with (depth + 1 * 6) by lia. apply Nat.Div0.mod_add.
Qed.

End TreeViewFacts.

(* ===================================================================== *)
(** * More on the performance aggregation *)
(* ===================================================================== *)

Section RankingFacts.
Import Types PerformanceAnalysis FloatOrder.

(** [n.duration && n.duration > 0] holds of the qualifying nodes. *)
Lemma positive_qualifies (node : TreeNodeDisplay) :
  positive (duration node) = Spec.qualifies node.
Proof.
  unfold positive, Spec.qualifies, JS.falsy.
  destruct (duration node) as [d|]; [|done].
  destruct (0 <? d)%float eqn:Hpos; [|by rewrite andb_false_r].
  by rewrite (ltb_zero_not_zero _ Hpos), (ltb_not_nan_r _ _ Hpos).
Qed.

Lemma filter_all {A} (P : A -> Prop) `{forall x, Decision (P x)} (l : list A) :
  (forall x, x ∈ l -> P x) -> filter P l = l.
Proof.
  induction l as [|x l IH]; intros Hall; [done|].
  rewrite filter_cons_True by (apply Hall; constructor).
  f_equal. apply IH. intros y Hy. apply Hall. by constructor.
Qed.

Lemma take_sort_submseteq {A} (compare : A -> A -> float) n l :
  take n (sort compare l) ⊆+ l.
Proof.
  etrans; [apply sublist_submseteq, sublist_take|].
  by rewrite sort_Permutation.
Qed.

Lemma submseteq_keeps_NoDup {A} (l1 l2 : list A) :
  l1 ⊆+ l2 -> NoDup l2 -> NoDup l1.
Proof.
  intros Hsub Hnd. apply submseteq_Permutation in Hsub as (k & Hk).
  rewrite Hk in Hnd. by apply NoDup_app in Hnd as (H & _).
Qed.

Lemma length_take_sort {A} (compare : A -> A -> float) n l :
  length (take n (sort compare l)) = n `min` length l.
Proof. by rewrite length_take, (Permutation_length (sort_Permutation compare l)). Qed.

Lemma take_sort_all {A} (compare : A -> A -> float) n l :
  length l <= n -> take n (sort compare l) ≡ₚ l.
Proof.
  intros Hle. rewrite take_ge; [apply sort_Permutation|].
  by rewrite (Permutation_length (sort_Permutation compare l)).
Qed.

(** The groups, their keys and their members. *)
Lemma groups_tracked data :
  let all := Spec.preorder data in
  let groups := values (methodStats_of (collectNodes data [])) in
  map Spec.stats_key groups = (fold_left analyze_node all []).*1
  /\ NoDup (map Spec.stats_key groups)
  /\ forall g, g ∈ groups ->
       exists s0, g = finish_stats s0
         /\ Aggregation.collected s0 (Spec.group (Spec.stats_key g) all).
Proof.
  intros all groups. subst groups. rewrite collectNodes_preorder. fold all.
  destruct (tracks_all all) as (Hnd & Hent & _).
  assert (map Spec.stats_key (values (methodStats_of all))
          = (fold_left analyze_node all []).*1) as Hkeys.
  { unfold values, methodStats_of. rewrite !map_map.
    apply map_ext_in. intros [k s0] Hin. apply list_elem_of_In in Hin. simpl.
    by destruct (Hent _ _ Hin) as [<- _]. }
  split; [done|]. split; [by rewrite Hkeys|].
  intros g Hin. unfold values, methodStats_of in Hin.
  apply list_elem_of_fmap in Hin as ([k s] & -> & Hin).
  apply list_elem_of_fmap in Hin as ([k0 s0] & [= -> ->] & Hin).
  exists s0. split; [done|]. simpl.
  destruct (Hent _ _ Hin) as [Hk Hcol].
  change (Spec.stats_key (finish_stats s0)) with (Spec.stats_key s0).
  by rewrite Hk.
Qed.

(** X17. The three rankings.  Each holds at most ten Method Stats,
    taken from the groups without repetition (no two entries share a
    key); the [call_count >= 1] test of the average ranking never removes
    a group; and with at most ten groups all three rankings hold every
    group. *)
Theorem rankings_bounded (data : list TreeNodeDisplay) :
  let groups := values (methodStats_of (collectNodes data [])) in
  let rankings := [byTotalTime (analysis data); byAverageTime (analysis data);
                   byCallCount (analysis data)] in
  filter (fun s => 1 <= MethodStats.call_count s) groups = groups
  /\ Forall (fun ranking =>
              length ranking = 10 `min` length groups
              /\ ranking ⊆+ groups
              /\ NoDup (map Spec.stats_key ranking)
              /\ (length groups <= 10 -> ranking ≡ₚ groups)) rankings.
Proof.
  intros groups rankings.
  destruct (groups_tracked data) as (_ & Hnd & Hgroups). fold groups in Hnd, Hgroups.
  assert (filter (fun s => 1 <= MethodStats.call_count s) groups = groups) as Hfilter.
  { apply filter_all. intros g Hg.
    destruct (Hgroups g Hg) as (s0 & -> & [Hne _ Hcount _ _ _]). simpl.
    rewrite Hcount. destruct (Spec.group _ _); [done|simpl; lia]. }
  split; [done|].
  assert (forall compare : MethodStats.t -> MethodStats.t -> float,
            let ranking := take 10 (sort compare groups) in
            length ranking = 10 `min` length groups
            /\ ranking ⊆+ groups
            /\ NoDup (map Spec.stats_key ranking)
            /\ (length groups <= 10 -> ranking ≡ₚ groups)) as Hranking.
  { intros compare ranking.
    split; [apply length_take_sort|].
    split; [apply take_sort_submseteq|].
    split; [|apply take_sort_all].
    eapply submseteq_keeps_NoDup; [|exact Hnd].
    apply fmap_submseteq, take_sort_submseteq. }
  subst rankings. unfold analysis. cbn [byTotalTime byAverageTime byCallCount].
  fold groups. rewrite Hfilter.
  repeat constructor; apply Hranking.
Qed.

(** X18. The slowest calls: at most fifteen nodes of the forest, each
    with a present, positive duration and none shown more often than it
    occurs; with at most fifteen such nodes in the forest, all of them. *)
Theorem slowCalls_bounded (data : list TreeNodeDisplay) :
  let qualifying := List.filter Spec.qualifies (Spec.preorder data) in
  length (slowCalls (analysis data)) = 15 `min` length qualifying
  /\ slowCalls (analysis data) ⊆+ qualifying
  /\ Forall (fun node => Spec.qualifies node = true) (slowCalls (analysis data))
  /\ (length qualifying <= 15 -> slowCalls (analysis data) ≡ₚ qualifying).
Proof.
  intros qualifying. unfold analysis. cbn [slowCalls].
  rewrite collectNodes_preorder.
  assert (filter (fun n : TreeNodeDisplay => positive (duration n))
                 (Spec.preorder data) = qualifying) as ->.
  { subst qualifying. induction (Spec.preorder data) as [|n ns IH]; [done|].
    rewrite filter_cons, IH. cbn [List.filter].
    destruct (decide _) as [H|H]; rewrite positive_qualifies in H;
      destruct (Spec.qualifies n); done. }
  split; [apply length_take_sort|]. split; [apply take_sort_submseteq|].
  split; [|apply take_sort_all].
  apply Forall_forall. intros node Hin.
  apply elem_of_take_sort in Hin. subst qualifying.
  apply list_elem_of_In, List.filter_In in Hin as [_ H]. done.
Qed.

(** X19. Clicking a method card selects the first call of the method:
    the [node_ids] of a Method Stat are the ids of its group's nodes in
    pre-order, as many as [call_count], never none; the click hands the
    first of them to [onNodeSelect] (unless that id is the empty
    string). *)
Theorem methodCard_selects_first_call (data : list TreeNodeDisplay)
    (stats : MethodStats.t) :
  stats ∈ byTotalTime (analysis data)
  \/ stats ∈ byAverageTime (analysis data)
  \/ stats ∈ byCallCount (analysis data) ->
  exists first rest,
    Spec.group (Spec.stats_key stats) (Spec.preorder data) = first :: rest
    /\ MethodStats.node_ids stats = map id (first :: rest)
    /\ length (MethodStats.node_ids stats) = MethodStats.call_count stats
    /\ methodCard_onClick stats
       = match id first with
         | EmptyString => None
         | nodeId => Some nodeId
         end.
Proof.
  intros H. apply analysis_stats in H as (k & s0 & Hin & ->).
  destruct (tracks_all (Spec.preorder data)) as (_ & Hent & _).
  destruct (Hent _ _ Hin) as [Hkey [Hne _ Hcount _ _ Hids]].
  change (Spec.stats_key (finish_stats s0)) with (Spec.stats_key s0).
  rewrite Hkey.
  destruct (Spec.group k (Spec.preorder data)) as [|first rest]; [done|].
  exists first, rest. split; [done|]. split; [done|]. split.
  - simpl. by rewrite Hids, Hcount, length_map.
  - unfold methodCard_onClick. simpl. rewrite Hids. simpl.
    by destruct (id first).
Qed.

Lemma methodCard_selects_first_call_example :
  Examples.three_calls_stats ∈ byTotalTime (analysis Examples.three_calls)
  /\ exists first rest,
       Spec.group "A#f" (Spec.preorder Examples.three_calls) = first :: rest
       /\ ["node-0"; "node-1"; "node-2"] = map id (first :: rest)
       /\ 3 = 3
       /\ methodCard_onClick Examples.three_calls_stats
          = match id first with
            | EmptyString => None
            | nodeId => Some nodeId
            end.
Proof.
  assert (Examples.three_calls_stats ∈ byTotalTime (analysis Examples.three_calls))
    as Hin by (rewrite three_calls_analysis; constructor).
  split; [exact Hin|].
  exact (methodCard_selects_first_call Examples.three_calls
           Examples.three_calls_stats (or_introl Hin)).
Defined.

Lemma analyze_unqualified ns : forall ms,
  fold_left analyze_node ns ms
  = fold_left analyze_node (List.filter Spec.qualifies ns) ms.
Proof.
  induction ns as [|n ns IH]; intros ms; [done|]. simpl.
  destruct (Spec.qualifies n) eqn:E; simpl; [apply IH|].
  rewrite <- IH. f_equal. unfold analyze_node.
  by rewrite skipped_qualifies, E.
Qed.

(** X20. Calls whose duration is null, zero, negative or NaN never
    reach the method statistics: the groups are those of the qualifying
    nodes alone. *)
Theorem unqualified_calls_ignored (data : list TreeNodeDisplay) :
  methodStats_of (collectNodes data [])
  = methodStats_of (List.filter Spec.qualifies (Spec.preorder data))
  /\ (forall node : TreeNodeDisplay,
        Spec.qualifies node = false <->
        match duration node with
        | None => True
        | Some d => PrimFloat.is_nan d = true \/ (d <=? 0)%float = true
        end).
Proof.
  split.
  - rewrite collectNodes_preorder. unfold methodStats_of.
    by rewrite analyze_unqualified.
  - intros node. unfold Spec.qualifies. destruct (duration node) as [d|]; [|done].
    destruct (PrimFloat.is_nan d) eqn:Hnan.
    + split; [by left|]. intros _.
      destruct (0 <? d)%float eqn:Hpos; [|done].
      by rewrite (ltb_not_nan_r _ _ Hpos) in Hnan.
    + split.
      * intros Hpos. right. by apply not_ltb_leb.
      * intros [H|H]; [done|]. destruct (0 <? d)%float eqn:Hpos; [|done].
        by rewrite (ltb_not_leb _ _ Hpos) in H.
Qed.

(** X21. Both flattenings agree on a reconstructed forest, and the
    Performance tab counts one call per call or call_return event:
    [collectNodes] yields what [flattenTree] yields, and [totalCalls] is
    the number of events that are not return events. *)
Theorem totalCalls_of_trace (events : list TreeNodeData) :
  exists forest,
    treeTransform.transformTreeData events = Some forest
    /\ collectNodes forest [] = treeTransform.flattenTree forest
    /\ totalCalls (analysis forest)
       = length (filter (fun e => event e <> ev_return) events).
Proof.
  destruct (transformTreeData_invariant events) as (st & F & _ & Hres & _ & Ht).
  exists F. split; [done|].
  pose proof (Repr.ti_sig _ _ _ Ht) as Hsig.
  destruct (flattenTree_creation_order events F Hsig) as [Hflat _].
  split; [by rewrite collectNodes_preorder, Hflat|].
  unfold analysis. cbn [totalCalls]. rewrite collectNodes_preorder.
  rewrite <- (created_from_events 0 events), length_map.
  apply (f_equal length) in Hsig. by rewrite !length_map in Hsig.
Qed.

End RankingFacts.

(* ===================================================================== *)
(** * More on the formatters *)
(* ===================================================================== *)

Section FormatterMore.
Import Types treeTransform.

Variable toFixed : float -> nat -> string.
Variable String_of_number : float -> string.

Lemma append_nonempty (s1 s2 : string) : s2 <> "" -> s1 +:+ s2 <> "".
Proof.
  intros Hne Heq. apply (f_equal String.length) in Heq.
  rewrite length_append in Heq. destruct s2; [done|]. simpl in Heq. lia.
Qed.

(** X22. Every present duration is rendered, whatever the number (zero,
    negative and NaN included): [formatDuration] returns a non-empty
    string for it, so a row carries a duration badge exactly when its
    duration is not null. *)
Theorem formatDuration_present :
  (forall d, formatDuration toFixed (Some d) <> "")
  /\ (forall node : TreeNodeDisplay,
        TreeView.durationBadge toFixed node = None <-> duration node = None)
  /\ (forall (node : TreeNodeDisplay) d,
        duration node = Some d ->
        TreeView.durationBadge toFixed node
        = Some ("[" +:+ formatDuration toFixed (Some d) +:+ "]")).
Proof.
  assert (forall d, formatDuration toFixed (Some d) <> "") as Hne.
  { intros d. unfold formatDuration.
    destruct (d <? 0.001)%float; [by apply append_nonempty|].
    destruct (d <? 1.0)%float; by apply append_nonempty. }
  split; [exact Hne|]. split.
  - intros node. unfold TreeView.durationBadge.
    destruct (duration node) as [d|] eqn:E; [|done].
    specialize (Hne d). destruct (formatDuration toFixed (Some d)); [done|].
    split; intros H; discriminate.
  - intros node d E. unfold TreeView.durationBadge. rewrite E.
    specialize (Hne d). by destruct (formatDuration toFixed (Some d)).
Qed.

Lemma substring_cons k c s :
  String.substring 0 (S k) (String c s) = String c (String.substring 0 k s).
Proof. reflexivity. Qed.

(** X23. Strings stay quoted in the compact rendering: for a limit of
    at least four, [formatValue] of a string starts and ends with a
    double quote, cut or not. *)
Theorem formatValue_string_quoted (s : string) (maxLength : Z) :
  (4 <= maxLength)%Z ->
  exists body,
    formatValue String_of_number (VString s) maxLength
    = String JS.DQUOTE (body +:+ String JS.DQUOTE "").
Proof.
  intros Hmax. cbn [formatValue]. unfold JS.JSON_stringify_string.
  set (rest := JS.quote_units s +:+ String JS.DQUOTE "").
  destruct (Z.ltb_spec maxLength (Z.of_nat (String.length (String JS.DQUOTE rest))))
    as [Hlong|Hfit].
  - unfold JS.slice, JS.relative_index.
    destruct (Z.ltb_spec 0 0); [lia|]. destruct (Z.ltb_spec (maxLength - 3) 0); [lia|].
    set (len := Z.of_nat (String.length (String JS.DQUOTE rest))) in *.
    replace (Z.to_nat (Z.min 0 len)) with 0 by lia.
    destruct (Z.to_nat (Z.max (Z.min (maxLength - 3) len - Z.min 0 len) 0))
      as [|k] eqn:Hk; [lia|].
    rewrite substring_cons, append_cons.
    exists (String.substring 0 k rest +:+ "..."). f_equal.
    clear. induction (String.substring 0 k rest) as [|c body IH]; [done|].
    rewrite !append_cons. by f_equal.
  - by exists (JS.quote_units s).
Qed.

(** X27. The row and the details panel print the same text for null,
    booleans, numbers and symbols, and for a string that needs no
    escaping and fits the limit with its quotes; the full rendering
    never escapes and never cuts. *)
Theorem formatValue_agrees_with_full :
  (forall maxLength,
     formatValue String_of_number VNull maxLength
     = formatValueFull String_of_number VNull)
  /\ (forall b maxLength,
        formatValue String_of_number (VBoolean b) maxLength
        = formatValueFull String_of_number (VBoolean b))
  /\ (forall x maxLength,
        formatValue String_of_number (VNumber x) maxLength
        = formatValueFull String_of_number (VNumber x))
  /\ (forall d maxLength,
        formatValue String_of_number (VSymbol d) maxLength
        = formatValueFull String_of_number (VSymbol d))
  /\ (forall s maxLength,
        JS.quote_units s = s ->
        (Z.of_nat (String.length s) + 2 <= maxLength)%Z ->
        formatValue String_of_number (VString s) maxLength
        = formatValueFull String_of_number (VString s))
  /\ (forall s, String.length (formatValueFull String_of_number (VString s))
                = String.length s + 2).
Proof.
  repeat split.
  - intros s maxLength Hplain Hfit. cbn [formatValue formatValueFull].
    unfold JS.JSON_stringify_string. rewrite Hplain.
    destruct (Z.ltb_spec maxLength
                (Z.of_nat (String.length
                             (String JS.DQUOTE (s +:+ String JS.DQUOTE "")))))
      as [Hlong|_]; [|done].
    change (String.length (String JS.DQUOTE (s +:+ String JS.DQUOTE "")))
      with (S (String.length (s +:+ String JS.DQUOTE ""))) in Hlong.
    rewrite length_append in Hlong. simpl in Hlong. lia.
  - intros s. cbn [formatValueFull].
    change (String.length (String JS.DQUOTE (s +:+ String JS.DQUOTE "")))
      with (S (String.length (s +:+ String JS.DQUOTE ""))).
    rewrite length_append. simpl. lia.
Qed.

(** ** Parameter lists *)

Lemma formatParameter_alike (format : any -> string) (p p' : Param) :
  Params.alike p p' -> formatParameter format p = formatParameter format p'.
Proof.
  intros (Htype & Hname & Hvalue). unfold formatParameter.
  rewrite <- Htype, <- Hname. unfold Params.shows_value in Hvalue.
  destruct (String.eqb (type p) "req"); simpl in *; [by rewrite Hvalue|].
  destruct (String.eqb (type p) "opt"); simpl in *; [by rewrite Hvalue|].
  destruct (String.eqb (type p) "keyreq"); simpl in *; [by rewrite Hvalue|].
  destruct (String.eqb (type p) "key"); simpl in *; [by rewrite Hvalue|].
  done.
Qed.

Lemma map_formatParameter_alike (format : any -> string) ps ps' :
  Forall2 Params.alike ps ps' ->
  map (formatParameter format) ps = map (formatParameter format) ps'.
Proof.
  induction 1 as [|p p' ps ps' Hp _ IH]; [done|]. simpl.
  by rewrite (formatParameter_alike format p p' Hp), IH.
Qed.

(** X24. The value of a rest, keyrest or block parameter (or of one of
    an unknown kind) is never printed: two parameter lists that agree
    on kinds and names, and on values wherever the kind is req, opt,
    keyreq or key, render identically, compact and full. *)
Theorem formatParameters_alike (ps ps' : list Param) :
  Forall2 Params.alike ps ps' ->
  formatParameters String_of_number (Some ps)
  = formatParameters String_of_number (Some ps')
  /\ formatParametersFull String_of_number (Some ps)
     = formatParametersFull String_of_number (Some ps').
Proof.
  intros Halike. pose proof (Forall2_length _ _ _ Halike) as Hlen. split.
  - unfold formatParameters. rewrite <- Hlen.
    rewrite (map_formatParameter_alike _ ps ps' Halike).
    rewrite (map_formatParameter_alike _ (take 2 ps) (take 2 ps')); [done|].
    by apply Forall2_take.
  - unfold formatParametersFull.
    by rewrite (map_formatParameter_alike _ ps ps' Halike).
Qed.

(** X25. Beyond three parameters the compact rendering shows the first
    two and a count: it depends on nothing but the first two parameters
    and the number of parameters, and ends with that count less two. *)
Theorem formatParameters_collapse (ps ps' : list Param) :
  3 < length ps ->
  length ps' = length ps -> take 2 ps' = take 2 ps ->
  formatParameters String_of_number (Some ps')
  = formatParameters String_of_number (Some ps)
  /\ exists first,
       formatParameters String_of_number (Some ps)
       = first +:+ ", ... +" +:+ JS.String_of_nat (length ps - 2) +:+ " more".
Proof.
  intros Hlong Hlen Htake. unfold formatParameters. rewrite Hlen, Htake.
  destruct (Nat.eqb_spec (length ps) 0); [lia|].
  destruct (Nat.ltb_spec 3 (length ps)); [|lia].
  split; [done|]. by eexists.
Qed.

End FormatterMore.

(** ** Examples *)

Section FormatterExamples.
Import Types treeTransform.

Lemma formatValue_string_quoted_example :
  (4 <= 5)%Z
  /\ exists body,
       formatValue (fun _ : float => "0") (VString "abcdefghij") 5
       = String JS.DQUOTE (body +:+ String JS.DQUOTE "").
Proof.
  assert (4 <= 5)%Z as H by lia.
  split; [exact H|].
  exact (formatValue_string_quoted (fun _ : float => "0") "abcdefghij" 5 H).
Defined.

Lemma formatParameters_alike_example :
  Forall2 Params.alike
    [{| type := "rest"; name := "args"; value := VNull |}]
    [{| type := "rest"; name := "args"; value := VBoolean true |}]
  /\ formatParameters (fun _ : float => "0")
       (Some [{| type := "rest"; name := "args"; value := VNull |}])
     = formatParameters (fun _ : float => "0")
         (Some [{| type := "rest"; name := "args"; value := VBoolean true |}])
  /\ formatParametersFull (fun _ : float => "0")
       (Some [{| type := "rest"; name := "args"; value := VNull |}])
     = formatParametersFull (fun _ : float => "0")
         (Some [{| type := "rest"; name := "args"; value := VBoolean true |}]).
Proof.
  assert (Forall2 Params.alike
            [{| type := "rest"; name := "args"; value := VNull |}]
            [{| type := "rest"; name := "args"; value := VBoolean true |}]) as H.
  { constructor; [|constructor]. split; [done|]. split; [done|].
    intros Hshow. discriminate Hshow. }
  split; [exact H|].
  exact (formatParameters_alike (fun _ : float => "0") _ _ H).
Defined.

Lemma formatParameters_collapse_example :
  3 < 4 /\ 4 = 4
  /\ formatParameters (fun _ : float => "0")
       (Some [{| type := "req"; name := "a"; value := VNull |};
              {| type := "req"; name := "b"; value := VNull |};
              {| type := "req"; name := "y"; value := VBoolean true |};
              {| type := "block"; name := "z"; value := VNull |}])
     = formatParameters (fun _ : float => "0")
         (Some [{| type := "req"; name := "a"; value := VNull |};
                {| type := "req"; name := "b"; value := VNull |};
                {| type := "req"; name := "c"; value := VNull |};
                {| type := "req"; name := "d"; value := VNull |}])
  /\ exists first,
       formatParameters (fun _ : float => "0")
         (Some [{| type := "req"; name := "a"; value := VNull |};
                {| type := "req"; name := "b"; value := VNull |};
                {| type := "req"; name := "c"; value := VNull |};
                {| type := "req"; name := "d"; value := VNull |}])
       = first +:+ ", ... +" +:+ JS.String_of_nat 2 +:+ " more".
Proof.
  assert (3 < 4) as H by lia.
  split; [exact H|]. split; [reflexivity|].
  exact (formatParameters_collapse (fun _ : float => "0")
           [{| type := "req"; name := "a"; value := VNull |};
            {| type := "req"; name := "b"; value := VNull |};
            {| type := "req"; name := "c"; value := VNull |};
            {| type := "req"; name := "d"; value := VNull |}]
           [{| type := "req"; name := "a"; value := VNull |};
            {| type := "req"; name := "b"; value := VNull |};
            {| type := "req"; name := "y"; value := VBoolean true |};
            {| type := "block"; name := "z"; value := VNull |}]
           H eq_refl eq_refl).
Defined.

End FormatterExamples.

(* ===================================================================== *)
(** * A call and its return *)
(* ===================================================================== *)

Section PairingFacts.
Import Types treeTransform Repr Pairing.

(** A property of the state kept by every event of a kind is kept by
    the loop over events of that kind. *)
Lemma forEach_preserves (P : list TreeNodeData -> State -> Prop)
    (ok : TreeNodeData -> Prop) :
  (forall evs st e st',
     StoreInv evs st -> P evs st -> ok e ->
     process st (length evs) e = Some st' -> P (evs ++ [e]) st') ->
  forall rest evs st F,
    StoreInv evs st -> TreeInv evs st F -> P evs st -> Forall ok rest ->
    exists st' F',
      forEach rest (length evs) st = Some st'
      /\ StoreInv (evs ++ rest) st' /\ TreeInv (evs ++ rest) st' F'
      /\ P (evs ++ rest) st'.
Proof.
  intros Hstep. induction rest as [|e rest IH]; intros evs st F Hs Ht HP Hok.
  - exists st, F. rewrite app_nil_r. by simpl.
  - inversion Hok as [|? ? He Hrest]; subst.
    destruct (process_invariant evs st F e Hs Ht) as (st1 & F1 & Hp & Hs1 & Ht1).
    pose proof (Hstep _ _ _ _ Hs HP He Hp) as HP1.
    destruct (IH (evs ++ [e]) st1 F1 Hs1 Ht1 HP1 Hrest)
      as (st' & F' & Hrun & Hs' & Ht' & HP').
    exists st', F'. rewrite <- app_assoc in Hs', Ht', HP'. simpl in *.
    split; [|done]. rewrite Hp. simpl.
    rewrite length_app, Nat.add_1_r in Hrun. done.
Qed.

(** The [while] loop deletes no key but those of the nodes it pops. *)
Lemma pop_stack_keeps store lvl k : forall stk cs stack1 cs1,
  pop_stack store lvl stk cs = Some (stack1, cs1) ->
  (forall a n, a ∈ stk -> store !! a = Some n -> lvl <= s_level n ->
               key_of n <> k) ->
  cs1 !! k = cs !! k.
Proof.
  induction stk as [|top rest IH]; intros cs stack1 cs1 Hpop Hkeys; simpl in Hpop.
  - by injection Hpop as <- <-.
  - destruct (store !! top) as [popped|] eqn:Htop; simpl in Hpop; [|done].
    destruct (Nat.leb_spec lvl (s_level popped)) as [Hle|Hgt].
    + rewrite (IH _ _ _ Hpop).
      * apply lookup_delete_ne.
        apply (Hkeys top popped); [constructor|done|done].
      * intros a n Ha. apply Hkeys. by constructor.
    + by injection Hpop as <- <-.
Qed.

(** The key of a stored node is built from its level. *)
Lemma key_of_level evs st a n :
  StoreInv evs st -> store st !! a = Some n ->
  key_of n = callKey (s_level n) (method_name (s_data n)).
Proof.
  intros Hs Hn.
  destruct (si_nodes _ _ Hs _ _ Hn) as (e & _ & _ & _ & Hl & _ & _ & _ & Hd & _).
  unfold key_of. congruence.
Qed.

(** Deeper events leave an open call open. *)
Lemma open_call_step i c evs st e st' :
  StoreInv evs st -> open_call i c st -> depth c < depth e ->
  process st (length evs) e = Some st' ->
  open_call i c st'.
Proof.
  intros Hs (Hkey & Hstack & n & Hn & Hdata) Hdeep Hstep.
  assert (callKey (depth e) (method_name e)
          <> callKey (depth c) (method_name c)) as Hne.
  { intros Heq. apply callKey_inj in Heq as [Heq _]. lia. }
  assert (s_level n = depth c) as Hlevel.
  { destruct (si_nodes _ _ Hs _ _ Hn) as (e0 & _ & _ & _ & Hl & _ & _ & _ & Hd & _).
    rewrite Hdata in Hd. congruence. }
  destruct (decide (event e = ev_return)) as [Hev|Hev].
  - rewrite (process_return _ _ _ Hev) in Hstep.
    destruct (callStack st !! callKey (depth e) (method_name e)) as [a|] eqn:Ha.
    + destruct (si_callStack _ _ Hs _ _ Ha) as (_ & cn & Hcn & _ & Hk).
      rewrite Hcn in Hstep. simpl in Hstep. injection Hstep as <-.
      assert (a <> i) as Hai.
      { intros ->. replace cn with n in * by congruence.
        apply Hne. rewrite Hk. unfold key_of. by rewrite Hdata. }
      split; [|split]; simpl.
      * by rewrite lookup_delete_ne.
      * done.
      * exists n. by rewrite lookup_insert_ne.
    + injection Hstep as <-. split; [done|]. split; [done|]. by exists n.
  - destruct (pop_stack_spec (store st) (depth e) (stack st) (callStack st)
                (si_stack _ _ Hs))
      as (popped & stack1 & cs1 & Hpop & Hstk & Hpopped & Hstack1 & _).
    rewrite (process_attach _ _ _ _ _ Hev Hpop) in Hstep.
    pose proof (StoreInv_fresh _ _ Hs) as Hfresh.
    assert (i <> length evs) as Hi.
    { intros ->. by rewrite Hfresh in Hn. }
    assert (i ∈ stack1) as Hin1.
    { rewrite Hstk in Hstack. apply elem_of_app in Hstack as [Hin|Hin]; [|done].
      destruct (Hpopped i Hin) as (n' & Hn' & Hle & _).
      replace n' with n in * by congruence. lia. }
    assert (cs1 !! callKey (depth c) (method_name c) = Some i) as Hkey1.
    { rewrite <- Hkey. apply (pop_stack_keeps _ _ _ _ _ _ _ Hpop).
      intros a m Ha Hm Hle Heq.
      rewrite (key_of_level _ _ _ _ Hs Hm) in Heq.
      apply callKey_inj in Heq as [Heq _]. lia. }
    assert (callStack (attached st (length evs) e stack1 cs1 (store st) (nodes st))
              !! callKey (depth c) (method_name c) = Some i) as Hkey'.
    { simpl. destruct (event e); try done. by rewrite lookup_insert_ne. }
    destruct stack1 as [|p rest]; [by apply elem_of_nil in Hin1|].
    destruct (Hstack1 p ltac:(constructor)) as (pn & Hp & _).
    rewrite Hp in Hstep. simpl in Hstep. injection Hstep as <-.
    split; [exact Hkey'|]. split; [by constructor|]. simpl.
    rewrite lookup_insert_ne by done.
    destruct (decide (i = p)) as [->|Hip].
    + rewrite lookup_insert_eq. replace pn with n in * by congruence.
      by exists (push_child (length evs) n).
    + rewrite lookup_insert_ne by done. by exists n.
Qed.

(** No event touches the data of a settled node. *)
Lemma settled_step i data evs st e st' :
  StoreInv evs st -> settled i data st ->
  process st (length evs) e = Some st' ->
  settled i data st'.
Proof.
  intros Hs (Hfree & n & Hn & Hdata) Hstep.
  pose proof (StoreInv_fresh _ _ Hs) as Hfresh.
  assert (i <> length evs) as Hi.
  { intros ->. by rewrite Hfresh in Hn. }
  destruct (decide (event e = ev_return)) as [Hev|Hev].
  - rewrite (process_return _ _ _ Hev) in Hstep.
    destruct (callStack st !! callKey (depth e) (method_name e)) as [a|] eqn:Ha.
    + destruct (si_callStack _ _ Hs _ _ Ha) as (_ & cn & Hcn & _).
      rewrite Hcn in Hstep. simpl in Hstep. injection Hstep as <-.
      assert (a <> i) as Hai by (intros ->; by apply (Hfree _ Ha)).
      split; simpl.
      * intros k Hk. apply lookup_delete_Some in Hk as [_ Hk]. by apply (Hfree k).
      * exists n. by rewrite lookup_insert_ne.
    + injection Hstep as <-. split; [done|]. by exists n.
  - destruct (pop_stack_spec (store st) (depth e) (stack st) (callStack st)
                (si_stack _ _ Hs))
      as (popped & stack1 & cs1 & Hpop & Hstk & _ & Hstack1 & Hsub).
    rewrite (process_attach _ _ _ _ _ Hev Hpop) in Hstep.
    assert (forall store1 nodes1 k,
              callStack (attached st (length evs) e stack1 cs1 store1 nodes1) !! k
              <> Some i) as Hfree'.
    { intros store1 nodes1 k. simpl.
      assert (cs1 !! k <> Some i) as Hcs1.
      { intros Hk. by apply (Hfree k), Hsub. }
      destruct (event e); try done.
      destruct (decide (callKey (depth e) (method_name e) = k)) as [<-|Hne].
      - rewrite lookup_insert_eq. congruence.
      - by rewrite lookup_insert_ne. }
    destruct stack1 as [|p rest].
    + injection Hstep as <-. split; [apply Hfree'|]. simpl.
      exists n. by rewrite lookup_insert_ne.
    + destruct (Hstack1 p ltac:(constructor)) as (pn & Hp & _).
      rewrite Hp in Hstep. simpl in Hstep. injection Hstep as <-.
      split; [apply Hfree'|]. simpl. rewrite lookup_insert_ne by done.
      destruct (decide (i = p)) as [->|Hip].
      * rewrite lookup_insert_eq. replace pn with n in * by congruence.
        by exists (push_child (length evs) n).
      * rewrite lookup_insert_ne by done. by exists n.
Qed.

(** X28. A call receives its own return: when a call event is followed
    by events that are all deeper and then by a return event of its depth
    and method name, the call's node ends up with that return's
    return_value, end_time and duration and the call's other fields,
    whatever comes before the call and after the return. *)
Theorem call_receives_its_return (pre inner post : list TreeNodeData)
    (c r : TreeNodeData) :
  event c = ev_call -> event r = ev_return ->
  depth r = depth c -> method_name r = method_name c ->
  Forall (fun e => depth c < depth e) inner ->
  exists forest node,
    transformTreeData (pre ++ c :: inner ++ r :: post) = Some forest
    /\ filter (fun n => id n = node_id (length pre)) (Spec.preorder forest)
       = [node]
    /\ node_data node = merge_data r c
    /\ return_value node = return_value r
    /\ end_time node = end_time r
    /\ duration node = duration r.
Proof.
  intros Hc Hr Hd Hm Hdeep. set (i := length pre).
  (* up to the call *)
  destruct (forEach_invariant pre) as (st0 & F0 & Hrun0 & Hs0 & Ht0).
  destruct (process_call pre st0 c Hs0 Hc)
    as (st1 & stack1 & par & Hstep1 & Hkey1 & Hnode1 & Hstack1 & _).
  destruct (process_invariant pre st0 F0 c Hs0 Ht0)
    as (st1' & F1 & Hstep1' & Hs1 & Ht1).
  assert (st1' = st1) as -> by congruence.
  assert (open_call i c st1) as Hopen1.
  { split; [exact Hkey1|]. split; [rewrite Hstack1; constructor|].
    by exists (new_node (length pre) c par). }
  (* the deeper events *)
  destruct (forEach_preserves (fun _ st => open_call i c st)
              (fun e => depth c < depth e)
              (fun evs st e st' Hs HP He Hp =>
                 open_call_step i c evs st e st' Hs HP He Hp)
              inner (pre ++ [c]) st1 F1 Hs1 Ht1 Hopen1 Hdeep)
    as (st2 & F2 & Hrun2 & Hs2 & Ht2 & (Hkey2 & _ & n2 & Hn2 & Hdata2)).
  (* the return *)
  destruct (process_invariant _ st2 F2 r Hs2 Ht2)
    as (st3 & F3 & Hstep3 & Hs3 & Ht3).
  assert (settled i (merge_data r c) st3) as Hsettled3.
  { rewrite (process_return _ _ _ Hr), Hd, Hm in Hstep3.
    rewrite Hkey2, Hn2 in Hstep3. simpl in Hstep3. injection Hstep3 as <-.
    split; simpl.
    - intros k Hk. apply lookup_delete_Some in Hk as [Hne Hk].
      destruct (si_callStack _ _ Hs2 _ _ Hk) as (_ & n' & Hn' & _ & Hkn).
      replace n' with n2 in * by congruence.
      apply Hne. rewrite Hkn. unfold key_of. by rewrite Hdata2.
    - exists (merge_return r n2). rewrite lookup_insert_eq.
      split; [done|]. simpl. by rewrite Hdata2. }
  (* the rest *)
  destruct (forEach_preserves (fun _ st => settled i (merge_data r c) st)
              (fun _ => True)
              (fun evs st e st' Hs HP _ Hp =>
                 settled_step i (merge_data r c) evs st e st' Hs HP Hp)
              post _ st3 F3 Hs3 Ht3 Hsettled3)
    as (st4 & F4 & Hrun4 & Hs4 & Ht4 & (_ & n4 & Hn4 & Hdata4)).
  { by apply Forall_forall. }
  (* the whole run *)
  assert (pre ++ c :: inner ++ r :: post
          = (((pre ++ [c]) ++ inner) ++ [r]) ++ post) as Hsplit.
  { by rewrite <- !app_assoc. }
  rewrite Hsplit.
  set (events := (((pre ++ [c]) ++ inner) ++ [r]) ++ post) in *.
  assert (forEach events 0 initial = Some st4) as Hrun.
  { unfold events. rewrite !forEach_app, Hrun0. simpl.
    rewrite Hstep1. simpl.
    replace (length pre + 1) with (length (pre ++ [c]))
      by (rewrite length_app; simpl; lia).
    rewrite Hrun2. simpl. rewrite Hstep3. simpl.
    exact Hrun4. }
  assert (transformTreeData events = Some F4) as Hres.
  { unfold transformTreeData. rewrite Hrun. simpl. by eapply result_of_TreeInv. }
  (* the node of the call *)
  assert (events !! i = Some c) as Hi.
  { unfold events. rewrite <- !app_assoc. simpl. by apply list_lookup_middle. }
  assert (exists node, node ∈ Spec.preorder F4 /\ id node = node_id i)
    as (node & Hnode & Hid).
  { assert (esig (i, c) ∈ map sig (Spec.preorder F4)) as Hin.
    { rewrite (ti_sig _ _ _ Ht4). change (map ?f ?l) with (f <$> l).
      apply list_elem_of_fmap. exists (i, c). split; [done|].
      apply created_lookup. rewrite Nat.sub_0_r.
      split; [lia|]. split; [done|congruence]. }
    change (map ?f ?l) with (f <$> l) in Hin.
    apply list_elem_of_fmap in Hin as (node & Heq & Hin).
    exists node. split; [done|]. unfold sig, esig in Heq. simpl in Heq. congruence. }
  destruct (repr_preorder _ _ _ _ (ti_repr _ _ _ Ht4) Hnode) as (a & Ha).
  clear Hdata2.
  inversion Ha as [? n ? Hn Hlabel _]; subst.
  assert (a = i) as ->.
  { apply node_id_inj.
    destruct (si_nodes _ _ Hs4 _ _ Hn) as (e0 & _ & _ & Hid0 & _).
    unfold label, s_label in Hlabel. congruence. }
  replace n with n4 in * by congruence.
  assert (node_data node = merge_data r c) as Hdata.
  { unfold label, s_label in Hlabel. congruence. }
  exists F4, node. split; [done|]. split.
  - rewrite <- Hid. apply filter_unique; [|done].
    apply (created_ids_NoDup events). apply (ti_sig _ _ _ Ht4).
  - split; [done|]. by rewrite Hdata.
Qed.

Lemma call_receives_its_return_example :
  Forall (fun e => 0 < depth e)
    [Spec.trace_event ev_call "b" 1 VUndefined;
     Spec.trace_event ev_return "b" 1 (VNumber 5)]
  /\ exists forest node,
       transformTreeData
         ([] ++ Spec.trace_event ev_call "a" 0 VUndefined
             :: [Spec.trace_event ev_call "b" 1 VUndefined;
                 Spec.trace_event ev_return "b" 1 (VNumber 5)]
             ++ Spec.trace_event ev_return "a" 0 (VNumber 7) :: [])
       = Some forest
       /\ filter (fun n => id n = node_id 0) (Spec.preorder forest) = [node]
       /\ node_data node
          = merge_data (Spec.trace_event ev_return "a" 0 (VNumber 7))
                       (Spec.trace_event ev_call "a" 0 VUndefined)
       /\ return_value node = VNumber 7
       /\ end_time node = None
       /\ duration node = None.
Proof.
  assert (Forall (fun e => 0 < depth e)
            [Spec.trace_event ev_call "b" 1 VUndefined;
             Spec.trace_event ev_return "b" 1 (VNumber 5)]) as H.
  { repeat constructor. }
  split; [exact H|].
  exact (call_receives_its_return []
           [Spec.trace_event ev_call "b" 1 VUndefined;
            Spec.trace_event ev_return "b" 1 (VNumber 5)] []
           (Spec.trace_event ev_call "a" 0 VUndefined)
           (Spec.trace_event ev_return "a" 0 (VNumber 7))
           eq_refl eq_refl eq_refl eq_refl H).
Defined.

(** ** Calls that never return *)

Lemma holds_data_step i c evs st e st' :
  StoreInv evs st -> holds_data i c st -> no_return_of c e ->
  process st (length evs) e = Some st' ->
  holds_data i c st'.
Proof.
  intros Hs (n & Hn & Hdata) Hok Hstep.
  pose proof (StoreInv_fresh _ _ Hs) as Hfresh.
  assert (i <> length evs) as Hi.
  { intros ->. by rewrite Hfresh in Hn. }
  destruct (decide (event e = ev_return)) as [Hev|Hev].
  - rewrite (process_return _ _ _ Hev) in Hstep.
    destruct (callStack st !! callKey (depth e) (method_name e)) as [a|] eqn:Ha.
    + destruct (si_callStack _ _ Hs _ _ Ha) as (_ & cn & Hcn & _ & Hk).
      rewrite Hcn in Hstep. simpl in Hstep. injection Hstep as <-.
      assert (a <> i) as Hai.
      { intros ->. replace cn with n in * by congruence.
        unfold key_of in Hk. rewrite Hdata in Hk.
        apply callKey_inj in Hk. by apply (Hok Hev). }
      unfold holds_data. simpl. exists n. by rewrite lookup_insert_ne.
    + injection Hstep as <-. by exists n.
  - destruct (pop_stack_spec (store st) (depth e) (stack st) (callStack st)
                (si_stack _ _ Hs))
      as (popped & stack1 & cs1 & Hpop & _ & _ & Hstack1 & _).
    rewrite (process_attach _ _ _ _ _ Hev Hpop) in Hstep.
    destruct stack1 as [|p rest].
    + injection Hstep as <-. unfold holds_data. simpl.
      exists n. by rewrite lookup_insert_ne.
    + destruct (Hstack1 p ltac:(constructor)) as (pn & Hp & _).
      rewrite Hp in Hstep. simpl in Hstep. injection Hstep as <-.
      unfold holds_data. simpl. rewrite lookup_insert_ne by done.
      destruct (decide (i = p)) as [->|Hip].
      * rewrite lookup_insert_eq. replace pn with n in * by congruence.
        by exists (push_child (length evs) n).
      * rewrite lookup_insert_ne by done. by exists n.
Qed.

(** A created object holds its event's data. *)
Lemma process_new_data evs st e st' :
  StoreInv evs st -> event e <> ev_return ->
  process st (length evs) e = Some st' ->
  holds_data (length evs) e st'.
Proof.
  intros Hs Hev Hstep.
  destruct (pop_stack_spec (store st) (depth e) (stack st) (callStack st)
              (si_stack _ _ Hs))
    as (popped & stack1 & cs1 & Hpop & _ & _ & Hstack1 & _).
  rewrite (process_attach _ _ _ _ _ Hev Hpop) in Hstep.
  destruct stack1 as [|p rest].
  - injection Hstep as <-. unfold holds_data. simpl.
    eexists. by rewrite lookup_insert_eq.
  - destruct (Hstack1 p ltac:(constructor)) as (pn & Hp & _).
    rewrite Hp in Hstep. simpl in Hstep. injection Hstep as <-.
    unfold holds_data. simpl. eexists. by rewrite lookup_insert_eq.
Qed.

(** The node of the forest made for the event at [i]. *)
Lemma node_of_index evs st F i e n :
  StoreInv evs st -> TreeInv evs st F ->
  evs !! i = Some e -> event e <> ev_return ->
  store st !! i = Some n ->
  exists node,
    filter (fun t => id t = node_id i) (Spec.preorder F) = [node]
    /\ node_data node = s_data n.
Proof.
  intros Hs Ht Hi Hev Hn.
  assert (exists node, node ∈ Spec.preorder F /\ id node = node_id i)
    as (node & Hnode & Hid).
  { assert (esig (i, e) ∈ map sig (Spec.preorder F)) as Hin.
    { rewrite (ti_sig _ _ _ Ht). change (map ?f ?l) with (f <$> l).
      apply list_elem_of_fmap. exists (i, e). split; [done|].
      apply created_lookup. rewrite Nat.sub_0_r. split; [lia|done]. }
    change (map ?f ?l) with (f <$> l) in Hin.
    apply list_elem_of_fmap in Hin as (node & Heq & Hin).
    exists node. split; [done|]. unfold sig, esig in Heq. simpl in Heq. congruence. }
  destruct (repr_preorder _ _ _ _ (ti_repr _ _ _ Ht) Hnode) as (a & Ha).
  inversion Ha as [a' m t' Hm Hlabel Hkids Ea Et].
  assert (a = i) as Eai.
  { apply node_id_inj.
    destruct (si_nodes _ _ Hs _ _ Hm) as (e0 & _ & _ & Hid0 & _).
    unfold label, s_label in Hlabel. congruence. }
  rewrite Eai in Hm. replace m with n in * by congruence.
  exists node. split.
  - rewrite <- Hid. apply filter_unique; [|done].
    apply (created_ids_NoDup evs). apply (ti_sig _ _ _ Ht).
  - unfold label, s_label in Hlabel. congruence.
Qed.

(** X30. A call that never returns keeps its event's data: if no
    return event after a call or call_return event has its depth and
    method name, the node of that event carries exactly the event's
    fields (its return_value, end_time and duration included), whatever
    other returns are merged elsewhere. *)
Theorem unreturned_call_keeps_its_data (pre post : list TreeNodeData)
    (c : TreeNodeData) :
  event c <> ev_return ->
  Forall (no_return_of c) post ->
  exists forest node,
    transformTreeData (pre ++ c :: post) = Some forest
    /\ filter (fun n => id n = node_id (length pre)) (Spec.preorder forest)
       = [node]
    /\ node_data node = c.
Proof.
  intros Hc Hpost.
  destruct (forEach_invariant pre) as (st0 & F0 & Hrun0 & Hs0 & Ht0).
  destruct (process_invariant pre st0 F0 c Hs0 Ht0)
    as (st1 & F1 & Hstep1 & Hs1 & Ht1).
  pose proof (process_new_data pre st0 c st1 Hs0 Hc Hstep1) as Hdata1.
  destruct (forEach_preserves (fun _ st => holds_data (length pre) c st)
              (no_return_of c)
              (fun evs st e st' Hs HP He Hp =>
                 holds_data_step (length pre) c evs st e st' Hs HP He Hp)
              post (pre ++ [c]) st1 F1 Hs1 Ht1 Hdata1 Hpost)
    as (st2 & F2 & Hrun2 & Hs2 & Ht2 & (n2 & Hn2 & Hdata2)).
  assert (pre ++ c :: post = (pre ++ [c]) ++ post) as Hsplit
    by (by rewrite <- app_assoc).
  rewrite Hsplit.
  assert (forEach ((pre ++ [c]) ++ post) 0 initial = Some st2) as Hrun.
  { rewrite !forEach_app, Hrun0. simpl. rewrite Hstep1. simpl.
    replace (length pre + 1) with (length (pre ++ [c]))
      by (rewrite length_app; simpl; lia).
    exact Hrun2. }
  destruct (node_of_index ((pre ++ [c]) ++ post) st2 F2 (length pre) c n2
              Hs2 Ht2) as (node & Hfilter & Hnode); try done.
  { rewrite <- app_assoc. simpl. by apply list_lookup_middle. }
  exists F2, node. split; [|split; [done|congruence]].
  unfold transformTreeData. rewrite Hrun. simpl. by eapply result_of_TreeInv.
Qed.

Lemma unreturned_call_keeps_its_data_example :
  event (Spec.trace_event ev_call "f" 0 VUndefined) <> ev_return
  /\ Forall (no_return_of (Spec.trace_event ev_call "f" 0 VUndefined))
            [Spec.trace_event ev_return "g" 0 (VNumber 5)]
  /\ exists forest node,
       transformTreeData
         ([] ++ Spec.trace_event ev_call "f" 0 VUndefined
             :: [Spec.trace_event ev_return "g" 0 (VNumber 5)])
       = Some forest
       /\ filter (fun n => id n = node_id 0) (Spec.preorder forest) = [node]
       /\ node_data node = Spec.trace_event ev_call "f" 0 VUndefined.
Proof.
  assert (Forall (no_return_of (Spec.trace_event ev_call "f" 0 VUndefined))
            [Spec.trace_event ev_return "g" 0 (VNumber 5)]) as H.
  { constructor; [|constructor]. intros _ [_ Hname]. discriminate Hname. }
  split; [discriminate|]. split; [exact H|].
  exact (unreturned_call_keeps_its_data []
           [Spec.trace_event ev_return "g" 0 (VNumber 5)]
           (Spec.trace_event ev_call "f" 0 VUndefined)
           ltac:(discriminate) H).
Defined.

End PairingFacts.

(* ===================================================================== *)
(** * What a return writes, field by field *)
(* ===================================================================== *)

Section ReturnFields.
Import Types treeTransform Repr Pairing.


(** The merge on a forest is the merge on each node of its pre-order. *)
Lemma preorder_merge_tree target e F :
  Spec.preorder (map (merge_tree target e) F)
  = map (merge_tree target e) (Spec.preorder F).
Proof.
  assert (forall t, Spec.preorder_node (merge_tree target e t)
                    = map (merge_tree target e) (Spec.preorder_node t)) as Hnode.
  { induction t as [t IH] using TreeNodeDisplay_ind'.
    destruct t as [d i kids ex l p]. cbn [merge_tree children] in *.
    cbn [Spec.preorder_node children map]. f_equal.
    induction IH as [|kid kids' Hkid _ IHkids]; [done|].
    cbn [map flat_map]. by rewrite map_app, Hkid, IHkids. }
  unfold Spec.preorder. induction F as [|t F IH]; [done|].
  cbn [map flat_map]. by rewrite map_app, Hnode, IH.
Qed.

(** ** Two calls under one call key *)



(** ** A trailing return that finds its call *)

(** X4. A trailing return event whose call key is pending changes
    exactly the pending call's node.  The pending entry refers to a call
    event of the return's depth and method name; in the new forest the
    node of that call has the return's return_value, end_time and
    duration and its other fields as before; every other node, and the
    id, level, parent and expansion flag of every node, are as in the
    forest of the events before the return; nothing stays pending under
    the key. *)
Theorem matched_trailing_return (events : list TreeNodeData)
    (r : TreeNodeData) (a : nat) :
  event r = ev_return ->
  Spec.pending events !! callKey (depth r) (method_name r) = Some a ->
  exists forest forest' c node,
    transformTreeData events = Some forest
    /\ transformTreeData (events ++ [r]) = Some forest'
    /\ forest' = map (merge_tree (node_id a) r) forest
    /\ events !! a = Some c
    /\ event c = ev_call /\ depth c = depth r /\ method_name c = method_name r
    /\ Spec.pending (events ++ [r]) !! callKey (depth r) (method_name r) = None
    /\ filter (fun n => id n = node_id a) (Spec.preorder forest') = [node]
    /\ return_value node = return_value r
    /\ end_time node = end_time r
    /\ duration node = duration r
    /\ event node = ev_call
    /\ method_name node = method_name c
    /\ depth node = depth c
    /\ Forall2 (fun n n' : TreeNodeDisplay =>
                  id n' = id n /\ level n' = level n /\ parent n' = parent n
                  /\ isExpanded n' = isExpanded n
                  /\ (id n <> node_id a -> node_data n' = node_data n)
                  /\ (id n = node_id a ->
                      returned r (node_data n) (node_data n')))
               (Spec.preorder forest) (Spec.preorder forest').
Proof.
  intros Hev Hpending.
  destruct (transformTreeData_invariant events) as (st & F & Hrun & Hres & Hs & Ht).
  unfold Spec.pending in Hpending. rewrite Hrun in Hpending.
  destruct (si_callStack _ _ Hs _ _ Hpending) as (_ & cn & Ha & Hcall & Hkey).
  destruct (si_nodes _ _ Hs _ _ Ha)
    as (c & Hc & Hnr & _ & _ & _ & Hevc & Hmc & Hdc & _).
  apply callKey_inj in Hkey as [Hd Hm].
  destruct (process_invariant events st F r Hs Ht) as (st' & F' & Hstep & Hs' & Ht').
  assert (forEach (events ++ [r]) 0 initial = Some st') as Hrun'.
  { rewrite forEach_app, Hrun. simpl. by rewrite Hstep. }
  pose proof (pending_after_return events st r st' Hs Hev Hstep) as Hnone.
  rewrite (process_return _ _ _ Hev), Hpending, Ha in Hstep. simpl in Hstep.
  injection Hstep as Hst'.
  assert (F' = map (merge_tree (node_id a) r) F) as HF'.
  { apply (forest_functional (store st') (nodes st')); [apply (ti_repr _ _ _ Ht')|].
    rewrite <- Hst'. simpl.
    apply (Forall2_merge_repr (store st)); [|apply (ti_repr _ _ _ Ht)].
    apply Forall_forall. intros t _ b Hb. apply merge_repr; try done.
    intros b0 n Hn. by destruct (si_nodes _ _ Hs _ _ Hn) as (e & _ & _ & -> & _). }
  assert (store st' !! a = Some (merge_return r cn)) as Ha'.
  { rewrite <- Hst'. simpl. apply lookup_insert_eq. }
  destruct (node_of_index (events ++ [r]) st' F' a c (merge_return r cn) Hs' Ht')
    as (node & Hfilter & Hnode); [|done|done|].
  { rewrite lookup_app_l; [done|]. by apply lookup_lt_Some in Hc. }
  exists F, F', c, node. split; [done|]. split.
  { unfold transformTreeData. rewrite Hrun'. simpl.
    by rewrite (result_of_TreeInv _ _ _ Ht'). }
  split; [done|]. split; [done|].
  split; [congruence|]. split; [congruence|]. split; [congruence|].
  split; [unfold Spec.pending; by rewrite Hrun'|].
  split; [done|].
  split; [by rewrite Hnode|]. split; [by rewrite Hnode|].
  split; [by rewrite Hnode|].
  split; [rewrite Hnode; simpl; congruence|].
  split; [rewrite Hnode; simpl; congruence|].
  split; [rewrite Hnode; simpl; congruence|].
  rewrite HF', preorder_merge_tree.
  change (map ?f ?l) with (f <$> l). apply Forall2_fmap_r.
  apply Forall_Forall2_diag, Forall_forall. intros n _.
  destruct n as [d i kids ex l p]. simpl.
  split; [done|]. split; [done|]. split; [done|]. split; [done|]. split.
  - intros Hne. by rewrite decide_False.
  - intros Heq. rewrite decide_True by done. by repeat split.
Qed.

Lemma matched_trailing_return_example :
  Spec.pending [Spec.trace_event ev_call "f" 0 VUndefined] !! callKey 0 "f"
  = Some 0
  /\ exists forest forest' node,
       transformTreeData [Spec.trace_event ev_call "f" 0 VUndefined]
       = Some forest
       /\ transformTreeData
            ([Spec.trace_event ev_call "f" 0 VUndefined]
             ++ [Spec.trace_event ev_return "f" 0 (VNumber 5)])
          = Some forest'
       /\ filter (fun n => id n = node_id 0) (Spec.preorder forest') = [node]
       /\ return_value node = VNumber 5
       /\ end_time node = None
       /\ duration node = None
       /\ Spec.pending ([Spec.trace_event ev_call "f" 0 VUndefined]
                        ++ [Spec.trace_event ev_return "f" 0 (VNumber 5)])
            !! callKey 0 "f" = None.
Proof.
  assert (Spec.pending [Spec.trace_event ev_call "f" 0 VUndefined]
            !! callKey 0 "f" = Some 0) as H by reflexivity.
  split; [exact H|].
  destruct (matched_trailing_return [Spec.trace_event ev_call "f" 0 VUndefined]
              (Spec.trace_event ev_return "f" 0 (VNumber 5)) 0 eq_refl H)
    as (forest & forest' & c & node & Hf & Hf' & _ & _ & _ & _ & _ & Hnone
        & Hfilter & Hrv & Het & Hdu & _).
  exists forest, forest', node.
  split; [exact Hf|]. split; [exact Hf'|]. split; [exact Hfilter|].
  split; [exact Hrv|]. split; [exact Het|]. split; [exact Hdu|]. exact Hnone.
Defined.

End ReturnFields.

